(** * Christofides-style TSP heuristic (Christofides_TSP.cpp)

    A shallow embedding of the MST-and-matching tour builder and the
    properties its design document states about it.

    Conventions of the embedding.
    - [double] is IEEE-754 binary64: Rocq's primitive [float], whose
      operations ([+], [*], [-], [sqrt], [<?]) are the correctly rounded
      binary64 ones.
    - [int] is [Z] (every index of the program stays far below 2^31).
    - [std::vector<T>] is [list T]; [v[i]] on an index outside the vector
      is undefined behaviour in C++ and is [None] here, so every function
      that indexes returns an [option].
    - A [for (int i = lo; i < hi; i++)] loop is [for_range lo hi body s],
      which threads the loop state [s] through the body. *)

From Stdlib Require Import ZArith Lia List Permutation String.
From Stdlib Require Import Floats.
From stdpp Require Import base option list sets sorting.

Open Scope Z_scope.

Set Warnings "-clear-no-such-hyp,-cannot-remove-as-expected".

(** ** Vectors indexed by [int] *)

Definition vget {A} (v : list A) (i : Z) : option A :=
  if decide (0 ≤ i) then v !! Z.to_nat i else None.

Definition vset {A} (v : list A) (i : Z) (x : A) : option (list A) :=
  if decide (0 ≤ i < Z.of_nat (length v)) then Some (<[Z.to_nat i := x]> v) else None.

Definition vsize {A} (v : list A) : Z := Z.of_nat (length v).

(** [v.push_back(x)], [v.back()], [v.pop_back()]. *)
Definition push_back {A} (v : list A) (x : A) : list A := v ++ [x].
Definition back {A} (v : list A) : option A := last v.
Definition pop_back {A} (v : list A) : list A := removelast v.

(** [it = find(v.begin(), v.end(), x); if (it != v.end()) v.erase(it);] *)
Fixpoint erase_first (x : Z) (v : list Z) : list Z :=
  match v with
  | [] => []
  | y :: v' => if decide (y = x) then v' else y :: erase_first x v'
  end.

(** Position of the first occurrence, [find(v.begin(), v.end(), x)];
    [None] is [v.end()]. *)
Fixpoint find_pos (x : Z) (v : list Z) : option nat :=
  match v with
  | [] => None
  | y :: v' => if decide (y = x) then Some O else S <$> find_pos x v'
  end.

(** ** Counted loops *)

Fixpoint for_loop {S} (k : nat) (i : Z) (body : Z → S → option S) (s : S) : option S :=
  match k with
  | O => Some s
  | Datatypes.S k' => s' ← body i s; for_loop k' (i + 1) body s'
  end.

Definition for_range {S} (lo hi : Z) (body : Z → S → option S) (s : S) : option S :=
  for_loop (Z.to_nat (hi - lo)) lo body s.

(** [for (T x : v)] *)
Fixpoint for_each {A S} (v : list A) (body : A → S → option S) (s : S) : option S :=
  match v with
  | [] => Some s
  | x :: v' => s' ← body x s; for_each v' body s'
  end.

(** ** The program *)

Record Point := mkPoint { px : float; py : float }.

Definition matrix := list (list float).

Definition distEuclid (a b : Point) : float :=
  let dx := (px a - px b)%float in
  let dy := (py a - py b)%float in
  PrimFloat.sqrt (dx * dx + dy * dy)%float.

(** The file system as [loadPoints] sees it: a name that cannot be opened
    is [None]; otherwise the file yields the points that
    [in >> p.x >> p.y] reads before the first failure. *)
Definition files := string → option (list Point).

Definition loadPoints (fs : files) (filename : string) (points : list Point)
  : bool * list Point :=
  match fs filename with
  | None => (false, points)
  | Some ps =>
      let points := points ++ ps in
      (negb (bool_decide (points = [])), points)
  end.

Definition mget (d : matrix) (i j : Z) : option float :=
  row ← vget d i; vget row j.

Definition mset (d : matrix) (i j : Z) (x : float) : option matrix :=
  row ← vget d i; row ← vset row j x; vset d i row.

Definition buildDistanceMatrix (pts : list Point) : option matrix :=
  let n := vsize pts in
  let d := replicate (length pts) (replicate (length pts) 0%float) in
  for_range 0 n (λ i d,
    for_range 0 n (λ j d,
      a ← vget pts i; b ← vget pts j;
      mset d i j (distEuclid a b)) d) d.

Definition tourLength (tour : list Z) (d : matrix) : option float :=
  for_range 0 (vsize tour - 1) (λ i len,
    a ← vget tour i; b ← vget tour (i + 1);
    w ← mget d a b;
    Some (len + w)%float) 0%float.

(** *** Prim's algorithm *)

Definition prim_state : Type := list float * list Z * list bool.

(** The scan for the not-yet-included vertex of minimum key. *)
Definition prim_scan (key : list float) (inMST : list bool) (v : Z)
    (s : float * Z) : option (float * Z) :=
  let '(best, u) := s in
  b ← vget inMST v;
  if negb b then
    kv ← vget key v;
    if (kv <? best)%float then Some (kv, v) else Some (best, u)
  else Some (best, u).

(** The key update after [u] has been included. *)
Definition prim_update (d : matrix) (inMST : list bool) (u : Z) (v : Z)
    (s : list float * list Z) : option (list float * list Z) :=
  let '(key, parent) := s in
  b ← vget inMST v;
  if negb b then
    duv ← mget d u v;
    kv ← vget key v;
    if (duv <? kv)%float then
      key ← vset key v duv;
      parent ← vset parent v u;
      Some (key, parent)
    else Some (key, parent)
  else Some (key, parent).

Definition prim_iter (d : matrix) (n : Z) (iter : Z) (s : prim_state)
  : option prim_state :=
  let '(key, parent, inMST) := s in
  '(best, u) ← for_range 0 n (prim_scan key inMST) (infinity, -1);
  inMST ← vset inMST u true;
  '(key, parent) ← for_range 0 n (prim_update d inMST u) (key, parent);
  Some (key, parent, inMST).

Definition primMST (d : matrix) : option (list Z) :=
  let n := vsize d in
  let key := replicate (length d) infinity in
  let parent := replicate (length d) (-1) in
  let inMST := replicate (length d) false in
  key ← vset key 0 0%float;
  '(key, parent, inMST) ← for_range 0 n (prim_iter d n) (key, parent, inMST);
  Some parent.

(** *** Adjacency of the tree, odd vertices, greedy matching *)

Definition adjacency := list (list Z).

(** [adj[u].push_back(v)] *)
Definition adj_push (adj : adjacency) (u v : Z) : option adjacency :=
  au ← vget adj u; vset adj u (push_back au v).

Definition buildAdjFromParent (parent : list Z) : option adjacency :=
  let n := vsize parent in
  for_range 1 n (λ v adj,
    p ← vget parent v;
    adj ← adj_push adj v p;
    adj_push adj p v) (replicate (length parent) []).

Definition findOddDegreeVertices (adj : adjacency) : option (list Z) :=
  let n := vsize adj in
  for_range 0 n (λ i odd,
    ai ← vget adj i;
    if decide (vsize ai mod 2 = 1) then Some (push_back odd i) else Some odd) [].

(** The scan for the closest unmatched partner of [odd[i]]. *)
Definition match_scan (odd : list Z) (d : matrix) (used : list bool) (i : Z)
    (j : Z) (s : float * Z) : option (float * Z) :=
  let '(best, bestj) := s in
  uj ← vget used j;
  if negb uj then
    oi ← vget odd i; oj ← vget odd j;
    dist ← mget d oi oj;
    if (dist <? best)%float then Some (dist, j) else Some (best, bestj)
  else Some (best, bestj).

Definition match_iter (odd : list Z) (d : matrix) (k : Z) (i : Z)
    (s : list bool * adjacency) : option (list bool * adjacency) :=
  let '(used, adj) := s in
  ui ← vget used i;
  if (ui : bool) then Some (used, adj)
  else
    '(best, bestj) ← for_range (i + 1) k (match_scan odd d used i) (infinity, -1);
    used ← vset used i true;
    used ← vset used bestj true;
    u ← vget odd i;
    v ← vget odd bestj;
    adj ← adj_push adj u v;
    adj ← adj_push adj v u;
    Some (used, adj).

Definition addGreedyPerfectMatching (odd : list Z) (d : matrix) (adj : adjacency)
  : option adjacency :=
  let k := vsize odd in
  if decide (k = 0) then Some adj
  else
    '(used, adj) ← for_range 0 k (match_iter odd d k) (replicate (length odd) false, adj);
    Some adj.

(** *** Hierholzer's algorithm *)

(** The loop state: the adjacency being consumed, the traversal stack and
    the circuit written so far. *)
Definition euler_state : Type := adjacency * list Z * list Z.

(** One iteration of [while (!stack.empty())], entered with a non-empty
    stack. *)
Definition hierholzer_step (st : euler_state) : option euler_state :=
  let '(adj, stack, circuit) := st in
  u ← back stack;
  au ← vget adj u;
  if bool_decide (au ≠ []) then
    v ← back au;
    adj ← vset adj u (pop_back au);
    nbrs ← vget adj v;
    adj ← vset adj v (erase_first u nbrs);
    Some (adj, push_back stack v, circuit)
  else
    Some (adj, pop_back stack, push_back circuit u).

(** How a run of the loop can end. *)
Inductive run (A : Type) : Type :=
  | Returns (a : A)
  | Undefined
  | OutOfFuel.
Arguments Returns {A} a.
Arguments Undefined {A}.
Arguments OutOfFuel {A}.

Fixpoint hierholzer_loop (fuel : nat) (st : euler_state) : run (list Z) :=
  match st.1.2 with
  | [] => Returns st.2
  | _ :: _ =>
      match fuel with
      | O => OutOfFuel
      | Datatypes.S fuel' =>
          match hierholzer_step st with
          | Some st' => hierholzer_loop fuel' st'
          | None => Undefined
          end
      end
  end.

(** Number of stored neighbour entries, and the loop's variant. *)
Definition entries (adj : adjacency) : nat := length (concat adj).

Definition euler_measure (st : euler_state) : nat :=
  (2 * entries st.1.1 + length st.1.2)%nat.

Definition eulerianTourHierholzer (start : Z) (adj : adjacency) : option (list Z) :=
  let st := (adj, push_back [] start, []) in
  match hierholzer_loop (euler_measure st) st with
  | Returns circuit => Some (rev circuit)
  | _ => None
  end.

(** *** The pipeline *)

(** The shortcutting loop over the Eulerian walk. *)
Definition shortcut_step (v : Z) (s : list bool * list Z) : option (list bool * list Z) :=
  let '(visited, tour) := s in
  b ← vget visited v;
  if negb b then
    visited ← vset visited v true;
    Some (visited, push_back tour v)
  else Some (visited, tour).

(** [it0 = find(..., 0); if (it0 != begin && it0 != end) rotate(begin, it0, end);] *)
Definition rotate_to_zero (tour : list Z) : list Z :=
  match find_pos 0 tour with
  | Some (Datatypes.S i) => drop (Datatypes.S i) tour ++ take (Datatypes.S i) tour
  | _ => tour
  end.

Definition shortcut (n : nat) (euler : list Z) : option (list Z) :=
  '(visited, tour) ← for_each euler shortcut_step (replicate n false, []);
  Some (push_back (rotate_to_zero tour) 0).

Definition christofidesTour (d : matrix) : option (list Z) :=
  parent ← primMST d;
  adj ← buildAdjFromParent parent;
  odd ← findOddDegreeVertices adj;
  adj ← addGreedyPerfectMatching odd d adj;
  euler ← eulerianTourHierholzer 0 adj;
  shortcut (length d) euler.

(** *** The command line *)

(** What a run does that is visible from outside, in order: the stages it
    calls and the lines it writes (line ends left out).  The grid size
    read from standard input only scales the drawing and is left out. *)
Inductive event : Type :=
  | Call (stage : string)
  | Cout (line : string)
  | Cerr (line : string)
  | CoutLength (len : float)
  | CoutTour (tour : list Z).

Definition main (fs : files) (argv : list string) : option (Z * list event) :=
  match argv with
  | _ :: filename :: _ =>
      let '(ok, points) := loadPoints fs filename [] in
      if negb ok then
        Some (1, [Cerr ("Error: could not read points from " ++ filename)%string])
      else if decide (vsize points = 1) then
        Some (0, [Cout "Only 1 city. Tour length = 0"%string])
      else
        d ← buildDistanceMatrix points;
        tour ← christofidesTour d;
        len ← tourLength tour d;
        Some (0, [Call "buildDistanceMatrix"; Call "christofidesTour";
                  Call "tourLength"; CoutLength len; CoutTour tour;
                  Cout ("Enter original gridSize used to generate " ++ filename ++ ": ");
                  Call "writeSolutionSVG"]%string)
  | _ => Some (1, [Cout "Usage: ./christofides <points_file.txt>"%string])
  end.

(** ** The unit square *)

Definition unit_square : list Point :=
  [mkPoint 0 0; mkPoint 0 1; mkPoint 1 1; mkPoint 1 0]%float.

Definition pipeline_length (pts : list Point) : option float :=
  d ← buildDistanceMatrix pts;
  tour ← christofidesTour d;
  tourLength tour d.

Example unit_square_tour :
  (d ← buildDistanceMatrix unit_square; christofidesTour d) = Some [0; 3; 2; 1; 0].
Proof. vm_compute. reflexivity. Qed.

(** C7: on the four corners of the unit square the pipeline's tour has
    evaluated length exactly 4.0. *)
Theorem unit_square_length : pipeline_length unit_square = Some 4%float.
Proof. vm_compute. reflexivity. Qed.

(** ** Order of the finite doubles *)

Section float_order.
(** The value of a finite binary64 number in units of 2^-1074, the
    spacing of the subnormal numbers; every finite double is an integer
    multiple of it. *)
Definition exact_sf (f : spec_float) : Z :=
  match f with
  | S754_finite s m e => (if s then - Z.pos m else Z.pos m) * 2 ^ (e + 1074)
  | _ => 0
  end.

Definition exact (x : float) : Z := exact_sf (Prim2SF x).

(** A number, and neither infinity. *)
Definition finite (x : float) : bool :=
  match Prim2SF x with
  | S754_zero _ | S754_finite _ _ _ => true
  | _ => false
  end.

Lemma digits2_pos_size m : digits2_pos m = Pos.size m.
Proof. induction m; simpl; congruence. Qed.

Lemma mantissa_bounds m e :
  canonical_mantissa prec emax m e = true →
  -1074 ≤ e ∧ Z.pos m < 2 ^ 53 ∧ (-1074 < e → 2 ^ 52 ≤ Z.pos m).
Proof.
  unfold canonical_mantissa, fexp, SpecFloat.emin, prec, emax.
  rewrite digits2_pos_size. intros H%Z.eqb_eq.
  pose proof (Pos.size_gt m) as Hgt. pose proof (Pos.size_le m) as Hle.
  assert (Z.pos m < 2 ^ Z.pos (Pos.size m)) as Hgt'.
  { rewrite <- Pos2Z.inj_pow. lia. }
  assert (2 ^ Z.pos (Pos.size m) ≤ 2 * Z.pos m) as Hle'.
  { rewrite <- Pos2Z.inj_pow. lia. }
  split; [lia|]. split.
  - assert (Z.pos (Pos.size m) ≤ 53) by lia.
    pose proof (Z.pow_le_mono_r 2 (Z.pos (Pos.size m)) 53). lia.
  - intros He. assert (Z.pos (Pos.size m) = 53) as E by lia.
    rewrite E in Hle'. change (2 ^ 53) with (2 * 2 ^ 52) in Hle'. lia.
Qed.

Lemma exact_pos_lt m1 e1 m2 e2 :
  canonical_mantissa prec emax m1 e1 = true →
  canonical_mantissa prec emax m2 e2 = true →
  e1 < e2 → Z.pos m1 * 2 ^ (e1 + 1074) < Z.pos m2 * 2 ^ (e2 + 1074).
Proof.
  intros (H1 & H1' & _)%mantissa_bounds (H2 & _ & H2')%mantissa_bounds Hlt.
  specialize (H2' ltac:(lia)).
  replace (e2 + 1074) with ((e2 - e1) + (e1 + 1074)) by lia.
  rewrite (Z.pow_add_r 2 (e2 - e1) (e1 + 1074)) by lia.
  assert (0 < 2 ^ (e1 + 1074)) by (apply Z.pow_pos_nonneg; lia).
  assert (2 ^ 1 ≤ 2 ^ (e2 - e1)) as HQ by (apply Z.pow_le_mono_r; lia).
  change (2 ^ 1) with 2 in HQ. change (2 ^ 53) with (2 * 2 ^ 52) in H1'.
  rewrite Z.mul_assoc. apply Z.mul_lt_mono_pos_r; [done|].
  assert (2 * 2 ^ 52 ≤ Z.pos m2 * 2 ^ (e2 - e1)); [|lia].
  rewrite (Z.mul_comm 2). apply Z.mul_le_mono_nonneg; lia.
Qed.

Lemma exact_pos_compare m1 e1 m2 e2 :
  canonical_mantissa prec emax m1 e1 = true →
  canonical_mantissa prec emax m2 e2 = true →
  match e1 ?= e2 with
  | Eq => Pos.compare_cont Eq m1 m2
  | Lt => Lt
  | Gt => Gt
  end = (Z.pos m1 * 2 ^ (e1 + 1074) ?= Z.pos m2 * 2 ^ (e2 + 1074)).
Proof.
  intros H1 H2. destruct (Z.compare_spec e1 e2) as [->|Hlt|Hgt].
  - change (Pos.compare_cont Eq m1 m2) with (Z.pos m1 ?= Z.pos m2).
    pose proof (mantissa_bounds _ _ H2) as (? & _ & _).
    assert (0 < 2 ^ (e2 + 1074)) by (apply Z.pow_pos_nonneg; lia).
    destruct (Z.compare_spec (Z.pos m1) (Z.pos m2)) as [E|E|E]; symmetry.
    + apply Z.compare_eq_iff. by rewrite E.
    + apply Z.compare_lt_iff. nia.
    + apply Z.compare_gt_iff. nia.
  - symmetry. apply Z.compare_lt_iff. by apply exact_pos_lt.
  - symmetry. apply Z.compare_gt_iff. apply exact_pos_lt; [done..|lia].
Qed.

Lemma valid_canonical s m e :
  valid_binary (S754_finite s m e) = true → canonical_mantissa prec emax m e = true.
Proof. unfold SpecFloat.valid_binary, bounded. by intros [? _]%andb_prop. Qed.

Lemma SFltb_exact f g :
  valid_binary f = true → valid_binary g = true →
  match f, g with
  | (S754_zero _ | S754_finite _ _ _), (S754_zero _ | S754_finite _ _ _) =>
      SFltb f g = bool_decide (exact_sf f < exact_sf g)
  | _, _ => True
  end.
Proof.
  intros Hf Hg.
  destruct f as [sf| | |sf mf ef], g as [sg| | |sg mg eg]; try done.
  - apply valid_canonical, mantissa_bounds in Hg as (? & _ & _).
    assert (0 < 2 ^ (eg + 1074)) by (apply Z.pow_pos_nonneg; lia).
    unfold SFltb, SFcompare, exact_sf. destruct sg; symmetry.
    + apply bool_decide_eq_false. nia.
    + apply bool_decide_eq_true. nia.
  - apply valid_canonical, mantissa_bounds in Hf as (? & _ & _).
    assert (0 < 2 ^ (ef + 1074)) by (apply Z.pow_pos_nonneg; lia).
    unfold SFltb, SFcompare, exact_sf. destruct sf; symmetry.
    + apply bool_decide_eq_true. nia.
    + apply bool_decide_eq_false. nia.
  - apply valid_canonical in Hf, Hg.
    pose proof (mantissa_bounds _ _ Hf) as (? & _ & _).
    pose proof (mantissa_bounds _ _ Hg) as (? & _ & _).
    assert (0 < 2 ^ (ef + 1074)) by (apply Z.pow_pos_nonneg; lia).
    assert (0 < 2 ^ (eg + 1074)) by (apply Z.pow_pos_nonneg; lia).
    unfold SFltb, SFcompare, exact_sf. destruct sf, sg.
    + assert (∀ c, match ef ?= eg with Eq => CompOpp c | Lt => Gt | Gt => Lt end
                 = CompOpp match ef ?= eg with Eq => c | Lt => Lt | Gt => Gt end) as ->
        by (intros; by destruct (ef ?= eg)).
      rewrite (exact_pos_compare _ _ _ _ Hf Hg).
      destruct (Z.compare_spec (Z.pos mf * 2 ^ (ef + 1074)) (Z.pos mg * 2 ^ (eg + 1074)));
        simpl; symmetry; (apply bool_decide_eq_false || apply bool_decide_eq_true); lia.
    + symmetry. apply bool_decide_eq_true. nia.
    + symmetry. apply bool_decide_eq_false. nia.
    + rewrite (exact_pos_compare _ _ _ _ Hf Hg).
      destruct (Z.compare_spec (Z.pos mf * 2 ^ (ef + 1074)) (Z.pos mg * 2 ^ (eg + 1074)));
        simpl; symmetry; (apply bool_decide_eq_false || apply bool_decide_eq_true); lia.
Qed.

(** On finite doubles [<] is the order of the exact values. *)
Lemma ltb_exact x y :
  finite x = true → finite y = true →
  (x <? y)%float = bool_decide (exact x < exact y).
Proof.
  unfold finite, exact. intros Hx Hy. rewrite ltb_spec.
  pose proof (SFltb_exact _ _ (Prim2SF_valid x) (Prim2SF_valid y)) as H.
  destruct (Prim2SF x), (Prim2SF y); done.
Qed.

Lemma ltb_inf_false x : (infinity <? x)%float = false.
Proof.
  rewrite ltb_spec.
  replace (Prim2SF infinity) with (S754_infinity false) by (vm_compute; reflexivity).
  destruct (Prim2SF x) as [[]|[]| |[]]; reflexivity.
Qed.

Lemma finite_zero : finite 0 = true.
Proof. vm_compute. reflexivity. Qed.

Lemma ltb_inf_finite x : finite x = true → (x <? infinity)%float = true.
Proof.
  unfold finite. rewrite ltb_spec.
  replace (Prim2SF infinity) with (S754_infinity false) by (vm_compute; reflexivity).
  destruct (Prim2SF x) as [[]|[]| |[]]; done.
Qed.
End float_order.

(** ** Vector and loop lemmas *)

Section vectors.
Context {A : Type}.
Implicit Types (v : list A) (i j : Z) (x : A).

Lemma vget_Some v i x : vget v i = Some x ↔ 0 ≤ i ∧ v !! Z.to_nat i = Some x.
Proof.
  unfold vget. case_decide.
  - split; [by intros ?|by intros [_ ?]].
  - split; [done|by intros [? _]].
Qed.

Lemma vget_range v i x : vget v i = Some x → 0 ≤ i < vsize v.
Proof.
  rewrite vget_Some. intros [? H%lookup_lt_Some]. unfold vsize. lia.
Qed.

Lemma vget_in_range v i : 0 ≤ i < vsize v → ∃ x, vget v i = Some x.
Proof.
  unfold vsize. intros ?.
  destruct (lookup_lt_is_Some_2 v (Z.to_nat i)) as [x Hx]; [lia|].
  exists x. apply vget_Some. split; [lia|done].
Qed.

Lemma vget_None v i : vget v i = None ↔ ¬ (0 ≤ i < vsize v).
Proof.
  split.
  - intros H Hr. destruct (vget_in_range v i Hr) as [x Hx]. congruence.
  - intros H. destruct (vget v i) eqn:E; [|done].
    apply vget_range in E. contradiction.
Qed.

Lemma vget_elem_of v i x : vget v i = Some x → x ∈ v.
Proof. rewrite vget_Some. intros [_ H]. by eapply list_elem_of_lookup_2. Qed.

Lemma elem_of_vget v x : x ∈ v → ∃ i, vget v i = Some x.
Proof.
  intros [k Hk]%list_elem_of_lookup_1. exists (Z.of_nat k).
  apply vget_Some. rewrite Nat2Z.id. split; [lia|done].
Qed.

Lemma vset_Some v i x v' :
  vset v i x = Some v' ↔ 0 ≤ i < vsize v ∧ v' = <[Z.to_nat i := x]> v.
Proof.
  unfold vset, vsize. case_decide.
  - split; [by intros [= <-]|by intros [_ ->]].
  - split; [done|by intros [? _]].
Qed.

Lemma vset_in_range v i x : 0 ≤ i < vsize v → ∃ v', vset v i x = Some v'.
Proof. intros. eexists. apply vset_Some. eauto. Qed.

Lemma vsize_vset v i x v' : vset v i x = Some v' → vsize v' = vsize v.
Proof. rewrite vset_Some. intros [_ ->]. unfold vsize. by rewrite length_insert. Qed.

Lemma length_vset v i x v' : vset v i x = Some v' → length v' = length v.
Proof. rewrite vset_Some. intros [_ ->]. by rewrite length_insert. Qed.

Lemma vget_vset_eq v i x v' : vset v i x = Some v' → vget v' i = Some x.
Proof.
  rewrite vset_Some. unfold vsize. intros [? ->]. apply vget_Some. split; [lia|].
  apply list_lookup_insert_eq. lia.
Qed.

Lemma vget_vset_ne v i j x v' : vset v i x = Some v' → i ≠ j → vget v' j = vget v j.
Proof.
  rewrite vset_Some. intros [? ->] Hne. unfold vget. case_decide; [|done].
  apply list_lookup_insert_ne. lia.
Qed.

Lemma vget_vset v i j x v' :
  vset v i x = Some v' → vget v' j = if decide (i = j) then Some x else vget v j.
Proof.
  intros H. case_decide as E.
  - subst. by eapply vget_vset_eq.
  - by eapply vget_vset_ne.
Qed.

Lemma vget_replicate (n : nat) x i :
  0 ≤ i < Z.of_nat n → vget (replicate n x) i = Some x.
Proof. intros. apply vget_Some. split; [lia|]. apply lookup_replicate_2. lia. Qed.

Lemma vsize_replicate (n : nat) x : vsize (replicate n x) = Z.of_nat n.
Proof. unfold vsize. by rewrite length_replicate. Qed.

Lemma vget_push_back_l v x i y : vget v i = Some y → vget (push_back v x) i = Some y.
Proof.
  rewrite !vget_Some. intros [? H]. split; [done|]. unfold push_back.
  by apply lookup_app_l_Some.
Qed.

Lemma vget_push_back_last v x : vget (push_back v x) (vsize v) = Some x.
Proof.
  apply vget_Some. unfold vsize, push_back. split; [lia|].
  rewrite Nat2Z.id. by rewrite lookup_app_r, Nat.sub_diag.
Qed.

Lemma vsize_push_back v x : vsize (push_back v x) = vsize v + 1.
Proof. unfold vsize, push_back. rewrite length_app. simpl. lia. Qed.

Lemma back_push_back v x : back (push_back v x) = Some x.
Proof. apply last_snoc. Qed.

Lemma pop_back_push_back v x : pop_back (push_back v x) = v.
Proof. apply removelast_last. Qed.

Lemma back_Some v x : back v = Some x → v = push_back (pop_back v) x.
Proof.
  unfold back, push_back, pop_back. intros H.
  destruct (decide (v = [])) as [->|Hne]; [done|].
  destruct (exists_last Hne) as (v0 & y & ->).
  rewrite last_snoc in H. injection H as ->. by rewrite removelast_last.
Qed.

Lemma back_None v : back v = None ↔ v = [].
Proof. apply last_None. Qed.

Lemma elem_of_rev v x : x ∈ rev v ↔ x ∈ v.
Proof. rewrite !list_elem_of_In. symmetry. apply in_rev. Qed.
End vectors.

Section loops.
Context {S : Type}.
Implicit Types (body : Z → S → option S) (I : Z → S → Prop).

Lemma for_loop_inv I k lo body s :
  I lo s →
  (∀ i s, lo ≤ i < lo + Z.of_nat k → I i s → ∃ s', body i s = Some s' ∧ I (i + 1) s') →
  ∃ s', for_loop k lo body s = Some s' ∧ I (lo + Z.of_nat k) s'.
Proof.
  revert lo s. induction k as [|k IH]; intros lo s H0 Hstep.
  - exists s. split; [done|]. by replace (lo + Z.of_nat 0) with lo by lia.
  - destruct (Hstep lo s) as (s1 & Hb & H1); [lia|done|].
    destruct (IH (lo + 1) s1) as (s' & Hl & H'); [done| |].
    + intros i s2 ? ?. apply Hstep; [lia|done].
    + exists s'. simpl. rewrite Hb. simpl. split; [done|].
      by replace (lo + Z.of_nat (Datatypes.S k)) with (lo + 1 + Z.of_nat k) by lia.
Qed.

(** The invariant rule for counted loops: the loop runs to its end and
    establishes the invariant at the upper bound. *)
Lemma for_range_inv I lo hi body s :
  lo ≤ hi → I lo s →
  (∀ i s, lo ≤ i < hi → I i s → ∃ s', body i s = Some s' ∧ I (i + 1) s') →
  ∃ s', for_range lo hi body s = Some s' ∧ I hi s'.
Proof.
  intros Hle H0 Hstep. unfold for_range.
  destruct (for_loop_inv I (Z.to_nat (hi - lo)) lo body s) as (s' & ? & ?); [done| |].
  - intros i s1 ? ?. apply Hstep; [lia|done].
  - exists s'. split; [done|]. by replace hi with (lo + Z.of_nat (Z.to_nat (hi - lo))) by lia.
Qed.

(** The same rule for a loop that is known to have run to its end. *)
Lemma for_range_inv_partial I lo hi body s s' :
  lo ≤ hi → for_range lo hi body s = Some s' → I lo s →
  (∀ i s s', lo ≤ i < hi → I i s → body i s = Some s' → I (i + 1) s') →
  I hi s'.
Proof.
  intros Hle Hrun H0 Hstep.
  destruct (for_range_inv
              (λ i s, I i s ∧ for_range i hi body s = Some s' ∧ lo ≤ i ≤ hi)
              lo hi body s) as (s1 & Hrun1 & H1 & _); [done|split; [done|split; [done|lia]]| |].
  - intros i s0 Hi (HI & Hr & _). unfold for_range in Hr.
    replace (Z.to_nat (hi - i)) with (Datatypes.S (Z.to_nat (hi - (i + 1)))) in Hr by lia.
    simpl in Hr. destruct (body i s0) as [s1|] eqn:Hb; [|done].
    exists s1. split; [done|]. split; [by eapply Hstep|]. split; [done|lia].
  - rewrite Hrun in Hrun1. by injection Hrun1 as <-.
Qed.

Lemma for_range_empty lo hi body s : hi ≤ lo → for_range lo hi body s = Some s.
Proof. intros. unfold for_range. by replace (Z.to_nat (hi - lo)) with O by lia. Qed.

Lemma for_each_inv {A} (I : list A → S → Prop) (v : list A) (body : A → S → option S) s :
  I [] s →
  (∀ pre x s, (∃ post, v = pre ++ x :: post) → I pre s →
     ∃ s', body x s = Some s' ∧ I (pre ++ [x]) s') →
  ∃ s', for_each v body s = Some s' ∧ I v s'.
Proof.
  intros H0 Hstep.
  cut (∀ post pre s, v = pre ++ post → I pre s →
         ∃ s', for_each post body s = Some s' ∧ I v s').
  { intros H. by apply (H v [] s). }
  induction post as [|x post IH]; intros pre s1 Hv H1.
  - exists s1. rewrite app_nil_r in Hv. by subst.
  - destruct (Hstep pre x s1) as (s2 & Hb & H2); [by eexists|done|].
    destruct (IH (pre ++ [x]) s2) as (s' & ? & ?); [by rewrite <- app_assoc|done|].
    exists s'. simpl. rewrite Hb. done.
Qed.
End loops.

(** ** Termination of the Eulerian walk *)

Section euler_termination.
Implicit Types (adj : adjacency) (stack circuit : list Z) (st : euler_state).

Lemma entries_vset adj u au l adj' :
  vget adj u = Some au → vset adj u l = Some adj' →
  (entries adj' + length au = entries adj + length l)%nat.
Proof.
  rewrite vget_Some, vset_Some. intros [_ Hu] [_ ->]. unfold entries.
  rewrite insert_take_drop by (by eapply lookup_lt_Some).
  rewrite <- (take_drop_middle adj (Z.to_nat u) au Hu) at 3.
  rewrite !concat_app, !length_app. simpl. rewrite !length_app. lia.
Qed.

Lemma length_pop_back {A} (v : list A) :
  v ≠ [] → Datatypes.S (length (pop_back v)) = length v.
Proof.
  intros Hne. destruct (exists_last Hne) as (v0 & y & ->).
  unfold pop_back. rewrite removelast_last, length_app. simpl. lia.
Qed.

Lemma length_erase_first x v : (length (erase_first x v) ≤ length v)%nat.
Proof. induction v as [|y v IH]; simpl; [lia|]. case_decide; simpl; lia. Qed.

(** What one iteration does to the state: it either follows an edge
    (removing at least one neighbour entry and pushing one vertex) or
    backtracks (popping one vertex and leaving the adjacency alone). *)
Definition explores (st st' : euler_state) : Prop :=
  ∃ v, (entries st'.1.1 < entries st.1.1)%nat
       ∧ st'.1.2 = push_back st.1.2 v ∧ st'.2 = st.2.

Definition backtracks (st st' : euler_state) : Prop :=
  ∃ u, st'.1.1 = st.1.1 ∧ st.1.2 = push_back st'.1.2 u
       ∧ st'.2 = push_back st.2 u.

Lemma hierholzer_step_cases st st' :
  hierholzer_step st = Some st' → explores st st' ∨ backtracks st st'.
Proof.
  destruct st as [[adj stack] circuit]. unfold hierholzer_step.
  intros H. apply bind_Some in H as (u & Hu & H).
  apply bind_Some in H as (au & Hau & H).
  case_bool_decide as Hne.
  - left.
    apply bind_Some in H as (v & Hv & H).
    apply bind_Some in H as (adj1 & H1 & H).
    apply bind_Some in H as (nbrs & Hn & H).
    apply bind_Some in H as (adj2 & H2 & H).
    injection H as <-. exists v. simpl. split; [|done].
    pose proof (entries_vset _ _ _ _ _ Hau H1) as E1.
    pose proof (entries_vset _ _ _ _ _ Hn H2) as E2.
    pose proof (length_pop_back au Hne).
    pose proof (length_erase_first u nbrs). lia.
  - right. injection H as <-. exists u. simpl.
    split; [done|]. split; [|done]. by apply back_Some.
Qed.

Lemma hierholzer_step_decreases st st' :
  hierholzer_step st = Some st' → (euler_measure st' < euler_measure st)%nat.
Proof.
  intros [(v & He & Hs & _)|(u & Ha & Hs & _)]%hierholzer_step_cases;
    unfold euler_measure; rewrite ?Hs, ?Ha; unfold push_back;
    rewrite length_app; simpl; lia.
Qed.

Lemma hierholzer_loop_unfold fuel adj x stack circuit :
  hierholzer_loop (Datatypes.S fuel) (adj, x :: stack, circuit) =
  match hierholzer_step (adj, x :: stack, circuit) with
  | Some st' => hierholzer_loop fuel st'
  | None => Undefined
  end.
Proof. reflexivity. Qed.

(** Fuel equal to the variant is never exhausted. *)
Lemma hierholzer_loop_fuel fuel st :
  (euler_measure st ≤ fuel)%nat → hierholzer_loop fuel st ≠ OutOfFuel.
Proof.
  revert st. induction fuel as [|fuel IH]; intros [[adj stack] circuit] Hm.
  - destruct stack; [done|]. unfold euler_measure in Hm. simpl in Hm. lia.
  - destruct stack as [|x stack]; [done|]. rewrite hierholzer_loop_unfold.
    destruct (hierholzer_step _) as [st'|] eqn:Hs; [|done].
    apply IH. apply hierholzer_step_decreases in Hs. lia.
Qed.

(** More fuel than the variant changes nothing. *)
Lemma hierholzer_loop_more fuel st :
  (euler_measure st ≤ fuel)%nat →
  hierholzer_loop fuel st = hierholzer_loop (euler_measure st) st.
Proof.
  revert st. induction fuel as [fuel IH] using lt_wf_ind. intros st Hm.
  destruct st as [[adj stack] circuit].
  destruct stack as [|x stack].
  { destruct fuel; simpl; by destruct (euler_measure _). }
  destruct fuel as [|fuel]; [unfold euler_measure in Hm; simpl in Hm; lia|].
  destruct (euler_measure (adj, x :: stack, circuit)) as [|m] eqn:Em;
    [unfold euler_measure in Em; simpl in Em; lia|].
  rewrite !hierholzer_loop_unfold.
  destruct (hierholzer_step _) as [st'|] eqn:Hs; [|done].
  apply hierholzer_step_decreases in Hs. rewrite Em in Hs.
  rewrite (IH fuel) by lia. rewrite (IH m) by lia. done.
Qed.

(** Vertices stored in the structure are valid indices of it. *)
Definition adj_in_range adj : Prop :=
  ∀ u l v, vget adj u = Some l → v ∈ l → 0 ≤ v < vsize adj.

Definition state_in_range st : Prop :=
  adj_in_range st.1.1 ∧ ∀ v, v ∈ st.1.2 → 0 ≤ v < vsize st.1.1.

Lemma elem_of_pop_back {A} (v : list A) x : x ∈ pop_back v → x ∈ v.
Proof.
  destruct (decide (v = [])) as [->|Hne]; [done|].
  destruct (exists_last Hne) as (v0 & y & ->).
  unfold pop_back. rewrite removelast_last. set_solver.
Qed.

Lemma elem_of_erase_first x y v : y ∈ erase_first x v → y ∈ v.
Proof.
  induction v as [|z v IH]; simpl; [done|].
  case_decide; set_solver.
Qed.

Lemma elem_of_back {A} (v : list A) x : back v = Some x → x ∈ v.
Proof. intros ->%back_Some. unfold push_back. set_solver. Qed.

(** On a state whose indices are in range an iteration never leaves the
    vectors, and it keeps the indices in range. *)
Lemma hierholzer_step_in_range st :
  state_in_range st → st.1.2 ≠ [] →
  ∃ st', hierholzer_step st = Some st' ∧ state_in_range st'.
Proof.
  destruct st as [[adj stack] circuit]. intros [Ha Hs] Hne. simpl in *.
  unfold hierholzer_step.
  destruct (back stack) as [u|] eqn:Hu; [|by apply back_None in Hu].
  pose proof (Hs u (elem_of_back _ _ Hu)) as Hur.
  destruct (vget_in_range adj u Hur) as [au Hau]. simpl. rewrite Hau. simpl.
  case_bool_decide as Hau_ne.
  - destruct (back au) as [v|] eqn:Hv; [|by apply back_None in Hv].
    pose proof (Ha u au v Hau (elem_of_back _ _ Hv)) as Hvr.
    destruct (vset_in_range adj u (pop_back au) Hur) as [adj1 H1].
    simpl. rewrite H1. simpl.
    pose proof (vsize_vset _ _ _ _ H1) as Hsz1.
    destruct (vget_in_range adj1 v) as [nbrs Hn]; [lia|]. rewrite Hn. simpl.
    destruct (vset_in_range adj1 v (erase_first u nbrs)) as [adj2 H2]; [lia|].
    rewrite H2. simpl. eexists. split; [done|].
    pose proof (vsize_vset _ _ _ _ H2) as Hsz2.
    assert (adj_in_range adj1) as Ha1.
    { intros w l x Hw Hx. rewrite Hsz1. rewrite (vget_vset _ _ w _ _ H1) in Hw.
      case_decide; [|by eapply Ha].
      injection Hw as <-. eapply (Ha u au); [done|]. by apply elem_of_pop_back. }
    split; simpl.
    + intros w l x Hw Hx. rewrite Hsz2. rewrite (vget_vset _ _ w _ _ H2) in Hw.
      case_decide; [|by eapply Ha1].
      injection Hw as <-. eapply (Ha1 v nbrs); [done|]. by eapply elem_of_erase_first.
    + intros w [Hw| ->%list_elem_of_singleton]%elem_of_app; [|lia].
      rewrite Hsz2, Hsz1. by apply Hs.
  - eexists. split; [done|]. split; simpl; [done|].
    intros w Hw. apply Hs. by apply elem_of_pop_back.
Qed.

Lemma hierholzer_loop_returns fuel st :
  state_in_range st → (euler_measure st ≤ fuel)%nat →
  ∃ circuit, hierholzer_loop fuel st = Returns circuit.
Proof.
  revert st. induction fuel as [|fuel IH]; intros st Hr Hm.
  - destruct st as [[adj stack] circuit].
    destruct stack; [by eexists|]. unfold euler_measure in Hm. simpl in Hm. lia.
  - destruct st as [[adj stack] circuit].
    destruct stack as [|x stack]; [by eexists|]. rewrite hierholzer_loop_unfold.
    destruct (hierholzer_step_in_range _ Hr) as (st' & Hs & Hr'); [done|].
    rewrite Hs. apply IH; [done|].
    apply hierholzer_step_decreases in Hs. lia.
Qed.

(** C9: [eulerianTourHierholzer] returns on every adjacency structure
    whose stored neighbours and start vertex are valid indices, whatever
    its shape, because every iteration of the loop either follows an edge
    (at least one neighbour entry removed, one vertex pushed) or
    backtracks (one vertex popped), so that
    [2 * entries + stack size] strictly decreases. *)
Theorem hierholzer_terminates adj start :
  adj_in_range adj → 0 ≤ start < vsize adj →
  (∃ walk, eulerianTourHierholzer start adj = Some walk)
  ∧ (∀ st st', hierholzer_step st = Some st' →
       (explores st st' ∨ backtracks st st')
       ∧ (euler_measure st' < euler_measure st)%nat)
  ∧ (∀ st, hierholzer_loop (euler_measure st) st ≠ OutOfFuel).
Proof.
  intros Ha Hs. split; [|split].
  - unfold eulerianTourHierholzer.
    destruct (hierholzer_loop_returns
                (euler_measure (adj, push_back [] start, []))
                (adj, push_back [] start, [])) as [c Hc]; [|done|].
    + split; [done|]. simpl. intros v ->%list_elem_of_singleton. done.
    + rewrite Hc. by eexists.
  - intros st st' H. split.
    + by apply hierholzer_step_cases.
    + by apply hierholzer_step_decreases.
  - intros st. by apply hierholzer_loop_fuel.
Qed.

Lemma hierholzer_terminates_witness :
  ∃ walk, eulerianTourHierholzer 0 [[1; 1]; [0]; [0]] = Some walk.
Proof.
  refine (proj1 (hierholzer_terminates [[1; 1]; [0]; [0]] 0 _ _)).
  - intros u l v [Hu Hl]%vget_Some Hv.
    apply list_elem_of_lookup_2 in Hl.
    unfold vsize. simpl.
    repeat (apply elem_of_cons in Hl as [->|Hl]);
      [..|by apply elem_of_nil in Hl];
      repeat (apply elem_of_cons in Hv as [->|Hv]);
      try lia; by apply elem_of_nil in Hv.
  - unfold vsize. simpl. lia.
Defined.
End euler_termination.

(** ** Multigraphs stored as adjacency vectors *)

Section multigraph.
Implicit Types (adj : adjacency) (u v x y : Z) (w : list Z).

(** The neighbour bag of a vertex (empty outside the vector). *)
Definition nbrs adj u : list Z := default [] (vget adj u).

(** How many times [v] is stored as a neighbour of [u]. *)
Definition mult adj u v : nat := count_occ Z.eq_dec (nbrs adj u) v.

Definition deg adj u : nat := length (nbrs adj u).

(** An undirected multigraph without loops: every edge is stored at both
    of its ends. *)
Definition symmetric adj : Prop := ∀ u v, mult adj u v = mult adj v u.
Definition loop_free adj : Prop := ∀ u, mult adj u u = 0%nat.
Definition even_degrees adj : Prop := ∀ u, ∃ k, deg adj u = (2 * k)%nat.

(** Reachability along stored edges. *)
Inductive reach adj (u : Z) : Z → Prop :=
  | reach_refl : reach adj u u
  | reach_step v x : reach adj u v → x ∈ nbrs adj v → reach adj u x.

Definition connected_from adj (s : Z) : Prop :=
  ∀ v, 0 ≤ v < vsize adj → reach adj s v.

(** The unordered pair [{a, b}] is the pair [{u, v}]. *)
Definition same_edge (a b u v : Z) : Prop := (a = u ∧ b = v) ∨ (a = v ∧ b = u).

Global Instance same_edge_dec a b u v : Decision (same_edge a b u v).
Proof. unfold same_edge. apply _. Defined.

Definition ind (P : Prop) `{Decision P} : nat := if decide P then 1%nat else 0%nat.

(** How often a walk traverses the edge [{u, v}]. *)
Fixpoint uses w u v : nat :=
  match w with
  | a :: w' =>
      match w' with
      | b :: _ => (ind (same_edge a b u v) + uses w' u v)%nat
      | [] => 0%nat
      end
  | [] => 0%nat
  end.

(** How many edge ends of a walk lie at [x]. *)
Fixpoint ends w x : nat :=
  match w with
  | a :: w' =>
      match w' with
      | b :: _ => (ind (a = x) + ind (b = x) + ends w' x)%nat
      | [] => 0%nat
      end
  | [] => 0%nat
  end.

Lemma nbrs_vget adj u l : vget adj u = Some l → nbrs adj u = l.
Proof. unfold nbrs. by intros ->. Qed.

Lemma nbrs_out adj u : ¬ (0 ≤ u < vsize adj) → nbrs adj u = [].
Proof. intros H%vget_None. unfold nbrs. by rewrite H. Qed.

Lemma nbrs_in adj u : 0 ≤ u < vsize adj → vget adj u = Some (nbrs adj u).
Proof. intros [l Hl]%vget_in_range. by rewrite (nbrs_vget _ _ _ Hl). Qed.

Lemma nbrs_nonempty_range adj u : nbrs adj u ≠ [] → 0 ≤ u < vsize adj.
Proof.
  intros H. destruct (decide (0 ≤ u < vsize adj)); [done|].
  by rewrite nbrs_out in H.
Qed.

Lemma nbrs_vset adj u l adj' x :
  vset adj u l = Some adj' → nbrs adj' x = if decide (u = x) then l else nbrs adj x.
Proof.
  intros H. unfold nbrs. rewrite (vget_vset _ _ x _ _ H). by case_decide.
Qed.

Lemma mult_pos adj u v : (0 < mult adj u v)%nat ↔ v ∈ nbrs adj u.
Proof.
  unfold mult. rewrite list_elem_of_In. symmetry. apply count_occ_In.
Qed.

Lemma symmetric_in_range adj : symmetric adj → adj_in_range adj.
Proof.
  intros Hs u l v Hu Hv. apply nbrs_nonempty_range.
  rewrite <- (nbrs_vget _ _ _ Hu) in Hv. apply mult_pos in Hv.
  rewrite Hs in Hv. apply mult_pos in Hv. by intros E; rewrite E in Hv; apply elem_of_nil in Hv.
Qed.

(** *** Counting in vectors *)

Lemma count_erase_first x l y :
  x ∈ l →
  (count_occ Z.eq_dec (erase_first x l) y + ind (x = y) = count_occ Z.eq_dec l y)%nat.
Proof.
  induction l as [|z l IH]; [by intros ?%elem_of_nil|].
  intros Hin. cbn [erase_first]. destruct (decide (z = x)) as [->|Hz].
  - cbn [count_occ]. unfold ind.
    destruct (Z.eq_dec x y), (decide (x = y)); try done; lia.
  - apply elem_of_cons in Hin as [->|Hin]; [done|]. specialize (IH Hin).
    cbn [count_occ]. destruct (Z.eq_dec z y); lia.
Qed.

Lemma length_erase_first_in x l :
  x ∈ l → Datatypes.S (length (erase_first x l)) = length l.
Proof.
  induction l as [|z l IH]; [by intros ?%elem_of_nil|].
  intros Hin. cbn [erase_first]. destruct (decide (z = x)) as [->|Hz]; [done|].
  apply elem_of_cons in Hin as [->|Hin]; [done|]. simpl. by rewrite IH.
Qed.

Lemma count_push_back l x y :
  count_occ Z.eq_dec (push_back l x) y = (count_occ Z.eq_dec l y + ind (x = y))%nat.
Proof.
  unfold push_back, ind. rewrite count_occ_app. cbn [count_occ].
  destruct (Z.eq_dec x y), (decide (x = y)); try done; lia.
Qed.

Lemma count_pop_back l x y :
  back l = Some x →
  (count_occ Z.eq_dec (pop_back l) y + ind (x = y) = count_occ Z.eq_dec l y)%nat.
Proof.
  intros H%back_Some. rewrite H at 2. rewrite count_push_back. done.
Qed.

(** *** Walks *)

Lemma uses_cons a b w u v :
  uses (a :: b :: w) u v = (ind (same_edge a b u v) + uses (b :: w) u v)%nat.
Proof. done. Qed.

Lemma ends_cons a b w x :
  ends (a :: b :: w) x = (ind (a = x) + ind (b = x) + ends (b :: w) x)%nat.
Proof. done. Qed.

Lemma uses_glue w1 a w2 u v :
  uses (w1 ++ a :: w2) u v = (uses (w1 ++ [a]) u v + uses (a :: w2) u v)%nat.
Proof.
  induction w1 as [|b w1 IH]; [done|].
  destruct w1 as [|c w1].
  - cbn [app]. rewrite uses_cons. cbn [uses]. lia.
  - cbn [app] in *. rewrite !uses_cons, IH. lia.
Qed.

Lemma ends_glue w1 a w2 x :
  ends (w1 ++ a :: w2) x = (ends (w1 ++ [a]) x + ends (a :: w2) x)%nat.
Proof.
  induction w1 as [|b w1 IH]; [done|].
  destruct w1 as [|c w1].
  - cbn [app]. rewrite ends_cons. cbn [ends]. lia.
  - cbn [app] in *. rewrite !ends_cons, IH. lia.
Qed.

Lemma uses_snoc w a b u v :
  uses (w ++ [a; b]) u v = (uses (w ++ [a]) u v + ind (same_edge a b u v))%nat.
Proof. rewrite uses_glue. cbn [uses]. lia. Qed.

Lemma ends_snoc w a b x :
  ends (w ++ [a; b]) x = (ends (w ++ [a]) x + ind (a = x) + ind (b = x))%nat.
Proof. rewrite ends_glue. cbn [ends]. lia. Qed.

(** Every vertex of a walk has an even number of edge ends, except that
    the first and the last vertex each miss one. *)
Lemma ends_parity w a x :
  (ends (a :: w) x + ind (a = x) + ind (default a (last w) = x)
   = 2 * count_occ Z.eq_dec (a :: w) x)%nat.
Proof.
  revert a. induction w as [|b w IH]; intros a.
  - cbn. unfold ind. destruct (Z.eq_dec a x), (decide (a = x)); try done; lia.
  - rewrite ends_cons. specialize (IH b).
    assert (default a (last (b :: w)) = default b (last w)) as ->.
    { rewrite last_cons. by destruct (last w). }
    destruct (decide (a = x)) as [Ha|Ha].
    + rewrite (count_occ_cons_eq Z.eq_dec (b :: w) Ha).
      replace (ind (a = x)) with 1%nat by (unfold ind; by rewrite decide_True). lia.
    + rewrite (count_occ_cons_neq Z.eq_dec (b :: w) Ha).
      replace (ind (a = x)) with 0%nat by (unfold ind; by rewrite decide_False). lia.
Qed.

Lemma uses_elem_of w u v : (0 < uses w u v)%nat → u ∈ w ∧ v ∈ w.
Proof.
  induction w as [|a w IH]; [cbn; lia|].
  destruct w as [|b w]; [cbn; lia|].
  rewrite uses_cons. unfold ind. case_decide as E.
  - intros _. destruct E as [[-> ->]|[-> ->]]; set_solver.
  - intros H. destruct IH; [lia|]. set_solver.
Qed.
End multigraph.

(** ** Correctness of the Eulerian walk *)

Lemma ind_true (P : Prop) `{Decision P} : P → ind P = 1%nat.
Proof. intros. unfold ind. by rewrite decide_True. Qed.

Lemma ind_false (P : Prop) `{Decision P} : ¬ P → ind P = 0%nat.
Proof. intros. unfold ind. by rewrite decide_False. Qed.

Lemma ind_le (P : Prop) `{Decision P} : (ind P ≤ 1)%nat.
Proof. unfold ind. case_decide; lia. Qed.

Section euler_steps.
Implicit Types (adj : adjacency) (stack circuit : list Z) (u v x y : Z).

Lemma step_explore adj stack circuit u v :
  back stack = Some u → back (nbrs adj u) = Some v → u ≠ v →
  u ∈ nbrs adj v →
  ∃ adj', hierholzer_step (adj, stack, circuit) = Some (adj', push_back stack v, circuit)
    ∧ vsize adj' = vsize adj
    ∧ (entries adj' + 2 = entries adj)%nat
    ∧ ∀ x, nbrs adj' x =
             if decide (u = x) then pop_back (nbrs adj u)
             else if decide (v = x) then erase_first u (nbrs adj v)
             else nbrs adj x.
Proof.
  intros Hu Hv Hne Hin.
  assert (nbrs adj u ≠ []) as Hnu by (intros E; by rewrite E in Hv).
  pose proof (nbrs_nonempty_range _ _ Hnu) as Hur.
  assert (0 ≤ v < vsize adj) as Hvr.
  { apply nbrs_nonempty_range. intros E. rewrite E in Hin. by apply elem_of_nil in Hin. }
  destruct (vset_in_range adj u (pop_back (nbrs adj u)) Hur) as [adj1 H1].
  pose proof (vsize_vset _ _ _ _ H1) as Hsz1.
  destruct (vset_in_range adj1 v (erase_first u (nbrs adj1 v))) as [adj2 H2]; [lia|].
  pose proof (vsize_vset _ _ _ _ H2) as Hsz2.
  assert (nbrs adj1 v = nbrs adj v) as Hn1.
  { by rewrite (nbrs_vset _ _ _ _ _ H1), decide_False. }
  exists adj2. split; [|split; [lia|split]].
  - unfold hierholzer_step. rewrite Hu. simpl. rewrite (nbrs_in _ _ Hur). simpl.
    rewrite bool_decide_true by done. rewrite Hv. simpl. rewrite H1. simpl.
    rewrite nbrs_in by lia. simpl. rewrite H2. done.
  - pose proof (entries_vset _ _ _ _ _ (nbrs_in _ _ Hur) H1) as E1.
    assert (0 ≤ v < vsize adj1) as Hv1 by lia.
    pose proof (entries_vset _ _ _ _ _ (nbrs_in _ _ Hv1) H2) as E2.
    rewrite Hn1 in E2.
    pose proof (length_pop_back _ Hnu). pose proof (length_erase_first_in _ _ Hin). lia.
  - intros x. rewrite (nbrs_vset _ _ _ _ x H2), !(nbrs_vset _ _ _ _ _ H1).
    rewrite (decide_False (P := u = v)) by done.
    destruct (decide (v = x)) as [->|?], (decide (u = x)) as [->|?]; done.
Qed.

Lemma step_backtrack adj stack circuit u :
  back stack = Some u → nbrs adj u = [] → 0 ≤ u < vsize adj →
  hierholzer_step (adj, stack, circuit) = Some (adj, pop_back stack, push_back circuit u).
Proof.
  intros Hu Hn Hur. unfold hierholzer_step. rewrite Hu. simpl.
  by rewrite (nbrs_in _ _ Hur), Hn.
Qed.
End euler_steps.

Section euler_correct.
Variable adj0 : adjacency.
Variable start : Z.
Hypothesis Hstart : 0 ≤ start < vsize adj0.
Hypothesis Heven0 : even_degrees adj0.

Implicit Types (adj : adjacency) (stack circuit A B : list Z) (u v x y : Z).

(** The last vertex of the attached part of the stack, as a walk. *)
Definition last1 A : list Z := match last A with Some a => [a] | None => [] end.

(** The loop invariant.  The stack splits into an attached part [A] and
    a detour [B]: [A] followed by the reversed circuit is a closed walk
    from [start], the detour is a walk leaving the last vertex of [A],
    and the two walks together with the edges still stored make up the
    original multigraph. *)
Record euler_inv adj stack circuit A B : Prop := {
  inv_stack : stack = A ++ B;
  inv_split : A = [] → B = [];
  inv_size : vsize adj = vsize adj0;
  inv_range : ∀ v, v ∈ stack → 0 ≤ v < vsize adj;
  inv_sym : symmetric adj;
  inv_loop : loop_free adj;
  inv_uses : ∀ u v, mult adj0 u v
    = (mult adj u v + uses (A ++ rev circuit) u v + uses (last1 A ++ B) u v)%nat;
  inv_ends : ∀ x, deg adj0 x
    = (deg adj x + ends (A ++ rev circuit) x + ends (last1 A ++ B) x)%nat;
  inv_head : head (A ++ rev circuit) = Some start;
  inv_last : last (A ++ rev circuit) = Some start;
  inv_done : ∀ x, x ∈ circuit → nbrs adj x = [];
  inv_circuit : ∀ x, x ∈ circuit → 0 ≤ x < vsize adj0;
  inv_count : (entries adj0 + 2 = entries adj + 2 * (length stack + length circuit))%nat
}.

Lemma last1_snoc A a : last1 (A ++ [a]) = [a].
Proof. unfold last1. by rewrite last_snoc. Qed.

Lemma uses_last1 A u v : uses (last1 A ++ []) u v = 0%nat.
Proof. unfold last1. by destruct (last A). Qed.

Lemma ends_last1 A x : ends (last1 A ++ []) x = 0%nat.
Proof. unfold last1. by destruct (last A). Qed.

Lemma closed_walk_ends_even w s x :
  head w = Some s → last w = Some s → ∃ c, ends w x = (2 * c)%nat.
Proof.
  destruct w as [|a w]; [done|]. intros [= ->] Hl.
  pose proof (ends_parity w s x) as H.
  assert (default s (last w) = s) as E.
  { rewrite last_cons in Hl. destruct (last w); [by injection Hl|done]. }
  rewrite E in H. pose proof (ind_le (s = x)).
  exists (count_occ Z.eq_dec (s :: w) x - ind (s = x))%nat. lia.
Qed.

Lemma open_walk_ends_odd a w u :
  a ≠ u → ∃ c, (ends (a :: w ++ [u]) u + 1 = 2 * c)%nat.
Proof.
  intros Hne. pose proof (ends_parity (w ++ [u]) a u) as H.
  rewrite last_snoc in H. change (default a (Some u)) with u in H.
  rewrite ind_false, ind_true in H by done.
  exists (count_occ Z.eq_dec (a :: w ++ [u]) u). lia.
Qed.

(** The detour ends at the top of the stack. *)
Lemma detour_top A B stack0 u :
  A ++ B = stack0 ++ [u] → (A = [] → B = []) → ∃ W, last1 A ++ B = W ++ [u].
Proof.
  intros Hs Hsplit. destruct (decide (B = [])) as [->|HB].
  - rewrite app_nil_r in Hs. subst A. rewrite last1_snoc. by exists [].
  - destruct (exists_last HB) as (B0 & u' & ->).
    rewrite app_assoc in Hs. apply app_inj_tail in Hs as [_ ->].
    exists (last1 A ++ B0). by rewrite app_assoc.
Qed.

Lemma inv_explore adj stack circuit A B u :
  euler_inv adj stack circuit A B → back stack = Some u → nbrs adj u ≠ [] →
  ∃ adj' v,
    hierholzer_step (adj, stack, circuit) = Some (adj', push_back stack v, circuit)
    ∧ euler_inv adj' (push_back stack v) circuit A (B ++ [v]).
Proof.
  intros Inv Hu Hnu.
  destruct (back (nbrs adj u)) as [v|] eqn:Hv; [|by apply back_None in Hv].
  pose proof (elem_of_back _ _ Hv) as Hvin.
  assert (u ≠ v) as Hne.
  { intros <-. apply mult_pos in Hvin. rewrite (inv_loop _ _ _ _ _ Inv) in Hvin. lia. }
  assert (u ∈ nbrs adj v) as Huin.
  { apply mult_pos. rewrite (inv_sym _ _ _ _ _ Inv). by apply mult_pos. }
  destruct (step_explore adj stack circuit u v Hu Hv Hne Huin)
    as (adj' & Hstep & Hsz & Hent & Hn').
  assert (∀ x y, (mult adj' x y + ind (same_edge u v x y) = mult adj x y)%nat) as Hmult.
  { intros x y. unfold mult. rewrite Hn'.
    destruct (decide (u = x)) as [<-|Hux].
    - rewrite <- (count_pop_back _ v y Hv). f_equal.
      destruct (decide (v = y)) as [<-|?].
      + rewrite !ind_true; [done..|by left].
      + rewrite !ind_false; [done..|]. intros [[_ ?]|[? ?]]; congruence.
    - destruct (decide (v = x)) as [<-|Hvx].
      + rewrite <- (count_erase_first u _ y Huin). f_equal.
        destruct (decide (u = y)) as [<-|?].
        * rewrite !ind_true; [done..|by right].
        * rewrite !ind_false; [done..|]. intros [[? ?]|[? ?]]; congruence.
      + rewrite ind_false; [lia|]. intros [[? ?]|[? ?]]; congruence. }
  assert (∀ x, (deg adj' x + ind (u = x) + ind (v = x) = deg adj x)%nat) as Hdeg.
  { intros x. unfold deg. rewrite Hn'.
    destruct (decide (u = x)) as [<-|Hux].
    - rewrite ind_true, ind_false by done. pose proof (length_pop_back _ Hnu). lia.
    - destruct (decide (v = x)) as [<-|Hvx].
      + rewrite ind_false, ind_true by done.
        pose proof (length_erase_first_in _ _ Huin). lia.
      + rewrite !ind_false by done. lia. }
  pose proof (back_Some _ _ Hu) as Hst. unfold push_back in Hst.
  destruct (detour_top A B (pop_back stack) u) as [W HW].
  { by rewrite <- (inv_stack _ _ _ _ _ Inv). }
  { by apply (inv_split _ _ _ _ _ Inv). }
  exists adj', v. split; [done|]. destruct Inv. constructor.
  - unfold push_back. by rewrite inv_stack0, app_assoc.
  - intros ->. rewrite (inv_split0 eq_refl) in inv_stack0. by subst stack.
  - lia.
  - intros x [Hx| ->%list_elem_of_singleton]%elem_of_app.
    + rewrite Hsz. by apply inv_range0.
    + rewrite Hsz. apply nbrs_nonempty_range. intros E. rewrite E in Huin.
      by apply elem_of_nil in Huin.
  - intros x y. pose proof (Hmult x y). pose proof (Hmult y x).
    pose proof (inv_sym0 x y).
    assert (ind (same_edge u v x y) = ind (same_edge u v y x)) as E.
    { unfold ind, same_edge. repeat case_decide; try done; exfalso; tauto. }
    lia.
  - intros x. pose proof (Hmult x x). pose proof (inv_loop0 x). lia.
  - intros x y. rewrite inv_uses0, <- (Hmult x y).
    rewrite app_assoc, HW, <- app_assoc. cbn [app]. rewrite uses_snoc. lia.
  - intros x. rewrite inv_ends0, <- (Hdeg x).
    rewrite app_assoc, HW, <- app_assoc. cbn [app]. rewrite ends_snoc. lia.
  - done.
  - done.
  - intros x Hx. rewrite Hn'. specialize (inv_done0 x Hx).
    rewrite decide_False by (intros <-; done).
    rewrite decide_False; [done|]. intros <-. rewrite inv_done0 in Huin.
    by apply elem_of_nil in Huin.
  - done.
  - unfold push_back. rewrite length_app. simpl. lia.
Qed.

Lemma inv_backtrack adj stack circuit A B u :
  euler_inv adj stack circuit A B → back stack = Some u → nbrs adj u = [] →
  hierholzer_step (adj, stack, circuit)
    = Some (adj, pop_back stack, push_back circuit u)
  ∧ euler_inv adj (pop_back stack) (push_back circuit u) (pop_back stack) [].
Proof.
  intros Inv Hu Hnu.
  pose proof (back_Some _ _ Hu) as Hst. unfold push_back in Hst.
  assert (0 ≤ u < vsize adj) as Hur.
  { apply (inv_range _ _ _ _ _ Inv). by apply elem_of_back. }
  split; [by apply step_backtrack|].
  assert (rev (push_back circuit u) = u :: rev circuit) as Hrev.
  { unfold push_back. by rewrite rev_app_distr. }
  (* the walk the stack and the circuit spell out after the pop *)
  assert (∃ A0, A = A0 ++ [u] ∧ (B = [] ∧ pop_back stack = A0
            ∨ ∃ B0, B = B0 ++ [u] ∧ pop_back stack = A ++ B0)) as (A0 & -> & Hcase).
  { destruct Inv. destruct (decide (B = [])) as [->|HB].
    - rewrite app_nil_r in inv_stack0. subst A. exists (pop_back stack).
      split; [done|]. by left.
    - destruct (exists_last HB) as (B0 & u' & ->).
      rewrite Hst, app_assoc in inv_stack0.
      apply app_inj_tail in inv_stack0 as [Hp <-].
      destruct (decide (A = [])) as [->|HA].
      { specialize (inv_split0 eq_refl). by destruct B0. }
      destruct (exists_last HA) as (A0 & a & ->).
      destruct (decide (a = u)) as [->|Hau].
      { exists A0. split; [done|]. right. by exists B0. }
      exfalso.
      destruct (closed_walk_ends_even _ _ u inv_head0 inv_last0) as [c1 E1].
      destruct (open_walk_ends_odd a B0 u Hau) as [c2 E2].
      destruct (Heven0 u) as [k Ek].
      specialize (inv_ends0 u). rewrite last1_snoc in inv_ends0.
      cbn [app] in inv_ends0. unfold deg in inv_ends0 at 2.
      rewrite Hnu in inv_ends0. simpl length in inv_ends0. lia. }
  destruct Inv. rewrite last1_snoc in *. constructor.
  - by rewrite app_nil_r.
  - done.
  - done.
  - intros x Hx. apply inv_range0. by apply elem_of_pop_back.
  - done.
  - done.
  - intros x y. rewrite inv_uses0, uses_last1, Hrev.
    destruct Hcase as [[-> ->]|(B0 & -> & ->)].
    + rewrite <- app_assoc. cbn. lia.
    + rewrite <- !app_assoc. cbn [app].
      rewrite (uses_glue A0 u (B0 ++ u :: rev circuit)).
      rewrite (uses_glue A0 u (rev circuit)).
      change (u :: B0 ++ u :: rev circuit) with ((u :: B0) ++ u :: rev circuit).
      rewrite (uses_glue (u :: B0) u (rev circuit)). cbn [app]. lia.
  - intros x. rewrite inv_ends0, ends_last1, Hrev.
    destruct Hcase as [[-> ->]|(B0 & -> & ->)].
    + rewrite <- app_assoc. cbn. lia.
    + rewrite <- !app_assoc. cbn [app].
      rewrite (ends_glue A0 u (B0 ++ u :: rev circuit)).
      rewrite (ends_glue A0 u (rev circuit)).
      change (u :: B0 ++ u :: rev circuit) with ((u :: B0) ++ u :: rev circuit).
      rewrite (ends_glue (u :: B0) u (rev circuit)). cbn [app]. lia.
  - rewrite Hrev. rewrite <- inv_head0.
    destruct Hcase as [[-> ->]|(B0 & -> & ->)].
    + by rewrite <- app_assoc.
    + rewrite <- !app_assoc. by destruct A0.
  - rewrite Hrev. rewrite <- inv_last0.
    destruct Hcase as [[-> ->]|(B0 & -> & ->)].
    + by rewrite <- app_assoc.
    + rewrite <- !app_assoc. cbn [app].
      rewrite !(last_app_cons A0).
      change (u :: B0 ++ u :: rev circuit) with ((u :: B0) ++ u :: rev circuit).
      by rewrite last_app_cons.
  - intros x [Hx| ->%list_elem_of_singleton]%elem_of_app; [by apply inv_done0|done].
  - intros x [Hx| ->%list_elem_of_singleton]%elem_of_app; [by apply inv_circuit0|].
    by rewrite <- inv_size0.
  - rewrite Hst in inv_count0. unfold push_back.
    rewrite !length_app in *. simpl in *. lia.
Qed.

Lemma euler_loop_inv fuel adj stack circuit A B :
  euler_inv adj stack circuit A B →
  (euler_measure (adj, stack, circuit) ≤ fuel)%nat →
  ∃ adj' circuit',
    hierholzer_loop fuel (adj, stack, circuit) = Returns circuit'
    ∧ euler_inv adj' [] circuit' [] [].
Proof.
  revert adj stack circuit A B.
  induction fuel as [|fuel IH]; intros adj stack circuit A B Inv Hm.
  - destruct stack as [|x stack]; [|unfold euler_measure in Hm; simpl in Hm; lia].
    exists adj, circuit. split; [done|].
    destruct (app_eq_nil A B) as [-> ->]; [by rewrite <- (inv_stack _ _ _ _ _ Inv)|done].
  - destruct stack as [|x stack].
    { exists adj, circuit. split; [done|].
      destruct (app_eq_nil A B) as [-> ->]; [by rewrite <- (inv_stack _ _ _ _ _ Inv)|done]. }
    rewrite hierholzer_loop_unfold.
    destruct (back (x :: stack)) as [u|] eqn:Hu; [|by apply back_None in Hu].
    destruct (decide (nbrs adj u = [])) as [Hnu|Hnu].
    + destruct (inv_backtrack _ _ _ _ _ _ Inv Hu Hnu) as [Hstep Inv'].
      rewrite Hstep. eapply IH; [exact Inv'|].
      apply hierholzer_step_decreases in Hstep. lia.
    + destruct (inv_explore _ _ _ _ _ _ Inv Hu Hnu) as (adj' & v & Hstep & Inv').
      rewrite Hstep. eapply IH; [exact Inv'|].
      apply hierholzer_step_decreases in Hstep. lia.
Qed.

Lemma entries_empty adj : (∀ u, nbrs adj u = []) → entries adj = 0%nat.
Proof.
  intros H. unfold entries.
  assert (concat adj = []) as ->; [|done].
  apply concat_nil_Forall, Forall_forall. intros l [i Hi]%elem_of_vget.
  by rewrite <- (nbrs_vget _ _ _ Hi).
Qed.

Hypothesis Hsym0 : symmetric adj0.
Hypothesis Hloop0 : loop_free adj0.
Hypothesis Hconn0 : connected_from adj0 start.

(** On a connected loop-free multigraph with even degrees the walk is an
    Eulerian circuit from [start]. *)
Lemma hierholzer_circuit :
  ∃ walk,
    eulerianTourHierholzer start adj0 = Some walk
    ∧ head walk = Some start ∧ last walk = Some start
    ∧ (∀ u v, uses walk u v = mult adj0 u v)
    ∧ (∀ v, 0 ≤ v < vsize adj0 ↔ v ∈ walk)
    ∧ (entries adj0 + 2 = 2 * length walk)%nat.
Proof.
  assert (euler_inv adj0 (push_back [] start) [] [start] []) as Inv.
  { constructor; try done.
    - intros v ->%list_elem_of_singleton. done.
    - intros u v. rewrite uses_last1. cbn [rev app uses]. lia.
    - intros x. rewrite ends_last1. cbn [rev app ends]. lia.
    - by intros x ?%elem_of_nil.
    - by intros x ?%elem_of_nil. }
  destruct (euler_loop_inv _ _ _ _ _ _ Inv (le_n _)) as (adj' & circuit & Hloop & Fin).
  unfold eulerianTourHierholzer. rewrite Hloop.
  exists (rev circuit). destruct Fin. cbn [app last1 last] in *.
  assert (∀ x, reach adj0 start x → x ∈ circuit) as Hall.
  { intros x Hr. induction Hr as [|v x Hr IH Hx].
    - apply elem_of_rev. destruct (rev circuit); [done|].
      injection inv_head0 as ->. by left.
    - specialize (inv_uses0 v x). apply mult_pos in Hx.
      assert (mult adj' v x = 0%nat) as E.
      { unfold mult. by rewrite (inv_done0 v IH). }
      apply elem_of_rev. apply (uses_elem_of _ v x). cbn in inv_uses0. lia. }
  assert (∀ u, nbrs adj' u = []) as Hempty.
  { intros u. destruct (decide (0 ≤ u < vsize adj0)) as [Hu|Hu].
    - apply inv_done0, Hall, Hconn0, Hu.
    - apply nbrs_out. by rewrite inv_size0. }
  split; [done|]. split; [done|]. split; [done|]. split; [|split].
  - intros u v. rewrite inv_uses0.
    assert (mult adj' u v = 0%nat) as -> by (unfold mult; by rewrite Hempty).
    cbn [uses]. lia.
  - intros v. split.
    + intros Hv. apply elem_of_rev, Hall, Hconn0, Hv.
    + rewrite elem_of_rev. apply inv_circuit0.
  - rewrite length_rev. rewrite (entries_empty _ Hempty) in inv_count0.
    simpl in inv_count0. lia.
Qed.
End euler_correct.

(** ** Prim's algorithm: the two inner loops *)

Definition square (d : matrix) : Prop := ∀ row, row ∈ d → vsize row = vsize d.

Definition finite_matrix (d : matrix) : Prop :=
  ∀ a b x, mget d a b = Some x → finite x = true.

Lemma mget_square d a b :
  square d → 0 ≤ a < vsize d → 0 ≤ b < vsize d → ∃ x, mget d a b = Some x.
Proof.
  intros Hsq Ha Hb. destruct (vget_in_range d a Ha) as [row Hrow].
  destruct (vget_in_range row b) as [x Hx].
  { rewrite (Hsq row); [done|]. by eapply vget_elem_of. }
  exists x. unfold mget. by rewrite Hrow.
Qed.

(** [d[i][j] = x] keeps the shape of a square matrix. *)
Lemma mset_shape d i j x (k : Z) :
  vsize d = k → square d → 0 ≤ i < k → 0 ≤ j < k →
  ∃ d', mset d i j x = Some d' ∧ vsize d' = k ∧ square d'.
Proof.
  intros Hk Hsq Hi Hj. unfold mset.
  destruct (vget_in_range d i) as [row Hrow]; [lia|].
  assert (vsize row = k) as Hrk.
  { rewrite (Hsq row); [done|]. by eapply vget_elem_of. }
  destruct (vset_in_range row j x) as [row' Hrow']; [lia|].
  destruct (vset_in_range d i row') as [d' Hd']; [lia|].
  rewrite Hrow. simpl. rewrite Hrow'. simpl. exists d'. split; [done|].
  pose proof (vsize_vset _ _ _ _ Hd') as Hsz. split; [lia|].
  intros r Hr. apply elem_of_vget in Hr as [a Ha].
  rewrite (vget_vset _ _ a _ _ Hd') in Ha. rewrite Hsz. case_decide.
  - injection Ha as <-. rewrite (vsize_vset _ _ _ _ Hrow'). lia.
  - apply Hsq. by eapply vget_elem_of.
Qed.

(** [buildDistanceMatrix] returns for every list of points, and its
    result is a square matrix with one row per point. *)
Lemma buildDistanceMatrix_square pts :
  ∃ d, buildDistanceMatrix pts = Some d ∧ vsize d = vsize pts ∧ square d.
Proof.
  unfold buildDistanceMatrix. cbv zeta. set (n := vsize pts).
  set (I := λ (_ : Z) (d : matrix), vsize d = n ∧ square d).
  assert (0 ≤ n) as Hn by (unfold n, vsize; lia).
  match goal with |- ∃ d, for_range _ _ ?body ?d0 = _ ∧ _ =>
    destruct (for_range_inv I 0 n body d0) as (d & Hrun & Hd & Hsq)
  end.
  - done.
  - split; [apply vsize_replicate|].
    intros row [-> _]%elem_of_replicate. by rewrite !vsize_replicate.
  - intros i d Hi [Hd Hsq].
    match goal with |- ∃ s', for_range _ _ ?body _ = Some s' ∧ _ =>
      destruct (for_range_inv I 0 n body d) as (d' & Hrun & HI)
    end.
    + done.
    + done.
    + intros j d1 Hj [Hd1 Hsq1].
      destruct (vget_in_range pts i Hi) as [a Ha].
      destruct (vget_in_range pts j Hj) as [b Hb].
      rewrite Ha, Hb. simpl.
      destruct (mset_shape d1 i j (distEuclid a b) n Hd1 Hsq1 Hi Hj) as (d2 & Hset & ? & ?).
      exists d2. done.
    + exists d'. done.
  - exists d. done.
Qed.

Section prim_loops.
Variable d : matrix.
Let n := vsize d.
Hypothesis Hsq : square d.

Implicit Types (key : list float) (parent : list Z) (inMST : list bool).

(** The scan's invariant after the vertices below [j]: either nothing
    was selected and no open vertex has a key below infinity, or [u] is
    an open vertex whose key is [best], and that key is the least one
    among the open vertices met so far whenever their keys are finite. *)
Definition scan_inv key inMST (j : Z) (s : float * Z) : Prop :=
  (s.2 = -1 ∧ s.1 = infinity
   ∧ ∀ v kv, 0 ≤ v < j → vget inMST v = Some false → vget key v = Some kv →
       (kv <? infinity)%float = false)
  ∨ (0 ≤ s.2 < j ∧ vget inMST s.2 = Some false ∧ vget key s.2 = Some s.1
     ∧ s.1 ≠ infinity
     ∧ ((∀ v kv, 0 ≤ v < n → vget inMST v = Some false → vget key v = Some kv →
           finite kv = true) →
        ∀ v kv, 0 ≤ v < j → vget inMST v = Some false → vget key v = Some kv →
          exact s.1 ≤ exact kv)).

Lemma prim_scan_spec key inMST :
  vsize key = n → vsize inMST = n →
  ∃ s, for_range 0 n (prim_scan key inMST) (infinity, -1) = Some s
       ∧ scan_inv key inMST n s.
Proof.
  intros Hk Hi. apply for_range_inv.
  - unfold n, vsize. lia.
  - left. split; [done|]. split; [done|]. intros; lia.
  - intros j [best u] Hj Inv. unfold prim_scan.
    destruct (vget_in_range inMST j) as [b Hb]; [lia|]. rewrite Hb. simpl.
    destruct (vget_in_range key j) as [kj Hkj]; [lia|].
    destruct b; simpl.
    { eexists. split; [done|]. destruct Inv as [(? & ? & H)|(? & ? & ? & ? & H)].
      - left. split; [done|]. split; [done|]. intros v kv Hv Hvo Hvk.
        destruct (decide (v = j)) as [->|?]; [congruence|]. apply (H v); [lia|done..].
      - right. split; [lia|]. split; [done|]. split; [done|]. split; [done|].
        intros Hfin v kv Hv Hvo Hvk.
        destruct (decide (v = j)) as [->|?]; [congruence|]. apply (H Hfin v); [lia|done..]. }
    rewrite Hkj. simpl. destruct (kj <? best)%float eqn:Hlt.
    + eexists. split; [done|]. right. simpl.
      split; [lia|]. split; [done|]. split; [done|]. split.
      { intros ->. by rewrite ltb_inf_false in Hlt. }
      intros Hfin v kv Hv Hvo Hvk.
      destruct (decide (v = j)) as [->|?]; [rewrite Hkj in Hvk; injection Hvk as ->; lia|].
      pose proof (Hfin j kj ltac:(lia) Hb Hkj) as Fj.
      pose proof (Hfin v kv ltac:(lia) Hvo Hvk) as Fv.
      destruct Inv as [(? & ? & H)|(? & ? & Hbu & ? & H)]; simpl in *.
      * specialize (H v kv ltac:(lia) Hvo Hvk). by rewrite ltb_inf_finite in H.
      * specialize (H Hfin v kv ltac:(lia) Hvo Hvk).
        pose proof (Hfin u best ltac:(lia) ltac:(done) Hbu) as Fb.
        rewrite (ltb_exact _ _ Fj Fb) in Hlt. apply bool_decide_eq_true in Hlt. lia.
    + eexists. split; [done|]. destruct Inv as [(? & ? & H)|(? & ? & Hbu & ? & H)]; simpl in *.
      * left. simpl. split; [done|]. split; [done|]. intros v kv Hv Hvo Hvk.
        destruct (decide (v = j)) as [->|?]; [|apply (H v); [lia|done..]].
        rewrite Hkj in Hvk. injection Hvk as <-. by subst best.
      * right. simpl. split; [lia|]. split; [done|]. split; [done|]. split; [done|].
        intros Hfin v kv Hv Hvo Hvk.
        destruct (decide (v = j)) as [->|?]; [|apply (H Hfin v); [lia|done..]].
        rewrite Hkj in Hvk. injection Hvk as <-.
        pose proof (Hfin j kj ltac:(lia) Hb Hkj) as Fj.
        pose proof (Hfin u best ltac:(lia) ltac:(done) Hbu) as Fb.
        rewrite (ltb_exact _ _ Fj Fb) in Hlt. apply bool_decide_eq_false in Hlt. lia.
Qed.

(** What the update loop leaves behind for one vertex. *)
Definition updated inMST (u : Z) key parent key' parent' (v : Z) : Prop :=
  (vget inMST v = Some true →
     vget key' v = vget key v ∧ vget parent' v = vget parent v)
  ∧ (vget inMST v = Some false →
     ∃ duv kv, mget d u v = Some duv ∧ vget key v = Some kv
       ∧ if (duv <? kv)%float
         then vget key' v = Some duv ∧ vget parent' v = Some u
         else vget key' v = Some kv ∧ vget parent' v = vget parent v).

Lemma prim_update_spec inMST u key parent :
  vsize key = n → vsize parent = n → vsize inMST = n → 0 ≤ u < n →
  ∃ s, for_range 0 n (prim_update d inMST u) (key, parent) = Some s
       ∧ vsize s.1 = n ∧ vsize s.2 = n
       ∧ ∀ v, 0 ≤ v < n → updated inMST u key parent s.1 s.2 v.
Proof.
  intros Hk Hp Hi Hu.
  destruct (for_range_inv
    (λ j s, vsize s.1 = n ∧ vsize s.2 = n
            ∧ (∀ v, 0 ≤ v < j → updated inMST u key parent s.1 s.2 v)
            ∧ (∀ v, j ≤ v → vget s.1 v = vget key v ∧ vget s.2 v = vget parent v))
    0 n (prim_update d inMST u) (key, parent)) as (s & Hrun & H1 & H2 & H3 & _).
  - unfold n, vsize. lia.
  - split; [done|]. split; [done|]. split; [intros; lia|done].
  - intros j [key1 parent1] Hj (Hk1 & Hp1 & Hlow & Hhigh). simpl in *.
    unfold prim_update.
    destruct (vget_in_range inMST j) as [b Hb]; [lia|]. rewrite Hb. simpl.
    destruct (Hhigh j ltac:(lia)) as [Ekj Epj].
    destruct b; simpl.
    { eexists. split; [done|]. simpl. split; [done|]. split; [done|]. split.
      - intros v Hv. destruct (decide (v = j)) as [->|?]; [|apply Hlow; lia].
        split; [done|]. intros ?; congruence.
      - intros v Hv. apply Hhigh. lia. }
    destruct (mget_square d u j Hsq) as [duj Hduj]; [done|done|]. rewrite Hduj. simpl.
    destruct (vget_in_range key1 j) as [kj Hkj]; [lia|]. rewrite Hkj. simpl.
    destruct (duj <? kj)%float eqn:Hlt.
    + destruct (vset_in_range key1 j duj) as [key2 Hk2]; [lia|].
      destruct (vset_in_range parent1 j u) as [parent2 Hp2]; [lia|].
      rewrite Hk2. simpl. rewrite Hp2. simpl. eexists. split; [done|]. simpl.
      split; [by rewrite (vsize_vset _ _ _ _ Hk2)|].
      split; [by rewrite (vsize_vset _ _ _ _ Hp2)|]. split.
      * intros v Hv. destruct (decide (v = j)) as [->|Hne].
        { split; [intros ?; congruence|]. intros _. exists duj, kj.
          split; [done|]. split; [congruence|]. rewrite Hlt.
          by rewrite (vget_vset_eq _ _ _ _ Hk2), (vget_vset_eq _ _ _ _ Hp2). }
        unfold updated.
        rewrite (vget_vset_ne _ _ v _ _ Hk2), (vget_vset_ne _ _ v _ _ Hp2) by done.
        apply Hlow. lia.
      * intros v Hv.
        rewrite (vget_vset_ne _ _ v _ _ Hk2), (vget_vset_ne _ _ v _ _ Hp2) by lia.
        apply Hhigh. lia.
    + eexists. split; [done|]. simpl. split; [done|]. split; [done|]. split.
      * intros v Hv. destruct (decide (v = j)) as [->|Hne]; [|apply Hlow; lia].
        split; [intros ?; congruence|]. intros _. exists duj, kj.
        split; [done|]. split; [congruence|]. by rewrite Hlt.
      * intros v Hv. apply Hhigh. lia.
  - exists s. done.
Qed.
End prim_loops.

(** ** Prim's algorithm: the tree it grows *)

Section prim_tree.
Variable d : matrix.
Let n := vsize d.
Hypothesis Hsq : square d.

Implicit Types (key : list float) (parent ord : list Z) (inMST : list bool)
  (st : prim_state).

(** One iteration, taken apart. *)
Lemma prim_iter_unfold iter key parent inMST st' :
  vsize key = n → vsize parent = n → vsize inMST = n →
  prim_iter d n iter (key, parent, inMST) = Some st' →
  ∃ best u,
    scan_inv d key inMST n (best, u)
    ∧ 0 ≤ u < n ∧ vget inMST u = Some false ∧ vget key u = Some best
    ∧ best ≠ infinity
    ∧ vset inMST u true = Some st'.2
    ∧ vsize st'.1.1 = n ∧ vsize st'.1.2 = n
    ∧ ∀ v, 0 ≤ v < n → updated d st'.2 u key parent st'.1.1 st'.1.2 v.
Proof.
  intros Hk Hp Hi Hrun. unfold prim_iter in Hrun.
  destruct (prim_scan_spec d key inMST Hk Hi) as ([best u] & Hscan & Inv).
  fold n in Hscan. rewrite Hscan in Hrun. simpl in Hrun.
  destruct (vset inMST u true) as [inMST'|] eqn:Hset; [|done]. simpl in Hrun.
  pose proof (proj1 (proj1 (vset_Some _ _ _ _) Hset)) as Hu. rewrite Hi in Hu.
  destruct (prim_update_spec d Hsq inMST' u key parent) as ([key' parent'] & Hupd & ? & ? & ?);
    [done|done|by rewrite (vsize_vset _ _ _ _ Hset)|done|].
  fold n in Hupd. rewrite Hupd in Hrun. simpl in Hrun. injection Hrun as <-.
  exists best, u. split; [done|].
  destruct Inv as [(E & _)|(_ & ? & ? & ? & _)]; simpl in *; [lia|]. done.
Qed.

(** An iteration succeeds as soon as some open vertex has a key below
    infinity. *)
Lemma prim_iter_total iter key parent inMST v kv :
  vsize key = n → vsize parent = n → vsize inMST = n →
  0 ≤ v < n → vget inMST v = Some false → vget key v = Some kv →
  (kv <? infinity)%float = true →
  ∃ st', prim_iter d n iter (key, parent, inMST) = Some st'.
Proof.
  intros Hk Hp Hi Hv Hvo Hvk Hlt. unfold prim_iter.
  destruct (prim_scan_spec d key inMST Hk Hi) as ([best u] & Hscan & Inv).
  fold n in Hscan. rewrite Hscan. simpl.
  destruct Inv as [(_ & _ & H)|(Hu & _)]; simpl in *.
  { specialize (H v kv Hv Hvo Hvk). congruence. }
  destruct (vset_in_range inMST u true) as [inMST' Hset]; [lia|]. rewrite Hset. simpl.
  destruct (prim_update_spec d Hsq inMST' u key parent) as ([key' parent'] & Hupd & _);
    [done|done|by rewrite (vsize_vset _ _ _ _ Hset)|lia|].
  fold n in Hupd. rewrite Hupd. by eexists.
Qed.

(** The invariant of the main loop.  [ord] lists the included vertices
    in the order of their inclusion. *)
Record prim_inv st ord : Prop := {
  pi_key : vsize st.1.1 = n;
  pi_parent : vsize st.1.2 = n;
  pi_inMST : vsize st.2 = n;
  pi_nodup : NoDup ord;
  pi_incl : ∀ v, vget st.2 v = Some true ↔ v ∈ ord;
  pi_first : ∀ u B, ord = u :: B → u = 0;
  pi_root : vget st.1.2 0 = Some (-1);
  pi_zero : ord = [] → vget st.1.1 0 = Some 0%float;
  pi_par : ∀ A u B, ord = A ++ u :: B → A ≠ [] →
             ∃ p, vget st.1.2 u = Some p ∧ p ∈ A;
  pi_open : ∀ v kv, 0 ≤ v < n → v ∉ ord → vget st.1.1 v = Some kv →
             (ord = [] ∧ v = 0) ∨ kv = infinity
             ∨ ∃ p, p ∈ ord ∧ vget st.1.2 v = Some p ∧ mget d p v = Some kv
}.

Lemma prim_inv_open st ord v :
  prim_inv st ord → 0 ≤ v < n → v ∉ ord → vget st.2 v = Some false.
Proof.
  intros Inv Hv Hno. destruct (vget_in_range st.2 v) as [b Hb].
  { by rewrite (pi_inMST _ _ Inv). }
  destruct b; [|done]. by apply (pi_incl _ _ Inv) in Hb.
Qed.

Lemma prim_iter_inv iter st ord st' :
  prim_inv st ord → prim_iter d n iter st = Some st' →
  ∃ u, (u ∉ ord) ∧ 0 ≤ u < n ∧ prim_inv st' (ord ++ [u]).
Proof.
  destruct st as [[key parent] inMST]. intros Inv Hrun.
  destruct (prim_iter_unfold iter key parent inMST st'
              (pi_key _ _ Inv) (pi_parent _ _ Inv) (pi_inMST _ _ Inv) Hrun)
    as (best & u & _ & Hu & Huo & Huk & Hbest & Hset & Hk' & Hp' & Hupd).
  destruct st' as [[key' parent'] inMST']. simpl in *.
  pose proof (pi_inMST _ _ Inv) as Hi0. simpl in Hi0.
  assert (u ∉ ord) as Hno.
  { intros Hin. apply (pi_incl _ _ Inv) in Hin. simpl in Hin. congruence. }
  assert (∀ v, vget inMST' v = Some true ↔ v ∈ ord ++ [u]) as Hincl.
  { intros v. rewrite (vget_vset _ _ v _ _ Hset), elem_of_app, list_elem_of_singleton.
    rewrite <- (pi_incl _ _ Inv). simpl. case_decide; [subst|]; naive_solver. }
  assert (∀ v, v ∈ ord ++ [u] → vget parent' v = vget parent v) as Hsame.
  { intros v Hv. pose proof Hv as Hv'. apply Hincl in Hv'.
    apply (Hupd v); [|done]. apply vget_range in Hv'.
    by rewrite (vsize_vset _ _ _ _ Hset), Hi0 in Hv'. }
  pose proof (pi_open _ _ Inv u best Hu Hno Huk) as Hopen_u. simpl in Hopen_u.
  exists u. split; [done|]. split; [done|]. constructor; simpl.
  - done.
  - done.
  - by rewrite (vsize_vset _ _ _ _ Hset), Hi0.
  - apply NoDup_app. split; [by apply (pi_nodup _ _ Inv)|]. split; [|apply NoDup_singleton].
    by intros x Hx ->%list_elem_of_singleton.
  - done.
  - intros u0 B E. destruct ord as [|o ord'].
    + injection E as <- _.
      destruct Hopen_u as [[_ ?]|[?|(p & Hp & _)]]; [done|done|by apply elem_of_nil in Hp].
    + injection E as <- _. by eapply (pi_first _ _ Inv).
  - rewrite Hsame; [by apply (pi_root _ _ Inv)|].
    destruct ord as [|o ord'].
    + destruct Hopen_u as [[_ ->]|[?|(p & Hp & _)]];
        [set_solver|done|by apply elem_of_nil in Hp].
    + rewrite (pi_first _ _ Inv o ord' eq_refl). set_solver.
  - by intros ?%app_nil_r_inv.
  - intros A x B E HA. destruct (decide (B = [])) as [->|HB].
    + apply app_inj_tail in E as [<- <-]. rewrite Hsame by set_solver.
      destruct Hopen_u as [[-> _]|[?|(p & Hp & Hpar & _)]]; [done|done|].
      by exists p.
    + destruct (exists_last HB) as (B0 & b & ->).
      rewrite app_comm_cons, app_assoc in E. apply app_inj_tail in E as [E <-].
      destruct (pi_par _ _ Inv A x B0 E HA) as (p & Hpar & Hp).
      exists p. split; [|done]. rewrite Hsame; [done|]. rewrite E. set_solver.
  - intros v kv Hv Hnv Hkv.
    assert ((v ∉ ord) ∧ v ≠ u) as [Hnv1 Hnv2] by set_solver.
    assert (vget inMST' v = Some false) as Hvo.
    { rewrite (vget_vset _ _ v _ _ Hset), decide_False by done.
      by apply (prim_inv_open _ _ _ Inv). }
    destruct (proj2 (Hupd v Hv) Hvo) as (duv & kv0 & Hd & Hk0 & Hcase).
    destruct (duv <? kv0)%float.
    + destruct Hcase as [Hk1 Hp1]. right. right. exists u.
      split; [set_solver|]. split; [done|]. congruence.
    + destruct Hcase as [Hk1 Hp1]. rewrite Hk1 in Hkv. injection Hkv as <-.
      destruct (pi_open _ _ Inv v kv0 Hv Hnv1 Hk0) as [[-> ->]|[?|(p & Hp & Hpar & Hpd)]].
      * destruct Hopen_u as [[_ ->]|[?|(p & Hp & _)]];
          [done|done|by apply elem_of_nil in Hp].
      * by right; left.
      * simpl in *. right. right. exists p. split; [set_solver|]. split; [congruence|done].
Qed.
End prim_tree.

Section prim_run.
Variable d : matrix.
Let n := vsize d.
Hypothesis Hsq : square d.

Implicit Types (key : list float) (parent ord : list Z) (inMST : list bool)
  (st : prim_state).

(** The state in which the main loop is entered. *)
Definition prim_init : prim_state :=
  (<[0%nat := 0%float]> (replicate (length d) infinity),
   replicate (length d) (-1), replicate (length d) false).

Lemma primMST_unfold :
  primMST d =
  if decide (1 ≤ n)
  then st ← for_range 0 n (prim_iter d n) prim_init; Some st.1.2
  else None.
Proof.
  unfold primMST, prim_init, vset. fold n.
  rewrite length_replicate. unfold n, vsize.
  destruct (decide (0 ≤ 0 < Z.of_nat (length d))), (decide (1 ≤ Z.of_nat (length d)));
    try lia; [|done].
  simpl. destruct (for_range _ _ _ _) as [[[? ?] ?]|]; done.
Qed.

Lemma prim_init_inv : 1 ≤ n → prim_inv d prim_init [].
Proof.
  intros Hn. unfold n, vsize in Hn. constructor; unfold prim_init; simpl.
  - unfold vsize. by rewrite length_insert, length_replicate.
  - apply vsize_replicate.
  - apply vsize_replicate.
  - constructor.
  - intros v. split; [|by intros ?%elem_of_nil].
    intros [? [[=] _]%lookup_replicate]%vget_Some.
  - done.
  - apply vget_replicate. lia.
  - intros _. apply vget_Some. split; [done|]. apply list_lookup_insert_eq.
    rewrite length_replicate. lia.
  - by intros [|] ? ? ? ?.
  - intros v kv Hv _ Hkv. destruct (decide (v = 0)) as [->|Hne]; [by left|].
    right. left. apply vget_Some in Hkv as [_ Hkv].
    rewrite list_lookup_insert_ne in Hkv by lia.
    by apply lookup_replicate in Hkv as [-> _].
Qed.

Lemma prim_inv_range st ord v : prim_inv d st ord → v ∈ ord → 0 ≤ v < n.
Proof.
  intros Inv Hv. apply (pi_incl _ _ _ Inv) in Hv. apply vget_range in Hv.
  by rewrite (pi_inMST _ _ _ Inv) in Hv.
Qed.

(** A duplicate-free list of [n] vertices below [n] lists them all. *)
Lemma all_vertices ord :
  NoDup ord → (∀ v, v ∈ ord → 0 ≤ v < n) → Z.of_nat (length ord) = n →
  ∀ v, 0 ≤ v < n → v ∈ ord.
Proof.
  intros Hnd Hr Hlen v Hv.
  assert (ord ⊆+ seqZ 0 n) as Hsub.
  { apply NoDup_submseteq; [done|]. intros x Hx. apply elem_of_seqZ. specialize (Hr x Hx). lia. }
  apply submseteq_length_Permutation in Hsub; [|rewrite length_seqZ; lia].
  rewrite Hsub. apply elem_of_seqZ. lia.
Qed.

(** A shorter list misses some vertex. *)
Lemma open_vertex ord :
  NoDup ord → Z.of_nat (length ord) < n → ∃ v, 0 ≤ v < n ∧ v ∉ ord.
Proof.
  intros Hnd Hlen.
  destruct (decide (Forall (λ v, v ∈ ord) (seqZ 0 n))) as [Hall|Hex].
  - exfalso. assert (seqZ 0 n ⊆+ ord) as Hsub.
    { apply NoDup_submseteq; [apply NoDup_seqZ|]. by apply Forall_forall. }
    apply submseteq_length in Hsub. rewrite length_seqZ in Hsub. lia.
  - apply not_Forall_Exists in Hex; [|apply _].
    apply Exists_exists in Hex as (v & Hv & Hno). exists v.
    apply elem_of_seqZ in Hv. split; [lia|done].
Qed.

(** The tree [primMST] returns: [ord] lists all vertices, beginning with
    the root, and every later vertex has its parent among the earlier
    ones. *)
Record prim_tree parent ord : Prop := {
  pt_size : vsize parent = n;
  pt_nonempty : 1 ≤ n;
  pt_nodup : NoDup ord;
  pt_all : ∀ v, v ∈ ord ↔ 0 ≤ v < n;
  pt_head : head ord = Some 0;
  pt_root : vget parent 0 = Some (-1);
  pt_par : ∀ A u B, ord = A ++ u :: B → A ≠ [] →
             ∃ p, vget parent u = Some p ∧ p ∈ A
}.

Lemma prim_inv_tree st ord :
  1 ≤ n → prim_inv d st ord → Z.of_nat (length ord) = n → prim_tree st.1.2 ord.
Proof.
  intros Hn Inv Hlen. constructor.
  - by apply (pi_parent _ _ _ Inv).
  - done.
  - by apply (pi_nodup _ _ _ Inv).
  - intros v. split; [by eapply prim_inv_range|].
    apply all_vertices; [by apply (pi_nodup _ _ _ Inv)| |done].
    intros x. by eapply prim_inv_range.
  - destruct ord as [|o ord']; [simpl in Hlen; lia|].
    by rewrite (pi_first _ _ _ Inv o ord' eq_refl).
  - by apply (pi_root _ _ _ Inv).
  - by apply (pi_par _ _ _ Inv).
Qed.

Lemma primMST_tree parent :
  primMST d = Some parent → ∃ ord, prim_tree parent ord.
Proof.
  rewrite primMST_unfold. case_decide as Hn; [|done].
  intros Hrun. apply bind_Some in Hrun as (st & Hrun & [= <-]).
  destruct (for_range_inv_partial
    (λ i st, ∃ ord, Z.of_nat (length ord) = i ∧ prim_inv d st ord)
    0 n (prim_iter d n) prim_init st) as (ord & Hlen & Inv); [lia|done| | |].
  - exists []. split; [done|]. by apply prim_init_inv.
  - intros i s s' Hi (ord & Hlen & Inv) Hstep.
    destruct (prim_iter_inv d Hsq i s ord s' Inv Hstep) as (u & _ & _ & Inv').
    exists (ord ++ [u]). split; [|done]. rewrite length_app. simpl. lia.
  - exists ord. by apply prim_inv_tree.
Qed.
End prim_run.

(** ** Graphs given by edge lists *)

Section edge_lists.
Implicit Types (E F R : list (Z * Z)) (a b c u v x y : Z).

(** [a] and [b] are joined by an edge of [E]. *)
Definition adjE E a b : Prop := (a, b) ∈ E ∨ (b, a) ∈ E.

Inductive reachE E (a : Z) : Z → Prop :=
  | reachE_refl : reachE E a a
  | reachE_step b c : reachE E a b → adjE E b c → reachE E a c.

Lemma adjE_sym E a b : adjE E a b → adjE E b a.
Proof. unfold adjE. tauto. Qed.

Lemma reachE_trans E a b c : reachE E a b → reachE E b c → reachE E a c.
Proof.
  intros Hab Hbc. induction Hbc as [|x y _ IH Hxy]; [done|].
  by eapply reachE_step.
Qed.

Lemma reachE_edge E a b : adjE E a b → reachE E a b.
Proof. intros. eapply reachE_step; [apply reachE_refl|done]. Qed.

Lemma reachE_sym E a b : reachE E a b → reachE E b a.
Proof.
  intros Hab. induction Hab as [|x y _ IH Hxy]; [apply reachE_refl|].
  eapply reachE_trans; [|exact IH]. by apply reachE_edge, adjE_sym.
Qed.

Lemma reachE_mono E F a b :
  (∀ x y, adjE E x y → reachE F x y) → reachE E a b → reachE F a b.
Proof.
  intros Hsub Hab. induction Hab as [|x y _ IH Hxy]; [apply reachE_refl|].
  eapply reachE_trans; [exact IH|]. by apply Hsub.
Qed.

(** A spanning tree of the complete graph on [0 .. n-1]: [n - 1] of its
    edges that join every vertex to vertex 0. *)
Definition spanning_tree (n : Z) E : Prop :=
  Z.of_nat (length E) = n - 1
  ∧ (∀ a b, (a, b) ∈ E → 0 ≤ a < n ∧ 0 ≤ b < n)
  ∧ ∀ v, 0 ≤ v < n → reachE E 0 v.

(** No edge lies on a cycle: taking any one edge out separates its two
    ends. *)
Definition acyclic E : Prop :=
  ∀ E1 a b E2, E = E1 ++ (a, b) :: E2 → ¬ reachE (E1 ++ E2) a b.

(** Multiplicity of the edge [{a, b}] and degree of [a] in an edge list;
    a loop counts twice. *)
Fixpoint multE E a b : nat :=
  match E with
  | [] => 0%nat
  | (x, y) :: E' => (ind (x = a ∧ y = b) + ind (y = a ∧ x = b) + multE E' a b)%nat
  end.

Fixpoint degE E a : nat :=
  match E with
  | [] => 0%nat
  | (x, y) :: E' => (ind (x = a) + ind (y = a) + degE E' a)%nat
  end.

Lemma multE_app E F a b : multE (E ++ F) a b = (multE E a b + multE F a b)%nat.
Proof. induction E as [|[x y] E IH]; simpl; [done|]. rewrite IH. lia. Qed.

Lemma degE_app E F a : degE (E ++ F) a = (degE E a + degE F a)%nat.
Proof. induction E as [|[x y] E IH]; simpl; [done|]. rewrite IH. lia. Qed.

Lemma multE_sym E a b : multE E a b = multE E b a.
Proof.
  induction E as [|[x y] E IH]; simpl; [done|]. rewrite IH.
  unfold ind. repeat case_decide; try lia; exfalso; tauto.
Qed.

Lemma multE_pos E a b : (0 < multE E a b)%nat ↔ adjE E a b.
Proof.
  unfold adjE. induction E as [|[x y] E IH]; simpl.
  - split; [lia|]. intros [?%elem_of_nil|?%elem_of_nil]; done.
  - rewrite !elem_of_cons. split.
    + intros H.
      destruct (decide (x = a ∧ y = b)) as [[-> ->]|N1]; [by left; left|].
      destruct (decide (y = a ∧ x = b)) as [[-> ->]|N2]; [by right; left|].
      rewrite !ind_false in H by done. apply IH in H. tauto.
    + intros [[[= -> ->]|H]|[[= -> ->]|H]].
      * rewrite (ind_true (x = x ∧ y = y)) by done. lia.
      * assert (0 < multE E a b)%nat by (apply IH; tauto). lia.
      * rewrite (ind_true (y = y ∧ x = x)) by done. lia.
      * assert (0 < multE E a b)%nat by (apply IH; tauto). lia.
Qed.

Lemma multE_loop_free E a :
  (∀ x y, (x, y) ∈ E → x ≠ y) → multE E a a = 0%nat.
Proof.
  intros H. induction E as [|[x y] E IH]; simpl; [done|].
  rewrite IH by (intros; apply H; by right).
  assert (x ≠ y) by (apply H; by left).
  rewrite !ind_false by (intros [-> ->]; done). done.
Qed.

(** *** Adjacency vectors built from edge lists *)

(** [adj] stores exactly the edges of [E], each at both of its ends. *)
Record represents (adj : adjacency) E : Prop := {
  rep_mult : ∀ a b, mult adj a b = multE E a b;
  rep_deg : ∀ a, deg adj a = degE E a;
  rep_entries : entries adj = (2 * length E)%nat
}.

Lemma adj_push_spec adj u v adj' :
  adj_push adj u v = Some adj' →
  0 ≤ u < vsize adj ∧ vsize adj' = vsize adj
  ∧ entries adj' = Datatypes.S (entries adj)
  ∧ ∀ x, nbrs adj' x = if decide (u = x) then push_back (nbrs adj u) v else nbrs adj x.
Proof.
  unfold adj_push. intros H. apply bind_Some in H as (au & Hau & Hset).
  pose proof (vget_range _ _ _ Hau) as Hu.
  split; [done|]. split; [by eapply vsize_vset|]. split.
  - pose proof (entries_vset _ _ _ _ _ Hau Hset) as E.
    unfold push_back in E. rewrite length_app in E. simpl in E. lia.
  - intros x. rewrite (nbrs_vset _ _ _ _ x Hset). by rewrite (nbrs_vget _ _ _ Hau).
Qed.

Lemma adj_push_in_range adj u v :
  0 ≤ u < vsize adj → ∃ adj', adj_push adj u v = Some adj'.
Proof.
  intros Hu. unfold adj_push. rewrite (nbrs_in _ _ Hu). simpl.
  by apply vset_in_range.
Qed.

Lemma adj_push_mult adj u v adj' a b :
  adj_push adj u v = Some adj' →
  mult adj' a b = (mult adj a b + ind (u = a ∧ v = b))%nat.
Proof.
  intros (_ & _ & _ & Hn)%adj_push_spec. unfold mult. rewrite Hn.
  destruct (decide (u = a)) as [->|Hne].
  - rewrite count_push_back. f_equal. unfold ind. repeat case_decide; try done; tauto.
  - rewrite ind_false; [lia|]. by intros [? _].
Qed.

Lemma adj_push_deg adj u v adj' a :
  adj_push adj u v = Some adj' → deg adj' a = (deg adj a + ind (u = a))%nat.
Proof.
  intros (_ & _ & _ & Hn)%adj_push_spec. unfold deg. rewrite Hn.
  destruct (decide (u = a)) as [->|Hne].
  - unfold push_back. rewrite length_app, ind_true by done. done.
  - rewrite ind_false by done. lia.
Qed.

(** [adj] is [adj0] with the edges of [M] stored in addition. *)
Record extends (adj0 : adjacency) M (adj : adjacency) : Prop := {
  ext_size : vsize adj = vsize adj0;
  ext_mult : ∀ a b, mult adj a b = (mult adj0 a b + multE M a b)%nat;
  ext_deg : ∀ a, deg adj a = (deg adj0 a + degE M a)%nat;
  ext_entries : entries adj = (entries adj0 + 2 * length M)%nat
}.

Lemma extends_refl adj : extends adj [] adj.
Proof. constructor; simpl; intros; lia. Qed.

(** The two pushes that store one edge. *)
Lemma add_edge_extends adj0 M adj u v adj1 adj2 :
  extends adj0 M adj → adj_push adj u v = Some adj1 → adj_push adj1 v u = Some adj2 →
  extends adj0 (M ++ [(u, v)]) adj2 ∧ 0 ≤ u < vsize adj ∧ 0 ≤ v < vsize adj.
Proof.
  intros [Hs Hm Hd He] H1 H2.
  pose proof (adj_push_spec _ _ _ _ H1) as (Hu & Hs1 & He1 & _).
  pose proof (adj_push_spec _ _ _ _ H2) as (Hv & Hs2 & He2 & _).
  split; [|split; lia]. constructor.
  - lia.
  - intros a b. rewrite multE_app, Nat.add_assoc, <- Hm.
    rewrite (adj_push_mult _ _ _ _ _ _ H2), (adj_push_mult _ _ _ _ _ _ H1). simpl. lia.
  - intros a. rewrite degE_app, Nat.add_assoc, <- Hd.
    rewrite (adj_push_deg _ _ _ _ _ H2), (adj_push_deg _ _ _ _ _ H1). simpl. lia.
  - rewrite length_app. simpl. lia.
Qed.

Lemma add_edge_in_range adj u v :
  0 ≤ u < vsize adj → 0 ≤ v < vsize adj →
  ∃ adj1 adj2, adj_push adj u v = Some adj1 ∧ adj_push adj1 v u = Some adj2.
Proof.
  intros Hu Hv. destruct (adj_push_in_range adj u v Hu) as [adj1 H1].
  pose proof (adj_push_spec _ _ _ _ H1) as (_ & Hs1 & _).
  destruct (adj_push_in_range adj1 v u) as [adj2 H2]; [lia|]. by exists adj1, adj2.
Qed.

Lemma extends_represents adj0 E0 M adj :
  represents adj0 E0 → extends adj0 M adj → represents adj (E0 ++ M).
Proof.
  intros [Hm Hd He] [_ Hm' Hd' He']. constructor.
  - intros a b. by rewrite Hm', Hm, multE_app.
  - intros a. by rewrite Hd', Hd, degE_app.
  - rewrite He', He, length_app. lia.
Qed.

Lemma represents_empty (n : nat) : represents (replicate n []) [].
Proof.
  assert (∀ u, nbrs (replicate n []) u = []) as Hn.
  { intros u. unfold nbrs. destruct (vget _ u) as [l|] eqn:E; [|done].
    apply vget_Some in E as [_ E]. by apply lookup_replicate in E as [-> _]. }
  constructor.
  - intros a b. unfold mult. by rewrite Hn.
  - intros a. unfold deg. by rewrite Hn.
  - by rewrite (entries_empty _ Hn).
Qed.

Lemma represents_symmetric adj E : represents adj E → symmetric adj.
Proof. intros H a b. rewrite !(rep_mult _ _ H). apply multE_sym. Qed.

Lemma represents_loop_free adj E :
  represents adj E → (∀ x y, (x, y) ∈ E → x ≠ y) → loop_free adj.
Proof. intros H Hne a. rewrite (rep_mult _ _ H). by apply multE_loop_free. Qed.

Lemma represents_reach adj E a b : represents adj E → reachE E a b → reach adj a b.
Proof.
  intros H Hab. induction Hab as [|x y _ IH Hxy]; [constructor|].
  eapply reach_step; [exact IH|]. apply mult_pos. rewrite (rep_mult _ _ H).
  by apply multE_pos.
Qed.
End edge_lists.

(** ** The adjacency of the tree and its odd vertices *)

Section tree_adjacency.
Implicit Types (parent odd : list Z) (adj : adjacency).

(** The edges [(v, parent[v])], [v = 1 .. n-1]. *)
Definition parent_of parent (v : Z) : Z := default (-1) (vget parent v).

Definition tree_edges parent : list (Z * Z) :=
  (λ v, (v, parent_of parent v)) <$> seqZ 1 (vsize parent - 1).

Lemma seqZ_snoc lo len : 0 ≤ len → seqZ lo (len + 1) = seqZ lo len ++ [lo + len].
Proof. intros. rewrite seqZ_app by lia. done. Qed.

Lemma buildAdj_represents parent adj :
  buildAdjFromParent parent = Some adj →
  represents adj (tree_edges parent) ∧ vsize adj = vsize parent
  ∧ ∀ v, 1 ≤ v < vsize parent → 0 ≤ parent_of parent v < vsize parent.
Proof.
  unfold buildAdjFromParent, tree_edges. set (n := vsize parent).
  set (f := λ v, (v, parent_of parent v)). intros Hrun.
  destruct (decide (1 ≤ n)) as [Hn|Hn].
  2: { rewrite for_range_empty in Hrun by lia. injection Hrun as <-.
       replace (seqZ 1 (n - 1)) with (@nil Z) by (unfold seqZ; by replace (Z.to_nat (n - 1)) with O by lia).
       split; [apply represents_empty|]. split; [apply vsize_replicate|]. lia. }
  destruct (for_range_inv_partial
    (λ j adj, extends (replicate (length parent) []) (f <$> seqZ 1 (j - 1)) adj
              ∧ ∀ v, 1 ≤ v < j → 0 ≤ parent_of parent v < n)
    1 n _ _ adj Hn Hrun) as [Hext Hr].
  - split; [apply extends_refl|]. intros; lia.
  - intros j a a' Hj [Hext Hr] Hbody.
    apply bind_Some in Hbody as (p & Hp & Hbody).
    apply bind_Some in Hbody as (a1 & H1 & H2).
    destruct (add_edge_extends _ _ _ _ _ _ _ Hext H1 H2) as (Hext' & _ & Hpr).
    rewrite (ext_size _ _ _ Hext), vsize_replicate in Hpr. fold n in Hpr.
    assert (parent_of parent j = p) as Ep by (unfold parent_of; by rewrite Hp).
    split.
    + replace (j + 1 - 1) with ((j - 1) + 1) by lia.
      rewrite seqZ_snoc, fmap_app by lia. simpl.
      replace (1 + (j - 1)) with j by lia. unfold f at 2. by rewrite Ep.
    + intros v Hv. destruct (decide (v = j)) as [->|?]; [by rewrite Ep|apply Hr; lia].
  - split; [|split; [|done]].
    + rewrite <- (app_nil_l (f <$> _)). eapply extends_represents; [|done].
      apply represents_empty.
    + by rewrite (ext_size _ _ _ Hext), vsize_replicate.
Qed.

Lemma buildAdj_total parent :
  (∀ v p, 1 ≤ v < vsize parent → vget parent v = Some p → 0 ≤ p < vsize parent) →
  ∃ adj, buildAdjFromParent parent = Some adj.
Proof.
  intros Hr. unfold buildAdjFromParent. set (n := vsize parent).
  destruct (decide (1 ≤ n)) as [Hn|Hn].
  2: { rewrite for_range_empty by lia. by eexists. }
  destruct (for_range_inv (λ j adj, vsize adj = n) 1 n
    (λ v adj, p ← vget parent v; adj ← adj_push adj v p; adj_push adj p v)
    (replicate (length parent) [])) as (adj & Hrun & _); [done|apply vsize_replicate| |by exists adj].
  intros j a Hj Hs.
  destruct (vget_in_range parent j) as [p Hp]; [fold n; lia|]. rewrite Hp. simpl.
  destruct (add_edge_in_range a j p) as (a1 & a2 & H1 & H2); [lia|rewrite Hs; by eapply Hr|].
  rewrite H1. simpl. rewrite H2. exists a2. split; [done|].
  pose proof (adj_push_spec _ _ _ _ H1) as (_ & ? & _).
  pose proof (adj_push_spec _ _ _ _ H2) as (_ & ? & _). lia.
Qed.

(** The vertices with an odd number of stored neighbours, in increasing
    order. *)
Definition odd_vertices adj : list Z :=
  filter (λ i, Z.of_nat (deg adj i) mod 2 = 1) (seqZ 0 (vsize adj)).

Lemma findOdd_spec adj : findOddDegreeVertices adj = Some (odd_vertices adj).
Proof.
  unfold findOddDegreeVertices, odd_vertices.
  destruct (for_range_inv
    (λ j odd, odd = filter (λ i, Z.of_nat (deg adj i) mod 2 = 1) (seqZ 0 j))
    0 (vsize adj)
    (λ i odd, ai ← vget adj i;
       if decide (vsize ai mod 2 = 1) then Some (push_back odd i) else Some odd) [])
    as (odd & Hrun & ->); [unfold vsize; lia|done| |done].
  intros j odd Hj ->. rewrite (nbrs_in _ _ Hj). simpl.
  rewrite seqZ_snoc, filter_app, Z.add_0_l by lia.
  rewrite filter_cons, filter_nil. unfold deg.
  destruct (decide (vsize (nbrs adj j) mod 2 = 1)) as [e|e]; unfold vsize in e.
  - rewrite decide_True by done. by eexists.
  - rewrite decide_False by done. eexists. split; [done|]. by rewrite app_nil_r.
Qed.

Lemma odd_vertices_NoDup adj : NoDup (odd_vertices adj).
Proof. apply NoDup_filter, NoDup_seqZ. Qed.

Lemma elem_of_odd_vertices adj v :
  v ∈ odd_vertices adj ↔ 0 ≤ v < vsize adj ∧ Z.of_nat (deg adj v) mod 2 = 1.
Proof.
  unfold odd_vertices. rewrite list_elem_of_filter, elem_of_seqZ. lia.
Qed.

Lemma parity_cases (L : nat) :
  (Z.of_nat L mod 2 = 1 ∧ ∃ c, L = (2 * c + 1)%nat)
  ∨ (Z.of_nat L mod 2 ≠ 1 ∧ ∃ c, L = (2 * c)%nat).
Proof.
  destruct (Nat.Even_or_Odd L) as [[c ->]|[c ->]]; [right|left]; (split; [|by exists c]).
  - by rewrite Nat2Z.inj_mul, Z.mul_comm, Z_mod_mult.
  - by rewrite Nat2Z.inj_add, Nat2Z.inj_mul, Z.add_comm, Z.mul_comm, Z_mod_plus_full.
Qed.

(** The handshake count: the number of odd vertices has the parity of
    the number of stored entries. *)
Lemma odd_vertices_parity adj :
  Nat.Even (length (odd_vertices adj) + entries adj).
Proof.
  unfold odd_vertices.
  cut (∀ j, 0 ≤ j ≤ vsize adj →
         Nat.Even (length (filter (λ i, Z.of_nat (deg adj i) mod 2 = 1) (seqZ 0 j))
                   + length (concat (take (Z.to_nat j) adj)))).
  { intros H. specialize (H (vsize adj) ltac:(unfold vsize; lia)).
    unfold vsize in H at 2. by rewrite Nat2Z.id, firstn_all in H. }
  intros j Hj. rewrite <- (Z2Nat.id j) by lia.
  assert (Z.to_nat j ≤ length adj)%nat as Hk by (unfold vsize in Hj; lia).
  rewrite Nat2Z.id. induction (Z.to_nat j) as [|k IH].
  - exists O. done.
  - destruct IH as [m Hm]; [lia|].
    rewrite Nat2Z.inj_succ, <- Z.add_1_r, seqZ_snoc, filter_app, length_app by lia.
    assert (0 ≤ Z.of_nat k < vsize adj) as Hk' by (unfold vsize; lia).
    pose proof (nbrs_in _ _ Hk') as Hn. apply vget_Some in Hn as [_ Hn].
    rewrite Nat2Z.id in Hn.
    rewrite (take_S_r _ _ _ Hn), concat_app, length_app. simpl.
    rewrite app_nil_r, Z.add_0_l. rewrite filter_cons, filter_nil.
    change (deg adj (Z.of_nat k)) with (length (nbrs adj (Z.of_nat k))).
    destruct (parity_cases (length (nbrs adj (Z.of_nat k)))) as [[Ho [c Hc]]|[Ho [c Hc]]].
    + rewrite decide_True by done. exists (m + c + 1)%nat. simpl. lia.
    + rewrite decide_False by done. exists (m + c)%nat. simpl. lia.
Qed.
End tree_adjacency.

(** ** The handshake lemma for symmetric adjacency vectors *)

Section handshake.
Implicit Types (f g : nat → nat) (adj : adjacency).

Fixpoint sumn (n : nat) f : nat :=
  match n with
  | O => O
  | Datatypes.S n' => (sumn n' f + f n')%nat
  end.

Lemma sumn_ext n f g : (∀ i, (i < n)%nat → f i = g i) → sumn n f = sumn n g.
Proof.
  induction n as [|n IH]; intros H; simpl; [done|].
  rewrite IH, H by (intros; try apply H; lia). done.
Qed.

Lemma sumn_add n f g : sumn n (λ i, f i + g i)%nat = (sumn n f + sumn n g)%nat.
Proof. induction n as [|n IH]; simpl; [done|]. rewrite IH. lia. Qed.

Lemma sumn_ind_one n (x : Z) :
  0 ≤ x < Z.of_nat n → sumn n (λ v, ind (x = Z.of_nat v)) = 1%nat.
Proof.
  induction n as [|n IH]; intros Hx; [lia|]. simpl.
  destruct (decide (x = Z.of_nat n)) as [->|Hne].
  - rewrite ind_true by done.
    rewrite (sumn_ext n _ (λ _, O)).
    + clear. induction n; simpl; lia.
    + intros i Hi. apply ind_false. lia.
  - rewrite ind_false, IH by lia. done.
Qed.

Lemma length_sum_count (l : list Z) n :
  (∀ x, x ∈ l → 0 ≤ x < Z.of_nat n) →
  length l = sumn n (λ v, count_occ Z.eq_dec l (Z.of_nat v)).
Proof.
  induction l as [|x l IH]; intros Hr.
  - simpl. clear. induction n; simpl; lia.
  - rewrite (sumn_ext n _ (λ v, ind (x = Z.of_nat v) + count_occ Z.eq_dec l (Z.of_nat v))%nat).
    + rewrite sumn_add, sumn_ind_one, <- IH; [done| |].
      * intros y Hy. apply Hr. by right.
      * apply Hr. by left.
    + intros i _. cbn [count_occ]. unfold ind.
      destruct (Z.eq_dec x (Z.of_nat i)), (decide (x = Z.of_nat i)); done.
Qed.

Lemma entries_sum_deg adj :
  entries adj = sumn (length adj) (λ k, deg adj (Z.of_nat k)).
Proof.
  unfold entries. rewrite <- (firstn_all adj) at 1.
  assert (length adj ≤ length adj)%nat as Hk by lia. revert Hk.
  generalize (length adj) at 1 3 4. intros k Hk. induction k as [|k IH]; [done|].
  assert (0 ≤ Z.of_nat k < vsize adj) as Hk' by (unfold vsize; lia).
  pose proof (nbrs_in _ _ Hk') as Hn. apply vget_Some in Hn as [_ Hn].
  rewrite Nat2Z.id in Hn.
  rewrite (take_S_r _ _ _ Hn), concat_app, length_app. simpl.
  rewrite app_nil_r, IH by lia. done.
Qed.

Lemma double_sum_parity n (f : nat → nat → nat) :
  (∀ u v, f u v = f v u) → (∀ u, Nat.Even (f u u)) →
  Nat.Even (sumn n (λ u, sumn n (f u))).
Proof.
  intros Hsym Hdiag. induction n as [|n [m IH]]; [by exists O|].
  simpl. rewrite sumn_add.
  destruct (Hdiag n) as [c Hc].
  rewrite (sumn_ext n (λ u, f u n) (f n)) by (intros; apply Hsym).
  exists (m + sumn n (f n) + c)%nat. lia.
Qed.

(** A symmetric adjacency vector in which no vertex lists itself an odd
    number of times stores an even number of entries. *)
Lemma symmetric_entries_even adj :
  symmetric adj → (∀ u, Nat.Even (mult adj u u)) → Nat.Even (entries adj).
Proof.
  intros Hsym Hloop. rewrite entries_sum_deg.
  rewrite (sumn_ext _ _ (λ u, sumn (length adj)
             (λ v, mult adj (Z.of_nat u) (Z.of_nat v)))).
  - apply double_sum_parity; [intros; apply Hsym|intros; apply Hloop].
  - intros u Hu. unfold deg, mult. apply length_sum_count.
    intros x Hx. assert (0 ≤ Z.of_nat u < vsize adj) as Hu' by (unfold vsize; lia).
    apply (symmetric_in_range _ Hsym _ _ x (nbrs_in _ _ Hu') Hx).
Qed.
End handshake.

(** ** Checking a concrete adjacency vector *)

Section checks.
Implicit Types (adj : adjacency).

Definition in_rangeb adj : bool :=
  bool_decide (Forall (λ l, Forall (λ v, 0 ≤ v < vsize adj) l) adj).

Definition symmetricb adj : bool :=
  in_rangeb adj
  && bool_decide (Forall (λ u, Forall (λ v, mult adj u v = mult adj v u)
                                 (seqZ 0 (vsize adj))) (seqZ 0 (vsize adj))).

Definition loop_freeb adj : bool :=
  bool_decide (Forall (λ u, mult adj u u = 0%nat) (seqZ 0 (vsize adj))).

Lemma in_rangeb_spec adj : in_rangeb adj = true → adj_in_range adj.
Proof.
  intros H%bool_decide_eq_true u l v Hu Hv.
  rewrite Forall_forall in H. specialize (H l (vget_elem_of _ _ _ Hu)).
  rewrite Forall_forall in H. by apply H.
Qed.

Lemma mult_out_l adj u v : ¬ (0 ≤ u < vsize adj) → mult adj u v = 0%nat.
Proof. intros H. unfold mult. by rewrite nbrs_out. Qed.

Lemma mult_out_r adj u v :
  adj_in_range adj → ¬ (0 ≤ v < vsize adj) → mult adj u v = 0%nat.
Proof.
  intros Hr Hv. destruct (decide (0 < mult adj u v)%nat) as [Hpos|?]; [|lia].
  apply mult_pos in Hpos. exfalso. apply Hv.
  destruct (decide (0 ≤ u < vsize adj)) as [Hu|Hu].
  - by apply (Hr u _ v (nbrs_in _ _ Hu)).
  - rewrite nbrs_out in Hpos by done. by apply elem_of_nil in Hpos.
Qed.

Lemma symmetricb_spec adj : symmetricb adj = true → symmetric adj.
Proof.
  intros [Hr%in_rangeb_spec H%bool_decide_eq_true]%andb_prop u v.
  destruct (decide (0 ≤ u < vsize adj)) as [Hu|Hu];
    [destruct (decide (0 ≤ v < vsize adj)) as [Hv|Hv]|].
  - rewrite Forall_forall in H. specialize (H u). rewrite Forall_forall in H.
    apply H; apply elem_of_seqZ; lia.
  - by rewrite (mult_out_r _ _ _ Hr Hv), (mult_out_l _ _ _ Hv).
  - by rewrite (mult_out_l _ _ _ Hu), (mult_out_r _ _ _ Hr Hu).
Qed.

Lemma loop_freeb_spec adj : loop_freeb adj = true → loop_free adj.
Proof.
  intros H%bool_decide_eq_true u. rewrite Forall_forall in H.
  destruct (decide (0 ≤ u < vsize adj)) as [Hu|Hu].
  - apply H, elem_of_seqZ. lia.
  - by apply mult_out_l.
Qed.

Lemma loop_free_even adj : loop_free adj → ∀ u, Nat.Even (mult adj u u).
Proof. intros H u. exists O. by rewrite H. Qed.
End checks.

(** C6: the list [findOddDegreeVertices] returns has even length for the
    adjacency that [buildAdjFromParent] builds from any parent vector, and
    for every symmetric adjacency vector in which no vertex lists itself
    an odd number of times. *)
Theorem odd_vertices_even :
  (∀ parent adj odd,
     buildAdjFromParent parent = Some adj →
     findOddDegreeVertices adj = Some odd → Nat.Even (length odd))
  ∧ (∀ adj,
       symmetric adj → (∀ u, Nat.Even (mult adj u u)) →
       ∃ odd, findOddDegreeVertices adj = Some odd ∧ Nat.Even (length odd)).
Proof.
  assert (∀ adj, Nat.Even (entries adj) → Nat.Even (length (odd_vertices adj))) as Hpar.
  { intros adj [c Hc]. destruct (odd_vertices_parity adj) as [m Hm].
    exists (m - c)%nat. lia. }
  split.
  - intros parent adj odd Hb Ho. rewrite findOdd_spec in Ho. injection Ho as <-.
    apply Hpar. apply buildAdj_represents in Hb as [Hrep _].
    rewrite (rep_entries _ _ Hrep). by eexists.
  - intros adj Hsym Hloop. exists (odd_vertices adj). split; [apply findOdd_spec|].
    by apply Hpar, symmetric_entries_even.
Qed.

Lemma odd_vertices_even_witness :
  Nat.Even (length [1; 2])
  ∧ ∃ odd, findOddDegreeVertices [[1; 2; 3]; [0; 3]; [0]; [1; 0]] = Some odd
           ∧ Nat.Even (length odd).
Proof.
  split.
  - apply (proj1 odd_vertices_even [-1; 0; 0] [[1; 2]; [0]; [0]] [1; 2]); reflexivity.
  - apply (proj2 odd_vertices_even [[1; 2; 3]; [0; 3]; [0]; [1; 0]]).
    + apply symmetricb_spec. vm_compute. reflexivity.
    + apply loop_free_even, loop_freeb_spec. vm_compute. reflexivity.
Defined.

(** Evenness fails for adjacency vectors in general, even symmetric ones:
    a vertex that lists itself once is a symmetric adjacency with a single
    odd vertex, and so is an edge stored at one end only. *)
Lemma odd_vertices_odd_example :
  symmetric [[0]] ∧ findOddDegreeVertices [[0]] = Some [0]
  ∧ findOddDegreeVertices [[1]; []] = Some [0]
  ∧ ¬ Nat.Even (length [0]).
Proof.
  split; [|split; [|split]].
  - apply symmetricb_spec. vm_compute. reflexivity.
  - reflexivity.
  - reflexivity.
  - intros [c Hc]. simpl in Hc. lia.
Qed.

(** ** The parent edges form a tree *)

Section tree_shape.
Variable d : matrix.
Let n := vsize d.
Variables (parent ord : list Z).
Hypothesis Htree : prim_tree d parent ord.

Lemma elem_of_tree_edges a b :
  (a, b) ∈ tree_edges parent ↔ 1 ≤ a < n ∧ b = parent_of parent a.
Proof.
  unfold tree_edges. rewrite (pt_size _ _ _ Htree). fold n.
  rewrite list_elem_of_fmap. split.
  - intros (v & [= -> ->] & Hv%elem_of_seqZ). split; [lia|done].
  - intros [Ha ->]. exists a. split; [done|]. apply elem_of_seqZ. lia.
Qed.

(** A vertex that is not first in the order is not the root, and its
    parent comes before it. *)
Lemma tree_parent_before A u B :
  ord = A ++ u :: B → A ≠ [] →
  1 ≤ u < n ∧ parent_of parent u ∈ A.
Proof.
  intros E HA. destruct (pt_par _ _ _ Htree A u B E HA) as (p & Hp & HpA).
  assert (0 ≤ u < n) as Hu by (apply (pt_all _ _ _ Htree); rewrite E; set_solver).
  assert (u ≠ 0) as Hu0.
  { intros ->. pose proof (pt_head _ _ _ Htree) as Hh. pose proof (pt_nodup _ _ _ Htree) as Hnd.
    rewrite E in Hh, Hnd. destruct A as [|a A]; [done|]. injection Hh as ->.
    apply NoDup_cons in Hnd as [Hno _]. apply Hno. set_solver. }
  split; [lia|]. unfold parent_of. by rewrite Hp.
Qed.

Lemma tree_positions v : 0 ≤ v < n → ∃ A B, ord = A ++ v :: B.
Proof. intros Hv. apply list_elem_of_split, (pt_all _ _ _ Htree), Hv. Qed.

Lemma tree_connected v : 0 ≤ v < n → reachE (tree_edges parent) 0 v.
Proof.
  intros Hv.
  cut (∀ P S, ord = P ++ S → ∀ x, x ∈ P → reachE (tree_edges parent) 0 x).
  { intros H. apply (H ord []); [by rewrite app_nil_r|]. by apply (pt_all _ _ _ Htree). }
  clear v Hv. induction P as [|u P IH] using rev_ind; intros S E x Hx.
  { by apply elem_of_nil in Hx. }
  rewrite <- app_assoc in E. cbn [app] in E.
  apply elem_of_app in Hx as [Hx| ->%list_elem_of_singleton]; [by eapply IH|].
  destruct (decide (P = [])) as [->|HP].
  - pose proof (pt_head _ _ _ Htree) as Hh. rewrite E in Hh. injection Hh as ->. constructor.
  - destruct (tree_parent_before P u S E HP) as [Hu Hp].
    eapply reachE_step; [by eapply IH|]. right. by apply elem_of_tree_edges.
Qed.

(** [anc x y]: [y] lies on the path of parent links from [x] to the root. *)
Inductive anc : Z → Z → Prop :=
  | anc_refl x : anc x x
  | anc_up x y : 1 ≤ x < n → anc (parent_of parent x) y → anc x y.

Lemma anc_before x y : anc x y → ∀ A B, ord = A ++ x :: B → y ∈ A ++ [x].
Proof.
  induction 1 as [x|x y Hx _ IH]; intros A B E; [set_solver|].
  assert (A ≠ []) as HA.
  { intros ->. pose proof (pt_head _ _ _ Htree) as Hh. rewrite E in Hh.
    injection Hh as ->. lia. }
  destruct (tree_parent_before A x B E HA) as [_ Hp].
  apply list_elem_of_split in Hp as (A1 & A2 & ->).
  specialize (IH A1 (A2 ++ x :: B)). rewrite <- app_assoc in E.
  specialize (IH E). set_solver.
Qed.

Lemma not_anc_parent c : 1 ≤ c < n → ¬ anc (parent_of parent c) c.
Proof.
  intros Hc Hanc. destruct (tree_positions c ltac:(lia)) as (A & B & E).
  assert (A ≠ []) as HA.
  { intros ->. pose proof (pt_head _ _ _ Htree) as Hh. rewrite E in Hh.
    injection Hh as ->. lia. }
  destruct (tree_parent_before A c B E HA) as [_ Hp].
  apply list_elem_of_split in Hp as (A1 & A2 & ->).
  pose proof (anc_before _ _ Hanc A1 (A2 ++ c :: B)) as Hin.
  rewrite <- app_assoc in E. specialize (Hin E).
  pose proof (pt_nodup _ _ _ Htree) as Hnd. rewrite E in Hnd.
  apply NoDup_app in Hnd as (_ & Hdis & Hnd2). apply NoDup_cons in Hnd2 as [Hno _].
  apply elem_of_app in Hin as [Hin|Heq%list_elem_of_singleton].
  - apply (Hdis c Hin). set_solver.
  - apply Hno. rewrite <- Heq. set_solver.
Qed.

Lemma tree_acyclic : acyclic (tree_edges parent).
Proof.
  intros E1 a b E2 HE Hreach. unfold tree_edges in HE.
  apply fmap_app_inv in HE as (l1 & l2 & -> & HE2 & Hseq).
  symmetry in HE2. apply fmap_cons_inv in HE2 as (c & l2' & [= -> ->] & -> & ->).
  assert (NoDup (l1 ++ c :: l2')) as Hnd by (rewrite <- Hseq; apply NoDup_seqZ).
  assert (1 ≤ c < n) as Hc.
  { assert (c ∈ seqZ 1 (vsize parent - 1)) as Hin by (rewrite Hseq; set_solver).
    apply elem_of_seqZ in Hin. rewrite (pt_size _ _ _ Htree) in Hin. fold n in Hin. lia. }
  assert (∀ x y, adjE (((λ v, (v, parent_of parent v)) <$> l1)
                       ++ ((λ v, (v, parent_of parent v)) <$> l2')) x y →
                 (anc x c ↔ anc y c)) as Hadj.
  { assert (∀ v, v ∈ l1 ++ l2' → anc v c ↔ anc (parent_of parent v) c) as Hedge.
    { intros v Hv.
      assert (v ≠ c ∧ 1 ≤ v < n) as [Hvc Hvr].
      { split.
        - intros ->. apply NoDup_app in Hnd as (_ & Hdis & Hnd2).
          apply NoDup_cons in Hnd2 as [Hno _].
          apply elem_of_app in Hv as [Hv|Hv]; [apply (Hdis c Hv); set_solver|done].
        - assert (v ∈ seqZ 1 (vsize parent - 1)) as Hin by (rewrite Hseq; set_solver).
          apply elem_of_seqZ in Hin. rewrite (pt_size _ _ _ Htree) in Hin. fold n in Hin. lia. }
      split.
      - intros H. inversion H; subst; [done|done].
      - intros H. by apply anc_up. }
    intros x y. rewrite <- fmap_app. unfold adjE. rewrite !list_elem_of_fmap.
    intros [(v & [= -> ->] & Hv)|(v & [= -> ->] & Hv)]; [|symmetry]; by apply Hedge. }
  assert (anc c c ↔ anc (parent_of parent c) c) as Hiff.
  { clear -Hreach Hadj. induction Hreach as [|x y _ IH Hxy]; [done|].
    rewrite IH. by apply Hadj. }
  apply (not_anc_parent c Hc), Hiff. constructor.
Qed.
End tree_shape.

(** ** The greedy matching *)

(** Storing a list of edges, each with the two pushes of the program. *)
Definition add_edges (adj : adjacency) (M : list (Z * Z)) : option adjacency :=
  for_each M (λ e adj, adj ← adj_push adj e.1 e.2; adj_push adj e.2 e.1) adj.

(** The vertices a list of edges covers, with repetition. *)
Definition endpoints (M : list (Z * Z)) : list Z := flat_map (λ e, [e.1; e.2]) M.

(** The entries of [odd] at the positions flagged in [used]. *)
Fixpoint sel (used : list bool) (odd : list Z) : list Z :=
  match used, odd with
  | b :: used', o :: odd' => if b then o :: sel used' odd' else sel used' odd'
  | _, _ => []
  end.

Lemma for_each_app {A S} (v1 v2 : list A) (body : A → S → option S) s :
  for_each (v1 ++ v2) body s = s' ← for_each v1 body s; for_each v2 body s'.
Proof.
  revert s. induction v1 as [|x v1 IH]; intros s; simpl; [done|].
  destruct (body x s) as [s1|]; simpl; [apply IH|done].
Qed.

Lemma add_edges_snoc adj0 M adj u v adj1 adj2 :
  add_edges adj0 M = Some adj → adj_push adj u v = Some adj1 →
  adj_push adj1 v u = Some adj2 → add_edges adj0 (M ++ [(u, v)]) = Some adj2.
Proof.
  intros HM H1 H2. unfold add_edges in *. rewrite for_each_app, HM. simpl.
  rewrite H1. simpl. by rewrite H2.
Qed.

Lemma add_edges_extends adj0 M adj : add_edges adj0 M = Some adj → extends adj0 M adj.
Proof.
  revert adj. induction M as [|[u v] M IH] using rev_ind; intros adj H.
  - injection H as <-. apply extends_refl.
  - unfold add_edges in H. rewrite for_each_app in H.
    apply bind_Some in H as (adj' & HM & H). simpl in H.
    apply bind_Some in H as (adj2 & H2 & [= <-]).
    apply bind_Some in H2 as (adj1 & H1 & H2).
    by destruct (add_edge_extends _ _ _ _ _ _ _ (IH _ HM) H1 H2) as [? _].
Qed.

Lemma endpoints_snoc M u v : endpoints (M ++ [(u, v)]) = endpoints M ++ [u; v].
Proof. unfold endpoints. by rewrite flat_map_app. Qed.

Lemma length_endpoints M : length (endpoints M) = (2 * length M)%nat.
Proof. induction M as [|e M IH]; simpl; lia. Qed.

Lemma degE_endpoints M a : degE M a = count_occ Z.eq_dec (endpoints M) a.
Proof.
  induction M as [|[x y] M IH]; [done|]. cbn [degE endpoints flat_map app fst snd count_occ].
  fold (endpoints M). rewrite IH. unfold ind.
  destruct (Z.eq_dec x a), (decide (x = a)), (Z.eq_dec y a), (decide (y = a)); try done; lia.
Qed.

Lemma sel_insert used odd (i : nat) o :
  used !! i = Some false → odd !! i = Some o →
  sel (<[i := true]> used) odd ≡ₚ o :: sel used odd.
Proof.
  revert odd i. induction used as [|b used IH]; intros [|o' odd] i Hu Ho; try done.
  destruct i as [|i]; simpl in *.
  - injection Hu as ->. by injection Ho as ->.
  - specialize (IH odd i Hu Ho). destruct b; [|done].
    rewrite IH. apply perm_swap.
Qed.

Lemma sel_all_true used odd :
  length used = length odd → (∀ i b, used !! i = Some b → b = true) →
  sel used odd = odd.
Proof.
  revert odd. induction used as [|b used IH]; intros [|o odd] Hlen Hall; try done.
  simpl in *. rewrite (Hall O b eq_refl). f_equal. apply IH; [lia|].
  intros i b' Hi. by apply (Hall (Datatypes.S i)).
Qed.

Lemma sel_replicate_false (k : nat) odd : sel (replicate k false) odd = [].
Proof. revert odd. induction k as [|k IH]; intros [|o odd]; simpl; auto. Qed.

Section matching.
Variables (d : matrix) (odd : list Z).
Let k := vsize odd.
Let n := vsize d.
Hypothesis Hsq : square d.
Hypothesis Hodd : ∀ o, o ∈ odd → 0 ≤ o < n.
Hypothesis Hnd : NoDup odd.

Implicit Types (used : list bool) (adj : adjacency) (M : list (Z * Z)).

(** The partner scan's invariant after the positions below [j]: either
    nothing was selected and no unmatched position had a distance below
    infinity, or [bestj] is an unmatched position after [i]. *)
Definition mscan_inv used (i j : Z) (s : float * Z) : Prop :=
  (s.2 = -1 ∧ s.1 = infinity
   ∧ ∀ j' oi oj x, i < j' < j → vget used j' = Some false →
       vget odd i = Some oi → vget odd j' = Some oj → mget d oi oj = Some x →
       (x <? infinity)%float = false)
  ∨ (i < s.2 < j ∧ vget used s.2 = Some false).

Lemma match_scan_spec used i :
  vsize used = k → 0 ≤ i < k →
  ∃ s, for_range (i + 1) k (match_scan odd d used i) (infinity, -1) = Some s
       ∧ mscan_inv used i k s.
Proof.
  intros Hu Hi. apply for_range_inv; [lia| |].
  - left. split; [done|]. split; [done|]. intros; lia.
  - intros j [best bestj] Hj Inv. unfold match_scan.
    destruct (vget_in_range used j) as [uj Huj]; [lia|]. rewrite Huj. simpl.
    destruct uj; simpl.
    { eexists. split; [done|]. destruct Inv as [(? & ? & H)|(? & ?)]; simpl in *.
      - left. simpl. split; [done|]. split; [done|]. intros j' oi oj x Hj' Hu'.
        destruct (decide (j' = j)) as [->|?]; [congruence|]. apply H; [lia|done].
      - right. simpl. split; [lia|done]. }
    destruct (vget_in_range odd i) as [oi Hoi]; [done|].
    destruct (vget_in_range odd j) as [oj Hoj]; [fold k; lia|].
    rewrite Hoi, Hoj. simpl.
    destruct (mget_square d oi oj Hsq) as [dist Hdist];
      [apply Hodd; by eapply vget_elem_of..|].
    rewrite Hdist. simpl. destruct (dist <? best)%float eqn:Hlt.
    + eexists. split; [done|]. right. simpl. split; [lia|done].
    + eexists. split; [done|]. destruct Inv as [(? & ? & H)|(? & ?)]; simpl in *.
      * left. simpl. split; [done|]. split; [done|]. intros j' oi' oj' x Hj' Hu' Hoi' Hoj' Hx.
        destruct (decide (j' = j)) as [->|?]; [|apply (H j' oi' oj'); [lia|done..]].
        subst best. congruence.
      * right. simpl. split; [lia|done].
Qed.

(** The invariant of the pairing loop; [M] lists the pairs made so far. *)
Record match_inv adj0 (i : Z) (st : list bool * adjacency) M : Prop := {
  mi_size : vsize st.1 = k;
  mi_done : ∀ j, 0 ≤ j < i → vget st.1 j = Some true;
  mi_edges : add_edges adj0 M = Some st.2;
  mi_cover : endpoints M ≡ₚ sel st.1 odd;
  mi_distinct : ∀ a b, (a, b) ∈ M → a ≠ b
}.

Lemma vset_sel used i o used' :
  vget used i = Some false → vget odd i = Some o → vset used i true = Some used' →
  sel used' odd ≡ₚ o :: sel used odd.
Proof.
  intros [_ Hu]%vget_Some [_ Ho]%vget_Some [_ ->]%vset_Some. by apply sel_insert.
Qed.

Lemma match_iter_inv adj0 i st M st' :
  match_inv adj0 i st M → 0 ≤ i < k → match_iter odd d k i st = Some st' →
  ∃ M', match_inv adj0 (i + 1) st' M'.
Proof.
  destruct st as [used adj]. intros [Hsz Hdone Hedges Hcover Hdist] Hi Hrun. simpl in *.
  unfold match_iter in Hrun.
  destruct (vget_in_range used i) as [ui Hui]; [lia|]. rewrite Hui in Hrun. simpl in Hrun.
  destruct ui.
  { injection Hrun as <-. exists M. constructor; simpl; try done.
    intros j Hj. destruct (decide (j = i)) as [->|?]; [done|apply Hdone; lia]. }
  destruct (match_scan_spec used i Hsz Hi) as ([best bestj] & Hscan & Inv).
  rewrite Hscan in Hrun. simpl in Hrun.
  apply bind_Some in Hrun as (used1 & H1 & Hrun).
  apply bind_Some in Hrun as (used2 & H2 & Hrun).
  apply bind_Some in Hrun as (u & Hu & Hrun).
  apply bind_Some in Hrun as (v & Hv & Hrun).
  apply bind_Some in Hrun as (adj1 & Ha1 & Hrun).
  apply bind_Some in Hrun as (adj2 & Ha2 & [= <-]).
  pose proof (proj1 (proj1 (vset_Some _ _ _ _) H2)) as Hbr.
  destruct Inv as [(? & _)|[Hbj Hbu]]; simpl in *; [lia|].
  assert (vget used1 bestj = Some false) as Hbu1.
  { rewrite (vget_vset_ne _ _ bestj _ _ H1) by lia. done. }
  exists (M ++ [(u, v)]). constructor; simpl.
  - by rewrite (vsize_vset _ _ _ _ H2), (vsize_vset _ _ _ _ H1).
  - intros j Hj. rewrite (vget_vset _ _ j _ _ H2). case_decide; [done|].
    rewrite (vget_vset _ _ j _ _ H1). case_decide; [done|]. apply Hdone. lia.
  - by eapply add_edges_snoc.
  - rewrite endpoints_snoc, (vset_sel _ _ _ _ Hbu1 Hv H2), (vset_sel _ _ _ _ Hui Hu H1).
    rewrite Hcover. rewrite (Permutation_app_comm _ [u; v]). simpl. apply perm_swap.
  - intros a b [Hab|[= -> ->]%list_elem_of_singleton]%elem_of_app; [by apply Hdist|].
    intros ->. apply vget_Some in Hu as [_ Hu]. apply vget_Some in Hv as [_ Hv].
    pose proof (NoDup_lookup _ _ _ _ Hnd Hu Hv). lia.
Qed.

Lemma match_inv_vsize adj0 i st M : match_inv adj0 i st M → vsize st.2 = vsize adj0.
Proof. intros Inv. eapply ext_size, add_edges_extends, (mi_edges _ _ _ _ Inv). Qed.

(** With an even number of listed vertices at finite distances from one
    another, an iteration always finds its partner. *)
Lemma match_iter_total adj0 i st M :
  match_inv adj0 i st M → 0 ≤ i < k →
  Nat.Even (length odd) →
  (∀ a b x, a ∈ odd → b ∈ odd → mget d a b = Some x → finite x = true) →
  (∀ o, o ∈ odd → 0 ≤ o < vsize adj0) →
  ∃ st', match_iter odd d k i st = Some st'.
Proof.
  intros Inv Hi [c Hc] Hfin Hadj.
  pose proof (match_inv_vsize _ _ _ _ Inv) as Hvs.
  destruct st as [used adj]. destruct Inv as [Hsz Hdone Hedges Hcover Hdist]. simpl in *.
  unfold match_iter.
  destruct (vget_in_range used i) as [ui Hui]; [lia|]. rewrite Hui. simpl.
  destruct ui; [by eexists|].
  destruct (match_scan_spec used i Hsz Hi) as ([best bestj] & Hscan & Inv).
  rewrite Hscan. simpl.
  destruct (vset_in_range used i true) as [used1 H1]; [lia|]. rewrite H1. simpl.
  destruct (vget_in_range odd i) as [u Hu]; [done|].
  destruct Inv as [(_ & _ & Hnone)|[Hbj Hbu]]; simpl in *.
  { exfalso.
    assert (sel used1 odd = odd) as Hall.
    { apply sel_all_true.
      - pose proof (vsize_vset _ _ _ _ H1) as E. unfold k, vsize in *. lia.
      - intros j b Hj. pose proof (lookup_lt_Some _ _ _ Hj) as Hlt.
        rewrite (length_vset _ _ _ _ H1) in Hlt.
        assert (vget used1 (Z.of_nat j) = Some b) as Hj'.
        { apply vget_Some. rewrite Nat2Z.id. split; [lia|done]. }
        rewrite (vget_vset _ _ _ _ _ H1) in Hj'. case_decide; [congruence|].
        destruct (decide (Z.of_nat j < i)) as [?|?].
        { rewrite Hdone in Hj' by lia. congruence. }
        destruct b; [done|]. exfalso.
        destruct (vget_in_range odd (Z.of_nat j)) as [oj Hoj]; [unfold vsize in *; lia|].
        destruct (mget_square d u oj Hsq) as [x Hx]; [apply Hodd; by eapply vget_elem_of..|].
        pose proof (Hnone (Z.of_nat j) u oj x ltac:(unfold vsize in *; lia) Hj' Hu Hoj Hx) as Hn.
        rewrite ltb_inf_finite in Hn; [done|].
        eapply Hfin; [..|done]; by eapply vget_elem_of. }
    pose proof (vset_sel _ _ _ _ Hui Hu H1) as Hp. rewrite Hall, <- Hcover in Hp.
    apply Permutation_length in Hp. simpl in Hp. rewrite length_endpoints in Hp. lia. }
  destruct (vset_in_range used1 bestj true) as [used2 H2].
  { rewrite (vsize_vset _ _ _ _ H1). lia. }
  rewrite H2. simpl. rewrite Hu. simpl.
  destruct (vget_in_range odd bestj) as [v Hv]; [fold k; lia|]. rewrite Hv. simpl.
  destruct (add_edge_in_range adj u v) as (adj1 & adj2 & Ha1 & Ha2).
  { rewrite Hvs. apply Hadj. by eapply vget_elem_of. }
  { rewrite Hvs. apply Hadj. by eapply vget_elem_of. }
  rewrite Ha1. simpl. rewrite Ha2. by eexists.
Qed.

Lemma match_init_inv adj0 : match_inv adj0 0 (replicate (length odd) false, adj0) [].
Proof.
  constructor; simpl.
  - apply vsize_replicate.
  - intros; lia.
  - done.
  - by rewrite sel_replicate_false.
  - by intros a b ?%elem_of_nil.
Qed.

Lemma match_final adj0 st M :
  match_inv adj0 k st M → endpoints M ≡ₚ odd.
Proof.
  intros [Hsz Hdone _ Hcover _]. rewrite Hcover. rewrite sel_all_true; [done| |].
  - unfold k, vsize in *. lia.
  - intros j b Hj. pose proof (lookup_lt_Some _ _ _ Hj) as Hlt.
    assert (vget st.1 (Z.of_nat j) = Some b) as Hj'.
    { apply vget_Some. rewrite Nat2Z.id. split; [lia|done]. }
    rewrite Hdone in Hj'; [congruence|]. unfold k, vsize in *. lia.
Qed.

(** The pairs the matcher adds. *)
Record matching adj0 adj M : Prop := {
  ma_edges : add_edges adj0 M = Some adj;
  ma_perfect : endpoints M ≡ₚ odd;
  ma_distinct : ∀ a b, (a, b) ∈ M → a ≠ b
}.

Lemma matching_partial adj0 adj :
  addGreedyPerfectMatching odd d adj0 = Some adj → ∃ M, matching adj0 adj M.
Proof.
  unfold addGreedyPerfectMatching. fold k. case_decide as Hk.
  - intros [= <-]. exists []. constructor; [done| |by intros a b ?%elem_of_nil].
    unfold k, vsize in Hk. destruct odd; [done|simpl in Hk; lia].
  - intros Hrun. apply bind_Some in Hrun as ([used adj'] & Hrun & [= <-]).
    destruct (for_range_inv_partial (λ i st, ∃ M, match_inv adj0 i st M)
      0 k _ _ _ ltac:(unfold k, vsize; lia) Hrun) as [M Inv].
    + exists []. apply match_init_inv.
    + intros i st st' Hi [M Inv] Hstep. by eapply match_iter_inv.
    + exists M. constructor; [apply (mi_edges _ _ _ _ Inv)|by eapply match_final|].
      apply (mi_distinct _ _ _ _ Inv).
Qed.

Lemma matching_total adj0 :
  Nat.Even (length odd) →
  (∀ a b x, a ∈ odd → b ∈ odd → mget d a b = Some x → finite x = true) →
  (∀ o, o ∈ odd → 0 ≤ o < vsize adj0) →
  ∃ adj, addGreedyPerfectMatching odd d adj0 = Some adj.
Proof.
  intros Hev Hfin Hadj. unfold addGreedyPerfectMatching. fold k.
  case_decide as Hk; [by eexists|].
  destruct (for_range_inv (λ i st, ∃ M, match_inv adj0 i st M)
    0 k (match_iter odd d k) (replicate (length odd) false, adj0))
    as ([used adj] & Hrun & _).
  - unfold k, vsize. lia.
  - exists []. apply match_init_inv.
  - intros i st Hi [M Inv].
    destruct (match_iter_total adj0 i st M Inv Hi Hev Hfin Hadj) as [st' Hst'].
    exists st'. split; [done|]. by eapply match_iter_inv.
  - rewrite Hrun. by eexists.
Qed.
End matching.

(** ** Prim's algorithm on finite distances *)

Section prim_finite.
Variable d : matrix.
Let n := vsize d.
Hypothesis Hsq : square d.
Hypothesis Hfin : finite_matrix d.

Implicit Types (key : list float) (parent ord : list Z) (inMST : list bool)
  (st : prim_state).

(** Once the root is in, every open vertex has a finite key, no larger
    than its distance to any included vertex. *)
Definition prim_fin st ord : Prop :=
  ord ≠ [] → ∀ v kv, 0 ≤ v < n → v ∉ ord → vget st.1.1 v = Some kv →
    finite kv = true
    ∧ ∀ x dxv, x ∈ ord → mget d x v = Some dxv → exact kv ≤ exact dxv.

Lemma zero_lt_inf : (0 <? infinity)%float = true.
Proof. vm_compute. reflexivity. Qed.

(** The scan finds a vertex as long as one is open. *)
Lemma prim_open_key st ord :
  prim_inv d st ord → prim_fin st ord → Z.of_nat (length ord) < n →
  ∃ v kv, 0 ≤ v < n ∧ vget st.2 v = Some false ∧ vget st.1.1 v = Some kv
          ∧ (kv <? infinity)%float = true.
Proof.
  intros Inv Fin Hlen.
  destruct (open_vertex d ord (pi_nodup _ _ _ Inv) Hlen) as (v & Hv & Hno).
  destruct (decide (ord = [])) as [->|Hne].
  - exists 0, 0%float. split; [unfold n, vsize in *; lia|].
    split; [apply (prim_inv_open d _ [] _ Inv); [unfold n, vsize in *; lia|set_solver]|].
    split; [by apply (pi_zero _ _ _ Inv)|apply zero_lt_inf].
  - destruct (vget_in_range st.1.1 v) as [kv Hkv]; [by rewrite (pi_key _ _ _ Inv)|].
    exists v, kv. split; [done|]. split; [by eapply prim_inv_open|]. split; [done|].
    apply ltb_inf_finite. by apply (Fin Hne v kv).
Qed.

(** One iteration on finite distances: it succeeds, and the edge it adds
    is a lightest one between the included and the open vertices. *)
Lemma prim_step_fin iter st ord :
  prim_inv d st ord → prim_fin st ord → Z.of_nat (length ord) < n →
  ∃ st' u,
    prim_iter d n iter st = Some st' ∧ (u ∉ ord) ∧ 0 ≤ u < n
    ∧ prim_inv d st' (ord ++ [u]) ∧ prim_fin st' (ord ++ [u])
    ∧ (∀ v, v ∈ ord → vget st'.1.2 v = vget st.1.2 v)
    ∧ (ord ≠ [] →
       ∃ w, mget d (parent_of st'.1.2 u) u = Some w ∧ parent_of st'.1.2 u ∈ ord
         ∧ ∀ x y dxy, x ∈ ord → 0 ≤ y < n → y ∉ ord → mget d x y = Some dxy →
             exact w ≤ exact dxy).
Proof.
  intros Inv Fin Hlen.
  destruct (prim_open_key st ord Inv Fin Hlen) as (v0 & kv0 & Hv0 & Hv0o & Hv0k & Hv0lt).
  destruct st as [[key parent] inMST].
  pose proof (pi_key _ _ _ Inv) as Hk. pose proof (pi_parent _ _ _ Inv) as Hp.
  pose proof (pi_inMST _ _ _ Inv) as Hi. simpl in Hk, Hp, Hi, Hv0o, Hv0k.
  destruct (prim_iter_total d Hsq iter key parent inMST v0 kv0 Hk Hp Hi Hv0 Hv0o Hv0k Hv0lt)
    as [st' Hrun].
  destruct (prim_iter_inv d Hsq iter _ ord st' Inv Hrun) as (u' & Hu'no & Hu'r & Inv').
  destruct (prim_iter_unfold d Hsq iter key parent inMST st' Hk Hp Hi Hrun)
    as (best & u & Hscan & Hu & Huo & Huk & Hbest & Hset & Hk' & Hp' & Hupd).
  assert (u ∉ ord) as Hno.
  { intros Hin. apply (pi_incl _ _ _ Inv) in Hin. simpl in Hin. congruence. }
  assert (u' = u) as ->.
  { pose proof (vget_vset_eq _ _ _ _ Hset) as Hin. apply (pi_incl _ _ _ Inv') in Hin.
    set_solver. }
  assert (∀ v, 0 ≤ v < n → v ∉ ord → vget inMST v = Some false) as Hopen.
  { intros v Hv Hv'. by apply (prim_inv_open d _ _ _ Inv). }
  assert (∀ v, 0 ≤ v < n → v ∉ ord ++ [u] → vget st'.2 v = Some false) as Hopen'.
  { intros v Hv Hv'. by apply (prim_inv_open d _ _ _ Inv'). }
  assert (∀ v, v ∈ ord ++ [u] → vget st'.1.2 v = vget parent v) as Hsame.
  { intros v Hv. pose proof Hv as Hv'. apply (pi_incl _ _ _ Inv') in Hv'.
    apply (Hupd v); [|done]. apply vget_range in Hv'.
    by rewrite (pi_inMST _ _ _ Inv') in Hv'. }
  exists st', u. split; [done|]. split; [done|]. split; [done|]. split; [done|].
  split; [|split].
  - (* finite keys, below the distances to the included vertices *)
    intros _ v kv Hv Hv' Hkv.
    assert ((v ∉ ord) ∧ v ≠ u) as [Hv1 Hv2] by set_solver.
    destruct (proj2 (Hupd v Hv) (Hopen' v Hv Hv')) as (duv & kv1 & Hd & Hk1 & Hcase).
    pose proof (Hfin _ _ _ Hd) as Fd.
    destruct (decide (ord = [])) as [->|Hne].
    + (* the root's iteration: all other keys are still infinite *)
      assert (kv1 = infinity) as ->.
      { destruct (pi_open _ _ _ Inv v kv1 Hv Hv1 Hk1) as [[_ ->]|[?|(p & Hp0 & _)]];
          [|done|by apply elem_of_nil in Hp0].
        destruct (pi_open _ _ _ Inv u best Hu Hno Huk) as [[_ ->]|[?|(p & Hp0 & _)]];
          [done|done|by apply elem_of_nil in Hp0]. }
      rewrite (ltb_inf_finite _ Fd) in Hcase. destruct Hcase as [Hk2 _].
      rewrite Hk2 in Hkv. injection Hkv as <-. split; [done|].
      intros x dxv ->%list_elem_of_singleton Hx. rewrite Hd in Hx. by injection Hx as <-.
    + destruct (Fin Hne v kv1 Hv Hv1 Hk1) as [Fk Hmin].
      rewrite (ltb_exact _ _ Fd Fk) in Hcase. case_bool_decide as Hlt.
      * destruct Hcase as [Hk2 _]. rewrite Hk2 in Hkv. injection Hkv as <-.
        split; [done|]. intros x dxv [Hx| ->%list_elem_of_singleton]%elem_of_app Hdx.
        -- specialize (Hmin x dxv Hx Hdx). lia.
        -- rewrite Hd in Hdx. by injection Hdx as <-.
      * destruct Hcase as [Hk2 _]. rewrite Hk2 in Hkv. injection Hkv as <-.
        split; [done|]. intros x dxv [Hx| ->%list_elem_of_singleton]%elem_of_app Hdx.
        -- by apply (Hmin x).
        -- rewrite Hd in Hdx. injection Hdx as <-. lia.
  - intros v Hv. apply Hsame. set_solver.
  - (* the new edge is a lightest crossing edge *)
    intros Hne.
    destruct (pi_open _ _ _ Inv u best Hu Hno Huk) as [[-> _]|[?|(p & Hp0 & Hpar & Hpd)]];
      [done|done|]. simpl in Hpar.
    assert (parent_of st'.1.2 u = p) as ->.
    { unfold parent_of. rewrite Hsame by set_solver. by rewrite Hpar. }
    exists best. split; [done|]. split; [done|].
    intros x y dxy Hx Hy Hy' Hdxy.
    destruct (vget_in_range key y) as [ky Hky]; [lia|].
    destruct (Fin Hne y ky Hy Hy' Hky) as [_ Hmin]. specialize (Hmin x dxy Hx Hdxy).
    destruct Hscan as [(E & _)|(_ & _ & _ & _ & Hleast)]; simpl in *; [lia|].
    assert (exact best ≤ exact ky); [|lia].
    apply (Hleast) with (v := y); [|done|by apply Hopen|done].
    intros v kv Hv Hvo Hvk. apply (Fin Hne v kv Hv); [|done].
    intros Hin. apply (pi_incl _ _ _ Inv) in Hin. simpl in Hin. congruence.
Qed.

Lemma prim_fin_init : prim_fin (prim_init d) [].
Proof. by intros ?. Qed.

(** The main loop after [i] iterations. *)
Lemma prim_run_fin i :
  1 ≤ n → 0 ≤ i ≤ n →
  ∃ st ord, for_range 0 i (prim_iter d n) (prim_init d) = Some st
            ∧ Z.of_nat (length ord) = i ∧ prim_inv d st ord ∧ prim_fin st ord.
Proof.
  intros Hn Hi.
  destruct (for_range_inv
    (λ i st, ∃ ord, Z.of_nat (length ord) = i ∧ prim_inv d st ord ∧ prim_fin st ord)
    0 i (prim_iter d n) (prim_init d)) as (st & Hrun & ord & Hlen & Inv & Fin); [lia| | |].
  - exists []. split; [done|]. split; [by apply prim_init_inv|apply prim_fin_init].
  - intros j st Hj (ord & Hlen & Inv & Fin).
    destruct (prim_step_fin j st ord Inv Fin ltac:(lia)) as (st' & u & Hrun & _ & _ & Inv' & Fin' & _).
    exists st'. split; [done|]. exists (ord ++ [u]). rewrite length_app. simpl.
    split; [lia|done].
  - by exists st, ord.
Qed.

Lemma primMST_total : 1 ≤ n → ∃ parent, primMST d = Some parent.
Proof.
  intros Hn. rewrite primMST_unfold. fold n. rewrite decide_True by done.
  destruct (prim_run_fin n Hn ltac:(lia)) as (st & ord & Hrun & _).
  rewrite Hrun. by eexists.
Qed.
End prim_finite.

(** C10: on a square matrix of finite doubles with at least one vertex,
    the minimum-key scan of each of the [n] iterations of [primMST]
    selects a vertex: the state before iteration [iter] exists, the scan
    ends with an index [u] in range (never the sentinel [-1]) that is not
    yet in the tree, and so [primMST] returns. *)
Theorem prim_scan_finds_vertex d :
  square d → finite_matrix d → 1 ≤ vsize d →
  (∀ iter, 0 ≤ iter < vsize d →
     ∃ key parent inMST best u,
       for_range 0 iter (prim_iter d (vsize d)) (prim_init d) = Some (key, parent, inMST)
       ∧ for_range 0 (vsize d) (prim_scan key inMST) (infinity, -1) = Some (best, u)
       ∧ 0 ≤ u < vsize d ∧ vget inMST u = Some false)
  ∧ ∃ parent, primMST d = Some parent.
Proof.
  intros Hsq Hfin Hn. split; [|by apply primMST_total].
  intros iter Hiter.
  destruct (prim_run_fin d Hsq Hfin iter Hn ltac:(lia))
    as ([[key parent] inMST] & ord & Hrun & Hlen & Inv & Fin).
  destruct (prim_open_key d Hsq Hfin _ ord Inv Fin ltac:(lia)) as (v & kv & Hv & Hvo & Hvk & Hlt).
  destruct (prim_scan_spec d key inMST (pi_key _ _ _ Inv) (pi_inMST _ _ _ Inv))
    as ([best u] & Hscan & Hinv).
  exists key, parent, inMST, best, u. split; [done|]. split; [done|].
  destruct Hinv as [(_ & _ & H)|(? & ? & _)]; simpl in *; [|done].
  specialize (H v kv Hv Hvo Hvk). congruence.
Qed.

(** ** Checking a concrete matrix *)

Definition squareb (d : matrix) : bool :=
  bool_decide (Forall (λ row, vsize row = vsize d) d).

Definition finite_matrixb (d : matrix) : bool := forallb (forallb finite) d.

Lemma squareb_spec d : squareb d = true → square d.
Proof.
  intros H%bool_decide_eq_true row Hrow. rewrite Forall_forall in H. by apply H.
Qed.

Lemma finite_matrixb_spec d : finite_matrixb d = true → finite_matrix d.
Proof.
  unfold finite_matrixb. rewrite forallb_forall. intros H a b x Hx.
  unfold mget in Hx. apply bind_Some in Hx as (row & Hrow & Hx).
  apply vget_elem_of, list_elem_of_In in Hrow. specialize (H row Hrow).
  rewrite forallb_forall in H. by apply H, list_elem_of_In, (vget_elem_of _ b).
Qed.

Definition two_by_two : matrix := [[0; 1]; [1; 0]]%float.

Lemma prim_scan_finds_vertex_witness : ∃ parent, primMST two_by_two = Some parent.
Proof.
  refine (proj2 (prim_scan_finds_vertex two_by_two _ _ _)).
  - apply squareb_spec. vm_compute. reflexivity.
  - apply finite_matrixb_spec. vm_compute. reflexivity.
  - vm_compute. discriminate.
Defined.

(** ** The multigraph of the pipeline *)

Lemma count_occ_NoDup (l : list Z) x :
  NoDup l → count_occ Z.eq_dec l x = if decide (x ∈ l) then 1%nat else 0%nat.
Proof.
  intros Hnd%NoDup_ListNoDup. case_decide as Hin.
  - apply list_elem_of_In in Hin. by apply NoDup_count_occ'.
  - apply count_occ_not_In. by rewrite <- list_elem_of_In.
Qed.

(** Pairing up the odd vertices makes every degree even. *)
Lemma matching_even adj0 adj M :
  matching (odd_vertices adj0) adj0 adj M → even_degrees adj.
Proof.
  intros HM x.
  pose proof (add_edges_extends _ _ _ (ma_edges _ _ _ _ HM)) as Hext.
  rewrite (ext_deg _ _ _ Hext), degE_endpoints.
  rewrite (proj1 (Permutation_count_occ Z.eq_dec (endpoints M) (odd_vertices adj0))
             (ma_perfect _ _ _ _ HM)).
  rewrite (count_occ_NoDup _ _ (odd_vertices_NoDup adj0)).
  destruct (parity_cases (deg adj0 x)) as [[Ho [c Hc]]|[Ho [c Hc]]].
  - rewrite decide_True.
    { exists (c + 1)%nat. lia. }
    apply elem_of_odd_vertices. split; [|done].
    apply nbrs_nonempty_range. intros E. unfold deg in Hc. rewrite E in Hc. simpl in Hc. lia.
  - rewrite decide_False.
    { exists c. lia. }
    intros [_ ?]%elem_of_odd_vertices. done.
Qed.

Section pipeline.
Variable d : matrix.
Let n := vsize d.
Hypothesis Hsq : square d.
Variables (parent : list Z) (adj0 : adjacency) (odd : list Z) (adj : adjacency).
Hypothesis Hprim : primMST d = Some parent.
Hypothesis Hbuild : buildAdjFromParent parent = Some adj0.
Hypothesis Hfind : findOddDegreeVertices adj0 = Some odd.
Hypothesis Hmatch : addGreedyPerfectMatching odd d adj0 = Some adj.

(** What the first four stages establish. *)
Record pipeline_graph (ord : list Z) (M : list (Z * Z)) : Prop := {
  pg_tree : prim_tree d parent ord;
  pg_adj0 : represents adj0 (tree_edges parent);
  pg_size0 : vsize adj0 = n;
  pg_odd : odd = odd_vertices adj0;
  pg_matching : matching odd adj0 adj M;
  pg_adj : represents adj (tree_edges parent ++ M);
  pg_size : vsize adj = n;
  pg_symmetric : symmetric adj;
  pg_loop_free : loop_free adj;
  pg_even : even_degrees adj;
  pg_connected : connected_from adj 0
}.

Lemma pipeline_graph_holds : ∃ ord M, pipeline_graph ord M.
Proof.
  destruct (primMST_tree d Hsq parent Hprim) as [ord Htree].
  destruct (buildAdj_represents parent adj0 Hbuild) as (Hrep0 & Hsz0 & Hpr).
  rewrite (pt_size _ _ _ Htree) in Hsz0. fold n in Hsz0.
  pose proof Hfind as Hodd. rewrite findOdd_spec in Hodd. injection Hodd as Hodd.
  symmetry in Hodd.
  assert (∀ o, o ∈ odd → 0 ≤ o < n) as Hor.
  { intros o Ho. rewrite Hodd in Ho. apply elem_of_odd_vertices in Ho. lia. }
  assert (NoDup odd) as Hnd by (rewrite Hodd; apply odd_vertices_NoDup).
  destruct (matching_partial d odd Hsq Hor Hnd adj0 adj Hmatch) as [M HM].
  pose proof (add_edges_extends _ _ _ (ma_edges _ _ _ _ HM)) as Hext.
  pose proof (extends_represents _ _ _ _ Hrep0 Hext) as Hrep.
  exists ord, M. constructor; try done.
  - by rewrite (ext_size _ _ _ Hext).
  - by eapply represents_symmetric.
  - eapply represents_loop_free; [done|].
    intros x y [Hxy|Hxy]%elem_of_app; [|by eapply (ma_distinct _ _ _ _ HM)].
    apply (elem_of_tree_edges d parent ord Htree) in Hxy as [Hx ->].
    destruct (tree_positions d parent ord Htree x ltac:(fold n; lia)) as (A & B & E).
    assert (A ≠ []) as HA.
    { intros ->. pose proof (pt_head _ _ _ Htree) as Hh. rewrite E in Hh.
      injection Hh as ->. lia. }
    destruct (tree_parent_before d parent ord Htree A x B E HA) as [_ Hp].
    intros Heq. rewrite <- Heq in Hp.
    pose proof (pt_nodup _ _ _ Htree) as Hnd'. rewrite E in Hnd'.
    apply NoDup_app in Hnd' as (_ & Hdis & _). apply (Hdis x Hp). set_solver.
  - apply (matching_even adj0 adj M). by rewrite <- Hodd.
  - intros v Hv. rewrite (ext_size _ _ _ Hext), Hsz0 in Hv.
    eapply represents_reach; [done|].
    eapply reachE_mono; [|by apply (tree_connected d parent ord Htree)].
    intros x y [?|?]; apply reachE_edge; [left|right]; set_solver.
Qed.

Lemma length_tree_edges : Z.of_nat (length (tree_edges parent)) = n - 1.
Proof.
  destruct (primMST_tree d Hsq parent Hprim) as [ord Htree].
  unfold tree_edges. rewrite length_fmap, length_seqZ, (pt_size _ _ _ Htree).
  pose proof (pt_nonempty _ _ _ Htree). fold n. fold n in H. lia.
Qed.
End pipeline.

(** C4: on the multigraph that the tree edges and the matching edges make
    up, [eulerianTourHierholzer 0] returns a walk that begins and ends at
    vertex 0, traverses every edge [{u, v}] exactly as often as the
    multigraph stores it, and has [(n - 1) + |M|] edges, [M] being the
    pairs of the matching. *)
Theorem euler_circuit_of_pipeline d parent adj0 odd adj :
  square d →
  primMST d = Some parent →
  buildAdjFromParent parent = Some adj0 →
  findOddDegreeVertices adj0 = Some odd →
  addGreedyPerfectMatching odd d adj0 = Some adj →
  ∃ M walk,
    matching odd adj0 adj M
    ∧ connected_from adj 0 ∧ even_degrees adj
    ∧ eulerianTourHierholzer 0 adj = Some walk
    ∧ head walk = Some 0 ∧ last walk = Some 0
    ∧ (∀ u v, uses walk u v = mult adj u v)
    ∧ Z.of_nat (length walk) - 1 = (vsize d - 1) + Z.of_nat (length M).
Proof.
  intros Hsq Hprim Hbuild Hfind Hmatch.
  destruct (pipeline_graph_holds d Hsq parent adj0 odd adj Hprim Hbuild Hfind Hmatch)
    as (ord & M & G).
  pose proof (pt_nonempty _ _ _ (pg_tree _ _ _ _ _ _ _ G)) as Hn.
  destruct (hierholzer_circuit adj 0) as (walk & Hrun & Hh & Hl & Huses & _ & Hcount).
  - rewrite (pg_size _ _ _ _ _ _ _ G). lia.
  - apply (pg_even _ _ _ _ _ _ _ G).
  - apply (pg_symmetric _ _ _ _ _ _ _ G).
  - apply (pg_loop_free _ _ _ _ _ _ _ G).
  - apply (pg_connected _ _ _ _ _ _ _ G).
  - exists M, walk. split; [apply (pg_matching _ _ _ _ _ _ _ G)|].
    split; [apply (pg_connected _ _ _ _ _ _ _ G)|].
    split; [apply (pg_even _ _ _ _ _ _ _ G)|].
    split; [done|]. split; [done|]. split; [done|]. split; [done|].
    rewrite (rep_entries _ _ (pg_adj _ _ _ _ _ _ _ G)), length_app in Hcount.
    pose proof (length_tree_edges d Hsq parent Hprim). lia.
Qed.

Definition unit_square_matrix : matrix :=
  Eval vm_compute in default [] (buildDistanceMatrix unit_square).

Lemma euler_circuit_of_pipeline_witness :
  ∃ M walk,
    matching [2; 3] [[1; 3]; [0; 2]; [1]; [0]] [[1; 3]; [0; 2]; [1; 3]; [0; 2]] M
    ∧ connected_from [[1; 3]; [0; 2]; [1; 3]; [0; 2]] 0
    ∧ even_degrees [[1; 3]; [0; 2]; [1; 3]; [0; 2]]
    ∧ eulerianTourHierholzer 0 [[1; 3]; [0; 2]; [1; 3]; [0; 2]] = Some walk
    ∧ head walk = Some 0 ∧ last walk = Some 0
    ∧ (∀ u v, uses walk u v = mult [[1; 3]; [0; 2]; [1; 3]; [0; 2]] u v)
    ∧ Z.of_nat (length walk) - 1 = (vsize unit_square_matrix - 1) + Z.of_nat (length M).
Proof.
  apply (euler_circuit_of_pipeline unit_square_matrix [-1; 0; 1; 0]).
  - apply squareb_spec. vm_compute. reflexivity.
  - vm_compute. reflexivity.
  - vm_compute. reflexivity.
  - vm_compute. reflexivity.
  - vm_compute. reflexivity.
Defined.

(** ** Shortcutting *)

(** The first occurrences in [l] of the vertices not yet in [seen]. *)
Fixpoint first_occ (seen l : list Z) : list Z :=
  match l with
  | [] => []
  | x :: l' =>
      if decide (x ∈ seen) then first_occ seen l' else x :: first_occ (x :: seen) l'
  end.

Lemma elem_of_first_occ seen l v : v ∈ first_occ seen l ↔ v ∈ l ∧ (v ∉ seen).
Proof.
  revert seen. induction l as [|x l IH]; intros seen; simpl.
  { split; [by intros ?%elem_of_nil|by intros [?%elem_of_nil _]]. }
  case_decide as Hx.
  - rewrite IH, elem_of_cons. split; [intros [? ?]; by split; [right|]|].
    intros [[->|?] ?]; done.
  - rewrite !elem_of_cons, IH, not_elem_of_cons. split.
    + intros [->|(? & ? & ?)]; [by split; [left|]|by split; [right|]].
    + intros [[->|?] ?]; [by left|].
      destruct (decide (v = x)) as [->|?]; [by left|by right].
Qed.

Lemma NoDup_first_occ seen l : NoDup (first_occ seen l).
Proof.
  revert seen. induction l as [|x l IH]; intros seen; simpl; [constructor|].
  case_decide; [apply IH|]. constructor; [|apply IH].
  rewrite elem_of_first_occ, not_elem_of_cons. by intros (_ & ? & _).
Qed.

Lemma shortcut_loop (n : nat) l :
  ∀ visited tour seen,
    length visited = n →
    (∀ v, 0 ≤ v < Z.of_nat n → vget visited v = Some true ↔ v ∈ seen) →
    (∀ v, v ∈ l → 0 ≤ v < Z.of_nat n) →
    ∃ visited', for_each l shortcut_step (visited, tour)
                = Some (visited', tour ++ first_occ seen l).
Proof.
  induction l as [|x l IH]; intros visited tour seen Hlen Hvis Hr; simpl.
  { exists visited. by rewrite app_nil_r. }
  assert (0 ≤ x < Z.of_nat n) as Hx by (apply Hr; by left).
  destruct (vget_in_range visited x) as [b Hb]; [unfold vsize; lia|]. rewrite Hb. simpl.
  destruct b; simpl.
  - rewrite decide_True by (by apply Hvis). apply IH; [done|done|].
    intros v Hv. apply Hr. by right.
  - rewrite decide_False by (rewrite <- Hvis by done; congruence).
    destruct (vset_in_range visited x true) as [visited1 H1]; [unfold vsize; lia|].
    rewrite H1. simpl.
    destruct (IH visited1 (push_back tour x) (x :: seen)) as [visited' Hrun].
    + by rewrite (length_vset _ _ _ _ H1).
    + intros v Hv. rewrite (vget_vset _ _ v _ _ H1), elem_of_cons.
      case_decide; [subst; naive_solver|]. rewrite Hvis by done. naive_solver.
    + intros v Hv. apply Hr. by right.
    + exists visited'. rewrite Hrun. unfold push_back. by rewrite <- app_assoc.
Qed.

Lemma shortcut_spec (n : nat) euler :
  (∀ v, v ∈ euler → 0 ≤ v < Z.of_nat n) →
  shortcut n euler = Some (push_back (rotate_to_zero (first_occ [] euler)) 0).
Proof.
  intros Hr. unfold shortcut.
  destruct (shortcut_loop n euler (replicate n false) [] []) as [visited Hrun].
  - apply length_replicate.
  - intros v Hv. rewrite vget_replicate by done. split; [done|by intros ?%elem_of_nil].
  - done.
  - rewrite Hrun. done.
Qed.

Lemma rotate_to_zero_head tour : head tour = Some 0 → rotate_to_zero tour = tour.
Proof.
  destruct tour as [|x tour]; [done|]. intros [= ->]. unfold rotate_to_zero.
  cbn [find_pos]. by rewrite decide_True.
Qed.

(** ** The tour *)

Section tour.
Variable d : matrix.
Let n := vsize d.
Hypothesis Hsq : square d.
Hypothesis Hfin : finite_matrix d.
Hypothesis Hn : 1 ≤ n.

Lemma stages_total :
  ∃ parent adj0 odd adj,
    primMST d = Some parent ∧ buildAdjFromParent parent = Some adj0
    ∧ findOddDegreeVertices adj0 = Some odd
    ∧ addGreedyPerfectMatching odd d adj0 = Some adj.
Proof.
  destruct (primMST_total d Hsq Hfin Hn) as [parent Hprim].
  destruct (primMST_tree d Hsq parent Hprim) as [ord Htree].
  destruct (buildAdj_total parent) as [adj0 Hbuild].
  { intros v p Hv Hp. rewrite (pt_size _ _ _ Htree) in *. fold n in Hv |- *.
    destruct (tree_positions d parent ord Htree v ltac:(fold n; lia)) as (A & B & E).
    assert (A ≠ []) as HA.
    { intros ->. pose proof (pt_head _ _ _ Htree) as Hh. rewrite E in Hh.
      injection Hh as ->. lia. }
    destruct (tree_parent_before d parent ord Htree A v B E HA) as [_ Hin].
    unfold parent_of in Hin. rewrite Hp in Hin. simpl in Hin.
    apply (pt_all _ _ _ Htree). rewrite E. set_solver. }
  destruct (buildAdj_represents parent adj0 Hbuild) as (Hrep0 & Hsz0 & _).
  rewrite (pt_size _ _ _ Htree) in Hsz0. fold n in Hsz0.
  destruct (matching_total d (odd_vertices adj0) Hsq) with (adj0 := adj0) as [adj Hmatch].
  - intros o Ho%elem_of_odd_vertices. fold n. lia.
  - apply odd_vertices_NoDup.
  - destruct (odd_vertices_parity adj0) as [m Hm].
    rewrite (rep_entries _ _ Hrep0) in Hm. exists (m - length (tree_edges parent))%nat. lia.
  - intros a b x _ _ Hx. by eapply Hfin.
  - by intros o [? _]%elem_of_odd_vertices.
  - exists parent, adj0, (odd_vertices adj0), adj.
    split; [done|]. split; [done|]. split; [apply findOdd_spec|done].
Qed.

Lemma tour_well_formed :
  ∃ tour, christofidesTour d = Some tour
    ∧ vsize tour = n + 1
    ∧ take (length d) tour ≡ₚ seqZ 0 n
    ∧ head tour = Some 0 ∧ last tour = Some 0.
Proof.
  destruct stages_total as (parent & adj0 & odd & adj & Hprim & Hbuild & Hfind & Hmatch).
  destruct (pipeline_graph_holds d Hsq parent adj0 odd adj Hprim Hbuild Hfind Hmatch)
    as (ord & M & G).
  pose proof (pg_size _ _ _ _ _ _ _ G) as Hsz. fold n in Hsz.
  destruct (hierholzer_circuit adj 0) as (walk & Hrun & Hh & Hl & _ & Hall & _).
  { rewrite Hsz. lia. }
  { apply (pg_even _ _ _ _ _ _ _ G). }
  { apply (pg_symmetric _ _ _ _ _ _ _ G). }
  { apply (pg_loop_free _ _ _ _ _ _ _ G). }
  { apply (pg_connected _ _ _ _ _ _ _ G). }
  unfold christofidesTour. rewrite Hprim. simpl. rewrite Hbuild. simpl.
  rewrite Hfind. simpl. rewrite Hmatch. simpl. rewrite Hrun. simpl.
  rewrite shortcut_spec.
  2: { intros v Hv%Hall. rewrite Hsz in Hv. unfold n, vsize in Hv. lia. }
  set (tour0 := first_occ [] walk).
  assert (tour0 ≡ₚ seqZ 0 n) as Hperm.
  { apply NoDup_Permutation; [apply NoDup_first_occ|apply NoDup_seqZ|].
    intros v. unfold tour0. rewrite elem_of_first_occ, elem_of_seqZ, <- Hall, Hsz.
    split; [lia|]. intros ?. split; [lia|by intros ?%elem_of_nil]. }
  assert (head tour0 = Some 0) as Hh0.
  { unfold tour0. destruct walk as [|x walk]; [done|]. injection Hh as ->. done. }
  rewrite (rotate_to_zero_head _ Hh0).
  assert (length tour0 = length d) as Hlen.
  { apply Permutation_length in Hperm. rewrite length_seqZ in Hperm.
    unfold n, vsize in Hperm. lia. }
  eexists. split; [done|]. unfold push_back. split; [|split; [|split]].
  - unfold vsize. rewrite length_app, Hlen. unfold n, vsize. simpl. lia.
  - by rewrite <- Hlen, take_app_length.
  - destruct tour0; [done|]. done.
  - by rewrite last_snoc.
Qed.
End tour.

(** C1, with the precondition the code needs: on every square matrix of
    finite doubles with [n >= 1] rows, [christofidesTour] returns [n + 1]
    vertex indices, the first [n] of which are the vertices [0 .. n-1] each
    exactly once, and whose first and last entries are vertex 0. *)
Theorem christofides_tour_closed d :
  square d → finite_matrix d → 1 ≤ vsize d →
  ∃ tour, christofidesTour d = Some tour
    ∧ vsize tour = vsize d + 1
    ∧ take (length d) tour ≡ₚ seqZ 0 (vsize d)
    ∧ head tour = Some 0 ∧ last tour = Some 0.
Proof. apply tour_well_formed. Qed.

Lemma christofides_tour_closed_witness :
  ∃ tour, christofidesTour unit_square_matrix = Some tour
    ∧ vsize tour = vsize unit_square_matrix + 1
    ∧ take (length unit_square_matrix) tour ≡ₚ seqZ 0 (vsize unit_square_matrix)
    ∧ head tour = Some 0 ∧ last tour = Some 0.
Proof.
  apply (christofides_tour_closed unit_square_matrix).
  - apply squareb_spec. vm_compute. reflexivity.
  - apply finite_matrixb_spec. vm_compute. reflexivity.
  - vm_compute. discriminate.
Defined.

(** Two points so far apart that the square of their coordinate difference
    overflows: their distance is stored as infinity, the second scan of
    [primMST] selects nothing, and [inMST[-1]] is accessed. *)
Definition far_apart : list Point := [mkPoint 0 0; mkPoint 0x1p+600 0]%float.

Lemma christofides_tour_far_apart :
  buildDistanceMatrix far_apart = Some [[0; infinity]; [infinity; 0]]%float
  ∧ christofidesTour [[0; infinity]; [infinity; 0]]%float = None.
Proof. split; vm_compute; reflexivity. Qed.

(** C3, with the precondition the code needs: when the listed odd
    vertices of the tree adjacency lie at finite distances from one
    another, [addGreedyPerfectMatching] returns; the list has even length,
    the edges [M] it stores pair every listed vertex exactly once, every
    vertex of the resulting multigraph has even degree, and an empty list
    leaves the adjacency as it was. *)
Theorem greedy_matching_perfect d parent adj0 odd :
  square d →
  primMST d = Some parent →
  buildAdjFromParent parent = Some adj0 →
  findOddDegreeVertices adj0 = Some odd →
  (∀ a b x, a ∈ odd → b ∈ odd → mget d a b = Some x → finite x = true) →
  Nat.Even (length odd)
  ∧ ∃ M adj,
      addGreedyPerfectMatching odd d adj0 = Some adj
      ∧ add_edges adj0 M = Some adj
      ∧ endpoints M ≡ₚ odd
      ∧ even_degrees adj
      ∧ (odd = [] → M = [] ∧ adj = adj0).
Proof.
  intros Hsq Hprim Hbuild Hfind Hfin.
  destruct (primMST_tree d Hsq parent Hprim) as [ord Htree].
  destruct (buildAdj_represents parent adj0 Hbuild) as (Hrep0 & Hsz0 & _).
  rewrite (pt_size _ _ _ Htree) in Hsz0.
  rewrite findOdd_spec in Hfind. injection Hfind as <-.
  assert (Nat.Even (length (odd_vertices adj0))) as Heven.
  { destruct (odd_vertices_parity adj0) as [m Hm].
    rewrite (rep_entries _ _ Hrep0) in Hm. exists (m - length (tree_edges parent))%nat. lia. }
  split; [done|].
  assert (∀ o, o ∈ odd_vertices adj0 → 0 ≤ o < vsize d) as Hor.
  { intros o Ho%elem_of_odd_vertices. lia. }
  destruct (matching_total d (odd_vertices adj0) Hsq Hor (odd_vertices_NoDup adj0) adj0)
    as [adj Hmatch]; [done|done|by intros o [? _]%elem_of_odd_vertices|].
  destruct (matching_partial d _ Hsq Hor (odd_vertices_NoDup adj0) adj0 adj Hmatch)
    as [M HM].
  exists M, adj. split; [done|]. split; [apply (ma_edges _ _ _ _ HM)|].
  split; [apply (ma_perfect _ _ _ _ HM)|]. split; [by eapply matching_even|].
  intros Hempty. pose proof (ma_perfect _ _ _ _ HM) as Hp. rewrite Hempty in Hp.
  apply Permutation_length in Hp. rewrite length_endpoints in Hp.
  destruct M as [|e M]; [|simpl in Hp; lia].
  split; [done|]. pose proof (ma_edges _ _ _ _ HM) as He. by injection He as <-.
Qed.

Lemma greedy_matching_perfect_witness :
  Nat.Even (length [2; 3])
  ∧ ∃ M adj,
      addGreedyPerfectMatching [2; 3] unit_square_matrix [[1; 3]; [0; 2]; [1]; [0]] = Some adj
      ∧ add_edges [[1; 3]; [0; 2]; [1]; [0]] M = Some adj
      ∧ endpoints M ≡ₚ [2; 3]
      ∧ even_degrees adj
      ∧ ([2; 3] = [] → M = [] ∧ adj = [[1; 3]; [0; 2]; [1]; [0]]).
Proof.
  apply (greedy_matching_perfect unit_square_matrix [-1; 0; 1; 0]).
  - apply squareb_spec. vm_compute. reflexivity.
  - vm_compute. reflexivity.
  - vm_compute. reflexivity.
  - vm_compute. reflexivity.
  - intros a b x _ _ Hx. revert a b x Hx. apply finite_matrixb_spec.
    vm_compute. reflexivity.
Defined.

(** Three points on a line, the outer two so far apart that their distance
    is stored as infinity while both are at a finite distance from the
    middle one: the tree is built, its odd vertices are the outer two, and
    the partner scan selects nothing, so [used[-1]] is accessed. *)
Definition spread_out : list Point :=
  [mkPoint 0 0; mkPoint (-0x1p+511) 0; mkPoint 0x1p+511 0]%float.

Definition spread_out_matrix : matrix :=
  [[0; 0x1p+511; 0x1p+511]; [0x1p+511; 0; infinity]; [0x1p+511; infinity; 0]]%float.

Lemma greedy_matching_spread_out :
  buildDistanceMatrix spread_out = Some spread_out_matrix
  ∧ primMST spread_out_matrix = Some [-1; 0; 0]
  ∧ buildAdjFromParent [-1; 0; 0] = Some [[1; 2]; [0]; [0]]
  ∧ findOddDegreeVertices [[1; 2]; [0]; [0]] = Some [1; 2]
  ∧ addGreedyPerfectMatching [1; 2] spread_out_matrix [[1; 2]; [0]; [0]] = None.
Proof. repeat split; vm_compute; reflexivity. Qed.

(** ** Exchanging an edge across a cut *)

Section exchange.
Variable S : Z → Prop.
Context `{HS : ∀ x, Decision (S x)}.

Implicit Types (E F R : list (Z * Z)) (a b c p u v x y : Z).

(** Reachability through vertices outside [S] only. *)
Inductive outreach E (y : Z) : Z → Prop :=
  | out_refl : ¬ S y → outreach E y y
  | out_step b c : outreach E y b → adjE E b c → ¬ S c → outreach E y c.

Lemma outreach_out E y b : outreach E y b → ¬ S b.
Proof. by destruct 1. Qed.

(** A path that leaves [S] crosses the cut a last time. *)
Lemma last_crossing E a b :
  reachE E a b → S a → ¬ S b →
  ∃ x y, S x ∧ ¬ S y ∧ adjE E x y ∧ outreach E y b.
Proof.
  induction 1 as [|b c Hab IH Hbc]; intros Ha Hc; [done|].
  destruct (decide (S b)) as [Hb|Hb].
  - exists b, c. split; [done|]. split; [done|]. split; [done|]. by constructor.
  - destruct (IH Ha Hb) as (x & y & Hx & Hy & Hxy & Hout).
    exists x, y. split; [done|]. split; [done|]. split; [done|]. by eapply out_step.
Qed.

Lemma adjE_split A e B a b :
  adjE (A ++ e :: B) a b → adjE (A ++ B) a b ∨ same_edge a b e.1 e.2.
Proof.
  unfold adjE, same_edge. rewrite !elem_of_app, !elem_of_cons. destruct e as [e1 e2]. simpl.
  intros [[?|[[= -> ->]|?]]|[?|[[= -> ->]|?]]]; tauto.
Qed.

Lemma adjE_app_l E F a b : adjE E a b → adjE (E ++ F) a b.
Proof. unfold adjE. rewrite !elem_of_app. tauto. Qed.

Lemma adjE_app_r E F a b : adjE F a b → adjE (E ++ F) a b.
Proof. unfold adjE. rewrite !elem_of_app. tauto. Qed.

(** The exchange step: if [F] joins the vertices of [S] to vertex 0 and
    [F ++ R] joins all vertices, then for an edge [{u, p}] across the cut
    some edge of [R] across the cut can be given up for it. *)
Lemma exchange F R p u :
  (∀ a b, (a, b) ∈ F → S a ∧ S b) → (∀ x, S x → reachE F 0 x) →
  S 0 → S p → ¬ S u → reachE (F ++ R) 0 u →
  ∃ x y R1 R2,
    S x ∧ ¬ S y ∧ (R = R1 ++ (x, y) :: R2 ∨ R = R1 ++ (y, x) :: R2)
    ∧ ∀ v, reachE (F ++ R) 0 v → reachE ((F ++ [(u, p)]) ++ R1 ++ R2) 0 v.
Proof.
  intros HF Htree H0 Hp Hu Hreach.
  destruct (last_crossing _ _ _ Hreach H0 Hu) as (x & y & Hx & Hy & Hxy & Hout).
  assert (∃ e R1 R2, R = R1 ++ e :: R2 ∧ (e = (x, y) ∨ e = (y, x)))
    as (e & R1 & R2 & HR & He).
  { destruct Hxy as [Hin|Hin]; apply elem_of_app in Hin as [Hin|Hin];
      try (apply HF in Hin; tauto);
      apply list_elem_of_split in Hin as (R1 & R2 & ->); eauto 6. }
  exists x, y, R1, R2. split; [done|]. split; [done|].
  split; [destruct He as [-> | ->]; auto|].
  set (G := (F ++ [(u, p)]) ++ R1 ++ R2).
  assert (∀ a b, adjE F a b → adjE G a b) as HFG.
  { intros a b Hab. unfold G. by apply adjE_app_l, adjE_app_l. }
  assert (∀ a b, adjE (F ++ R1 ++ R2) a b → adjE G a b) as HRG.
  { intros a b. unfold G, adjE. rewrite !elem_of_app. tauto. }
  assert (same_edge x y e.1 e.2) as Hsame.
  { unfold same_edge. destruct He as [-> | ->]; simpl; tauto. }
  assert (∀ b, outreach (F ++ R) y b → reachE (F ++ R1 ++ R2) y b) as Hout'.
  { intros b Hb. induction Hb as [|b c Hyb IH Hbc Hc]; [constructor|].
    eapply reachE_step; [exact IH|].
    rewrite HR, app_assoc in Hbc. apply adjE_split in Hbc as [Hbc|Hbc].
    + by rewrite <- app_assoc in Hbc.
    + pose proof (outreach_out _ _ _ Hyb). exfalso. clear IH Hsame.
      unfold same_edge in Hbc. destruct He as [-> | ->]; simpl in Hbc;
        destruct Hbc as [[-> ->]|[-> ->]]; tauto. }
  assert (reachE G x y) as Hxy'.
  { apply (reachE_trans G x p y); [|apply (reachE_trans G p u y)].
    - (* inside the tree, from [x] to [p] *)
      eapply reachE_mono; [intros a b Hab; apply reachE_edge, HFG, Hab|].
      apply (reachE_trans F x 0 p); [apply reachE_sym, Htree, Hx|apply Htree, Hp].
    - (* across the new edge *)
      apply reachE_edge. unfold G, adjE. rewrite !elem_of_app, !list_elem_of_singleton. tauto.
    - (* outside, back to [y] *)
      apply reachE_sym. eapply reachE_mono; [|apply Hout', Hout].
      intros a b Hab. by apply reachE_edge, HRG. }
  intros v. apply reachE_mono. intros a b Hab.
  rewrite HR, app_assoc in Hab. apply adjE_split in Hab as [Hab|Hab].
  - rewrite <- app_assoc in Hab. by apply reachE_edge, HRG.
  - unfold same_edge in Hab. destruct He as [-> | ->]; simpl in Hab;
      destruct Hab as [[-> ->]|[-> ->]]; first [exact Hxy'|by apply reachE_sym].
Qed.
End exchange.

(** ** Weights *)

Section weights.
Variable d : matrix.

Definition edge_weight (e : Z * Z) : Z :=
  match mget d e.1 e.2 with
  | Some x => exact x
  | None => 0
  end.

(** The exact total weight of a list of edges, in units of 2^-1074. *)
Definition weight (E : list (Z * Z)) : Z := foldr (λ e acc, edge_weight e + acc) 0 E.

Lemma weight_app E F : weight (E ++ F) = weight E + weight F.
Proof. induction E as [|e E IH]; simpl; [done|]. rewrite IH. lia. Qed.

Lemma weight_Permutation E F : E ≡ₚ F → weight E = weight F.
Proof. induction 1; simpl; lia. Qed.

Definition symmetric_matrix : Prop := ∀ a b, mget d a b = mget d b a.

Lemma edge_weight_sym a b : symmetric_matrix → edge_weight (a, b) = edge_weight (b, a).
Proof. intros H. unfold edge_weight. simpl. by rewrite H. Qed.
End weights.

(** ** Prim's tree is a minimum spanning tree *)

Section prim_minimum.
Variable d : matrix.
Let n := vsize d.
Hypothesis Hsq : square d.
Hypothesis Hfin : finite_matrix d.
Hypothesis Hsym : symmetric_matrix d.
Variable T : list (Z * Z).
Hypothesis HT : spanning_tree n T.

Implicit Types (parent ord : list Z) (st : prim_state) (R : list (Z * Z)).

(** The tree edges in the order of inclusion. *)
Definition order_edges parent ord : list (Z * Z) :=
  (λ v, (v, parent_of parent v)) <$> tail ord.

(** The exchange invariant: the edges chosen so far, completed by the
    edges [R], join all vertices and weigh no more than [T]. *)
Record prim_exch st ord R : Prop := {
  pe_len : Z.of_nat (length ord) + Z.of_nat (length R) = n;
  pe_range : ∀ a b, (a, b) ∈ R → 0 ≤ a < n ∧ 0 ≤ b < n;
  pe_conn : ∀ v, 0 ≤ v < n → reachE (order_edges st.1.2 ord ++ R) 0 v;
  pe_tree : ∀ x, x ∈ ord → reachE (order_edges st.1.2 ord) 0 x;
  pe_weight : weight d (order_edges st.1.2 ord) + weight d R ≤ weight d T
}.

Lemma order_edges_ext parent parent' ord :
  (∀ v, v ∈ ord → vget parent' v = vget parent v) →
  order_edges parent' ord = order_edges parent ord.
Proof.
  intros H. unfold order_edges. apply list_fmap_ext. intros i v Hv.
  unfold parent_of. rewrite H; [done|].
  destruct ord as [|o ord]; [done|]. right. by eapply list_elem_of_lookup_2.
Qed.

Lemma order_edges_snoc parent ord u :
  ord ≠ [] → order_edges parent (ord ++ [u]) = order_edges parent ord ++ [(u, parent_of parent u)].
Proof.
  intros Hne. unfold order_edges. destruct ord as [|o ord]; [done|].
  simpl. by rewrite fmap_app.
Qed.

Lemma prim_exch_init st : 1 ≤ n → prim_exch st [0] T.
Proof.
  destruct HT as (Hlen & Hr & Hconn). intros Hn. constructor; simpl.
  - lia.
  - done.
  - done.
  - intros x ->%list_elem_of_singleton. constructor.
  - unfold order_edges. simpl. lia.
Qed.

Lemma prim_exch_step st ord R st' u :
  prim_inv d st ord → ord ≠ [] → prim_exch st ord R →
  (u ∉ ord) → 0 ≤ u < n → prim_inv d st' (ord ++ [u]) →
  (∀ v, v ∈ ord → vget st'.1.2 v = vget st.1.2 v) →
  (∃ w, mget d (parent_of st'.1.2 u) u = Some w ∧ parent_of st'.1.2 u ∈ ord
     ∧ ∀ x y dxy, x ∈ ord → 0 ≤ y < n → y ∉ ord → mget d x y = Some dxy →
         exact w ≤ exact dxy) →
  ∃ R', prim_exch st' (ord ++ [u]) R'.
Proof.
  intros Inv Hne [Hlen Hrange Hconn Htree Hweight] Hu Hur Inv' Hsame (w & Hw & Hp & Hmin).
  set (p := parent_of st'.1.2 u) in *.
  set (F := order_edges st.1.2 ord) in *.
  assert (order_edges st'.1.2 (ord ++ [u]) = F ++ [(u, p)]) as HF'.
  { rewrite order_edges_snoc by done. by rewrite (order_edges_ext st.1.2 st'.1.2 ord Hsame). }
  assert (0 ∈ ord) as H0.
  { destruct ord as [|o ord']; [done|]. rewrite (pi_first _ _ _ Inv o ord' eq_refl). by left. }
  destruct (exchange (λ v, v ∈ ord) F R p u) as (x & y & R1 & R2 & Hx & Hy & HR & Hnew).
  - intros a b [v [[= -> ->] Hv]]%list_elem_of_fmap.
    destruct ord as [|o ord']; [done|]. simpl in Hv.
    apply list_elem_of_split in Hv as (A & B & ->).
    destruct (pi_par _ _ _ Inv (o :: A) v B eq_refl ltac:(done)) as (q & Hq & HqA).
    split; [set_solver|]. unfold parent_of. rewrite Hq. simpl. set_solver.
  - done.
  - done.
  - done.
  - done.
  - apply Hconn. done.
  - exists (R1 ++ R2). constructor.
    + assert (length R = Datatypes.S (length (R1 ++ R2))) as E.
      { destruct HR as [-> | ->]; rewrite !length_app; simpl; lia. }
      rewrite length_app. simpl. lia.
    + intros a b Hab. apply Hrange. destruct HR as [-> | ->]; set_solver.
    + intros v Hv. rewrite HF'. apply Hnew, Hconn, Hv.
    + rewrite HF'. intros v [Hv| ->%list_elem_of_singleton]%elem_of_app.
      * eapply reachE_mono; [|apply Htree, Hv]. intros a b Hab.
        by apply reachE_edge, adjE_app_l.
      * eapply reachE_step.
        -- eapply reachE_mono; [|apply Htree, Hp]. intros a b Hab.
           by apply reachE_edge, adjE_app_l.
        -- right. set_solver.
    + rewrite HF', !weight_app. simpl.
      assert (edge_weight d (u, p) = exact w) as ->.
      { rewrite (edge_weight_sym d u p Hsym). unfold edge_weight. simpl. by rewrite Hw. }
      simpl in Hx, Hy.
      assert (0 ≤ x < n) as Hxr by (eapply prim_inv_range; [exact Inv|exact Hx]).
      assert (0 ≤ y < n) as Hyr.
      { destruct HR as [-> | ->]; [apply (Hrange x y)|apply (Hrange y x)]; set_solver. }
      destruct (mget_square d x y Hsq Hxr Hyr) as [dxy Hdxy].
      assert (weight d R = weight d (R1 ++ R2) + exact dxy) as HwR.
      { destruct HR as [-> | ->]; rewrite !weight_app; simpl;
          [|rewrite (edge_weight_sym d y x Hsym)]; unfold edge_weight; simpl;
          rewrite Hdxy; lia. }
      specialize (Hmin x y dxy Hx Hyr Hy Hdxy). rewrite weight_app in *. lia.
Qed.

(** The main loop with the exchange invariant. *)
Lemma prim_run_exch :
  1 ≤ n →
  ∃ st ord R, for_range 0 n (prim_iter d n) (prim_init d) = Some st
    ∧ Z.of_nat (length ord) = n ∧ prim_inv d st ord ∧ prim_exch st ord R.
Proof.
  intros Hn.
  destruct (for_range_inv
    (λ i st, ∃ ord, Z.of_nat (length ord) = i ∧ prim_inv d st ord ∧ prim_fin d st ord
                    ∧ (ord ≠ [] → ∃ R, prim_exch st ord R))
    0 n (prim_iter d n) (prim_init d)) as (st & Hrun & ord & Hlen & Inv & Fin & Hex); [lia| | |].
  - exists []. split; [done|]. split; [by apply prim_init_inv|]. split; [apply prim_fin_init|done].
  - intros j st Hj (ord & Hlen & Inv & Fin & Hex).
    destruct (prim_step_fin d Hsq Hfin j st ord Inv Fin ltac:(fold n; lia))
      as (st' & u & Hrun & Hu & Hur & Inv' & Fin' & Hsame & Hedge).
    exists st'. split; [done|]. exists (ord ++ [u]). rewrite length_app. simpl.
    split; [lia|]. split; [done|]. split; [done|]. intros _.
    destruct (decide (ord = [])) as [->|Hne].
    + rewrite (pi_first _ _ _ Inv' u [] eq_refl). exists T. by apply prim_exch_init.
    + destruct (Hex Hne) as [R HR].
      apply (prim_exch_step st ord R st' u); try done. by apply Hedge.
  - destruct Hex as [R HR]; [intros ->; simpl in Hlen; lia|]. by exists st, ord, R.
Qed.

Lemma prim_minimum parent :
  primMST d = Some parent → weight d (tree_edges parent) ≤ weight d T.
Proof.
  intros Hprim. rewrite primMST_unfold in Hprim. fold n in Hprim.
  case_decide as Hn; [|done].
  destruct (prim_run_exch Hn) as (st & ord & R & Hrun & Hlen & Inv & [HlenR _ _ _ Hw]).
  rewrite Hrun in Hprim. injection Hprim as <-.
  assert (R = []) as -> by (destruct R; [done|simpl in HlenR; lia]).
  simpl in Hw. rewrite Z.add_0_r in Hw.
  pose proof (prim_inv_tree d _ _ Hn Inv Hlen) as Htree.
  assert (tail ord ≡ₚ seqZ 1 (n - 1)) as Hperm.
  { assert (ord ≡ₚ seqZ 0 n) as Hp.
    { apply NoDup_Permutation; [apply (pt_nodup _ _ _ Htree)|apply NoDup_seqZ|].
      intros v. rewrite (pt_all _ _ _ Htree), elem_of_seqZ. fold n. lia. }
    pose proof (pt_head _ _ _ Htree) as Hh. destruct ord as [|o ord']; [done|].
    injection Hh as ->. rewrite (seqZ_cons 0 n) in Hp by lia.
    apply Permutation_cons_inv in Hp. simpl.
    by replace (Z.pred n) with (n - 1) in Hp by lia. }
  etrans; [|exact Hw]. apply Z.eq_le_incl, weight_Permutation.
  unfold tree_edges, order_edges. rewrite (pt_size _ _ _ Htree). fold n.
  by rewrite Hperm.
Qed.
End prim_minimum.

(** C2, with the precondition the code needs: on a square matrix of
    finite doubles with [n >= 1] rows, [primMST] returns a parent vector
    with [parent[0] = -1] whose [n - 1] edges [(v, parent[v])],
    [v = 1 .. n-1], join every vertex to vertex 0 and contain no cycle;
    when the matrix is symmetric their exact total weight is at most that
    of every spanning tree of the complete graph on the [n] vertices. *)
Theorem prim_minimum_spanning_tree d :
  square d → finite_matrix d → 1 ≤ vsize d →
  ∃ parent,
    primMST d = Some parent
    ∧ vsize parent = vsize d
    ∧ vget parent 0 = Some (-1)
    ∧ Z.of_nat (length (tree_edges parent)) = vsize d - 1
    ∧ (∀ v, 1 ≤ v < vsize d →
         vget parent v = Some (parent_of parent v) ∧ 0 ≤ parent_of parent v < vsize d)
    ∧ (∀ v, 0 ≤ v < vsize d → reachE (tree_edges parent) 0 v)
    ∧ acyclic (tree_edges parent)
    ∧ (symmetric_matrix d →
       ∀ T, spanning_tree (vsize d) T → weight d (tree_edges parent) ≤ weight d T).
Proof.
  intros Hsq Hfin Hn.
  destruct (primMST_total d Hsq Hfin Hn) as [parent Hprim].
  destruct (primMST_tree d Hsq parent Hprim) as [ord Htree].
  exists parent. split; [done|]. split; [apply (pt_size _ _ _ Htree)|].
  split; [apply (pt_root _ _ _ Htree)|]. split; [by apply length_tree_edges|].
  split; [|split; [|split]].
  - intros v Hv.
    destruct (tree_positions d parent ord Htree v ltac:(lia)) as (A & B & E).
    assert (A ≠ []) as HA.
    { intros ->. pose proof (pt_head _ _ _ Htree) as Hh. rewrite E in Hh.
      injection Hh as ->. lia. }
    destruct (pt_par _ _ _ Htree A v B E HA) as (p & Hp & HpA).
    unfold parent_of. rewrite Hp. simpl. split; [done|].
    apply (pt_all _ _ _ Htree). rewrite E. set_solver.
  - by apply (tree_connected d parent ord Htree).
  - by apply (tree_acyclic d parent ord Htree).
  - intros Hsym T HT. by apply prim_minimum.
Qed.

Definition symmetric_matrixb (d : matrix) : bool :=
  forallb (λ a, forallb (λ b,
    match mget d a b, mget d b a with
    | Some x, Some y => PrimFloat.Leibniz.eqb x y
    | None, None => true
    | _, _ => false
    end) (seqZ 0 (vsize d))) (seqZ 0 (vsize d)).

Lemma mget_out_l d a b : ¬ (0 ≤ a < vsize d) → mget d a b = None.
Proof. intros H%vget_None. unfold mget. by rewrite H. Qed.

Lemma mget_out_r d a b : square d → ¬ (0 ≤ b < vsize d) → mget d a b = None.
Proof.
  intros Hsq H. unfold mget. destruct (vget d a) as [row|] eqn:E; [|done]. simpl.
  apply vget_None. by rewrite (Hsq row (vget_elem_of _ _ _ E)).
Qed.

Lemma symmetric_matrixb_spec d :
  square d → symmetric_matrixb d = true → symmetric_matrix d.
Proof.
  intros Hsq H a b. unfold symmetric_matrixb in H. rewrite forallb_forall in H.
  destruct (decide (0 ≤ a < vsize d)) as [Ha|Ha];
    [|by rewrite (mget_out_l d a b Ha), (mget_out_r d b a Hsq Ha)].
  destruct (decide (0 ≤ b < vsize d)) as [Hb|Hb];
    [|by rewrite (mget_out_l d b a Hb), (mget_out_r d a b Hsq Hb)].
  specialize (H a). rewrite forallb_forall in H.
  specialize (H ltac:(apply list_elem_of_In, elem_of_seqZ; lia) b
                ltac:(apply list_elem_of_In, elem_of_seqZ; lia)).
  destruct (mget d a b) as [x|], (mget d b a) as [y|]; try done.
  by apply FloatAxioms.Leibniz.eqb_spec in H as ->.
Qed.

Lemma prim_minimum_spanning_tree_witness :
  ∃ parent,
    primMST unit_square_matrix = Some parent
    ∧ weight unit_square_matrix (tree_edges parent)
      ≤ weight unit_square_matrix [(0, 1); (1, 2); (2, 3)].
Proof.
  assert (square unit_square_matrix) as Hsq by (apply squareb_spec; vm_compute; reflexivity).
  destruct (prim_minimum_spanning_tree unit_square_matrix Hsq)
    as (parent & Hprim & _ & _ & _ & _ & _ & _ & Hmin).
  - apply finite_matrixb_spec. vm_compute. reflexivity.
  - vm_compute. discriminate.
  - exists parent. split; [exact Hprim|]. apply Hmin.
    + apply symmetric_matrixb_spec; [exact Hsq|]. vm_compute. reflexivity.
    + split; [reflexivity|]. split.
      * intros a b Hab. change (vsize unit_square_matrix) with 4.
        repeat (apply elem_of_cons in Hab as [[= -> ->]|Hab]; [lia|]).
        by apply elem_of_nil in Hab.
      * change (vsize unit_square_matrix) with 4. intros v Hv.
        assert (v = 0 ∨ v = 1 ∨ v = 2 ∨ v = 3) as [-> | [-> | [-> | ->]]] by lia.
        -- apply reachE_refl.
        -- apply reachE_edge. left. set_solver.
        -- apply (reachE_step _ _ 1); [apply reachE_edge|]; left; set_solver.
        -- apply (reachE_step _ _ 2);
             [apply (reachE_step _ _ 1); [apply reachE_edge|]|]; left; set_solver.
Defined.

(** The matrix of two points [2^600] apart holds [+inf]: no key is below
    the initial [best], the scan of the second iteration leaves [u = -1],
    and [inMST[-1]] is accessed. *)
Lemma prim_far_apart_undefined :
  buildDistanceMatrix far_apart = Some [[0; infinity]; [infinity; 0]]%float
  ∧ 2 ≤ vsize [[0; infinity]; [infinity; 0]]%float
  ∧ primMST [[0; infinity]; [infinity; 0]]%float = None.
Proof. split; [|split]; vm_compute; try reflexivity. discriminate. Qed.

(** ** Lengths in exact arithmetic *)

(** [tourLength] with the sum of the entries taken exactly, in units of
    [2^-1074]. *)
Definition exactLength (tour : list Z) (d : matrix) : option Z :=
  for_range 0 (vsize tour - 1) (λ i len,
    a ← vget tour i; b ← vget tour (i + 1);
    w ← mget d a b;
    Some (len + exact w)) 0.

Lemma find_pos_Some x v i : find_pos x v = Some i → v !! i = Some x.
Proof.
  revert i. induction v as [|y v IH]; intros i; simpl; [done|].
  case_decide as E; [intros [= <-]; by subst|].
  destruct (find_pos x v) as [j|]; simpl; [|done]. intros [= <-]. by apply IH.
Qed.

Lemma find_pos_None x v : find_pos x v = None → x ∉ v.
Proof.
  induction v as [|y v IH]; simpl; [intros _; apply not_elem_of_nil|].
  case_decide as E; [done|]. destruct (find_pos x v); simpl; [done|].
  intros _. apply not_elem_of_cons. split; [congruence|by apply IH].
Qed.

Lemma rotate_to_zero_Permutation L : rotate_to_zero L ≡ₚ L.
Proof.
  unfold rotate_to_zero. destruct (find_pos 0 L) as [[|i]|]; [done| |done].
  by rewrite Permutation_app_comm, take_drop.
Qed.

Section lengths.
Variable d : matrix.
Let n := vsize d.

(** The exact value of [d[a][b]]. *)
Definition dexact (a b : Z) : Z := edge_weight d (a, b).

(** The exact sum of the entries along a walk. *)
Fixpoint walk_length (walk : list Z) : Z :=
  match walk with
  | [] => 0
  | a :: rest =>
      match rest with
      | [] => 0
      | b :: _ => dexact a b + walk_length rest
      end
  end.

Definition triangle : Prop :=
  ∀ a b c, 0 ≤ a < n → 0 ≤ b < n → 0 ≤ c < n → dexact a c ≤ dexact a b + dexact b c.

Definition zero_diagonal : Prop := ∀ a, 0 ≤ a < n → dexact a a = 0.

Lemma walk_length_cons2 a b l :
  walk_length (a :: b :: l) = dexact a b + walk_length (b :: l).
Proof. reflexivity. Qed.

Lemma walk_length_app A x B :
  walk_length (A ++ x :: B) = walk_length (A ++ [x]) + walk_length (x :: B).
Proof.
  induction A as [|a A IH].
  { cbn [app]. change (walk_length [x]) with 0. lia. }
  destruct A as [|a' A].
  - cbn [app]. rewrite !walk_length_cons2. change (walk_length [x]) with 0. lia.
  - cbn [app] in *.
    rewrite (walk_length_cons2 a a' (A ++ x :: B)), (walk_length_cons2 a a' (A ++ [x])).
    rewrite IH. lia.
Qed.

Lemma dexact_mget a b w : mget d a b = Some w → dexact a b = exact w.
Proof. intros H. unfold dexact, edge_weight. simpl. by rewrite H. Qed.

(** The loop of [exactLength] computes the sum along the walk. *)
Lemma exactLength_spec tour :
  square d → (∀ v, v ∈ tour → 0 ≤ v < n) → exactLength tour d = Some (walk_length tour).
Proof.
  intros Hsq Hr. destruct tour as [|t0 tour']; [done|].
  remember (t0 :: tour') as tour eqn:Htour.
  assert (1 ≤ vsize tour) as Hsz by (subst; unfold vsize; simpl; lia).
  unfold exactLength.
  match goal with |- for_range _ _ ?body _ = _ =>
    destruct (for_range_inv (λ i len, len = walk_length (take (Datatypes.S (Z.to_nat i)) tour))
                0 (vsize tour - 1) body 0) as (len & Hrun & Hlen)
  end.
  - lia.
  - by subst.
  - intros i len Hi ->.
    destruct (vget_in_range tour i ltac:(lia)) as [a Ha].
    destruct (vget_in_range tour (i + 1) ltac:(lia)) as [b Hb].
    destruct (mget_square d a b Hsq) as [w Hw].
    { apply Hr. by eapply vget_elem_of. }
    { apply Hr. by eapply vget_elem_of. }
    rewrite Ha, Hb. simpl. rewrite Hw. simpl. eexists. split; [done|].
    apply vget_Some in Ha as [_ Ha]. apply vget_Some in Hb as [_ Hb].
    replace (Z.to_nat (i + 1)) with (Datatypes.S (Z.to_nat i)) in * by lia.
    rewrite (take_S_r tour (Datatypes.S (Z.to_nat i)) b Hb), (take_S_r tour (Z.to_nat i) a Ha).
    rewrite <- app_assoc. cbn [app].
    rewrite (walk_length_app (take (Z.to_nat i) tour) a [b]), walk_length_cons2.
    rewrite (dexact_mget a b w Hw). change (walk_length [b]) with 0. lia.
  - rewrite Hrun, Hlen. rewrite take_ge; [done|]. unfold vsize in *. lia.
Qed.

(** Keeping first occurrences only, and closing at the end [e] of the
    walk, does not lengthen it. *)
Lemma first_occ_shorter l :
  triangle → zero_diagonal →
  ∀ seen z e, 0 ≤ z < n → (∀ v, v ∈ l → 0 ≤ v < n) → last (z :: l) = Some e →
    walk_length (z :: first_occ seen l ++ [e]) ≤ walk_length (z :: l).
Proof.
  intros Htri Hdiag. induction l as [|c l IH]; intros seen z e Hz Hr Hlast.
  { injection Hlast as <-. cbn [first_occ app]. rewrite walk_length_cons2.
    rewrite (Hdiag z Hz). change (walk_length [z]) with 0. lia. }
  assert (0 ≤ c < n) as Hc by (apply Hr; by left).
  assert (∀ v, v ∈ l → 0 ≤ v < n) as Hr' by (intros v Hv; apply Hr; by right).
  change (last (z :: c :: l)) with (last (c :: l)) in Hlast.
  cbn [first_occ]. case_decide as Hseen.
  - destruct l as [|c' l].
    + injection Hlast as <-. cbn [first_occ app]. lia.
    + assert (0 ≤ c' < n) as Hc' by (apply Hr'; by left).
      specialize (IH seen z e Hz Hr' Hlast).
      rewrite (walk_length_cons2 z c' l) in IH.
      rewrite (walk_length_cons2 z c (c' :: l)), (walk_length_cons2 c c' l).
      pose proof (Htri z c c' Hz Hc Hc'). lia.
  - cbn [app]. rewrite (walk_length_cons2 z c (first_occ (c :: seen) l ++ [e])).
    rewrite (walk_length_cons2 z c l).
    specialize (IH (c :: seen) c e Hc Hr' Hlast). lia.
Qed.

(** The length of a cycle does not depend on where it is cut. *)
Lemma cyclic_length L1 L2 s z :
  walk_length ((z :: L2) ++ (s :: L1) ++ [z]) = walk_length (((s :: L1) ++ z :: L2) ++ [s]).
Proof.
  pose proof (walk_length_app (z :: L2) s (L1 ++ [z])) as H1.
  pose proof (walk_length_app (s :: L1) z (L2 ++ [s])) as H2.
  rewrite <- app_assoc. cbn [app] in *. lia.
Qed.

(** Rotating to vertex 0 and closing there gives the length of the cycle
    closed at its first vertex. *)
Lemma rotate_length L s :
  head L = Some s → 0 ∈ L →
  walk_length (rotate_to_zero L ++ [0]) = walk_length (L ++ [s]).
Proof.
  intros Hh H0. unfold rotate_to_zero.
  destruct (find_pos 0 L) as [[|i]|] eqn:E.
  - apply find_pos_Some in E. destruct L as [|x L]; [done|].
    simpl in Hh, E. congruence.
  - apply find_pos_Some in E.
    pose proof (take_drop (Datatypes.S i) L) as HL.
    rewrite (drop_S L 0 (Datatypes.S i) E) in *.
    destruct L as [|x L]; [done|]. injection Hh as ->.
    change (take (Datatypes.S i) (s :: L)) with (s :: take i L) in *.
    set (D := drop (Datatypes.S (Datatypes.S i)) (s :: L)) in *. rewrite <- HL.
    rewrite <- (app_assoc (0 :: D) (s :: take i L) [0]).
    apply (cyclic_length (take i L) D s 0).
  - by apply find_pos_None in E.
Qed.

Lemma shortcut_length euler s :
  square d → triangle → zero_diagonal →
  (∀ v, v ∈ euler → 0 ≤ v < n) → head euler = Some s → last euler = Some s → 0 ∈ euler →
  let tour := push_back (rotate_to_zero (first_occ [] euler)) 0 in
  shortcut (length d) euler = Some tour
  ∧ exactLength tour d = Some (walk_length tour)
  ∧ exactLength euler d = Some (walk_length euler)
  ∧ walk_length tour ≤ walk_length euler
  ∧ exactLength (push_back (first_occ [] euler) s) d = Some (walk_length tour).
Proof.
  intros Hsq Htri Hdiag Hr Hh Hl H0 tour.
  assert (head (first_occ [] euler) = Some s) as Hh'.
  { destruct euler as [|x l]; [done|]. injection Hh as ->. done. }
  assert (0 ∈ first_occ [] euler) as H0'.
  { apply elem_of_first_occ. split; [done|apply not_elem_of_nil]. }
  assert (walk_length tour = walk_length (first_occ [] euler ++ [s])) as Hrot.
  { by apply rotate_length. }
  assert (0 ≤ s < n) as Hs.
  { apply Hr. destruct euler; [done|]. injection Hh as ->. by left. }
  split; [apply shortcut_spec; intros v Hv; specialize (Hr v Hv); unfold n, vsize in Hr; lia|].
  split; [|split; [|split]].
  - apply exactLength_spec; [done|]. intros v. unfold tour, push_back.
    rewrite elem_of_app, rotate_to_zero_Permutation, elem_of_first_occ, list_elem_of_singleton.
    intros [[Hv _]| ->]; by apply Hr.
  - by apply exactLength_spec.
  - rewrite Hrot. destruct euler as [|x l]; [done|]. injection Hh as ->.
    cbn [first_occ]. rewrite decide_False by apply not_elem_of_nil.
    apply (first_occ_shorter l Htri Hdiag [s] s s Hs); [|done].
    intros v Hv. apply Hr. by right.
  - rewrite Hrot. apply exactLength_spec; [done|]. intros v. unfold push_back.
    rewrite elem_of_app, elem_of_first_occ, list_elem_of_singleton.
    intros [[Hv _]| ->]; [by apply Hr|done].
Qed.
End lengths.

Definition triangleb (d : matrix) : bool :=
  forallb (λ a, forallb (λ b, forallb (λ c,
    dexact d a c <=? dexact d a b + dexact d b c)
    (seqZ 0 (vsize d))) (seqZ 0 (vsize d))) (seqZ 0 (vsize d)).

Definition zero_diagonalb (d : matrix) : bool :=
  forallb (λ a, dexact d a a =? 0) (seqZ 0 (vsize d)).

Lemma triangleb_spec d : triangleb d = true → triangle d.
Proof.
  unfold triangleb. intros H a b c Ha Hb Hc.
  rewrite forallb_forall in H.
  specialize (H a ltac:(apply list_elem_of_In, elem_of_seqZ; lia)).
  rewrite forallb_forall in H.
  specialize (H b ltac:(apply list_elem_of_In, elem_of_seqZ; lia)).
  rewrite forallb_forall in H.
  specialize (H c ltac:(apply list_elem_of_In, elem_of_seqZ; lia)).
  by apply Z.leb_le.
Qed.

Lemma zero_diagonalb_spec d : zero_diagonalb d = true → zero_diagonal d.
Proof.
  unfold zero_diagonalb. intros H a Ha. rewrite forallb_forall in H.
  specialize (H a ltac:(apply list_elem_of_In, elem_of_seqZ; lia)).
  by apply Z.eqb_eq.
Qed.

(** C5, in exact arithmetic: over a square matrix of finite doubles with
    zero diagonal whose entries satisfy the triangle inequality, for every
    closed walk through vertex 0 the tour obtained by keeping first
    occurrences, rotating to vertex 0 and appending 0 has an exact sum of
    entries at most that of the walk; the rotation does not change it: the
    unrotated list of first occurrences, closed at its first vertex, has
    the same sum. *)
Theorem shortcut_not_longer d euler :
  square d → finite_matrix d → zero_diagonal d → triangle d →
  (∀ v, v ∈ euler → 0 ≤ v < vsize d) →
  head euler = last euler → 0 ∈ euler →
  ∃ tour lt le,
    shortcut (length d) euler = Some tour
    ∧ tour = push_back (rotate_to_zero (first_occ [] euler)) 0
    ∧ exactLength tour d = Some lt
    ∧ exactLength euler d = Some le
    ∧ lt ≤ le
    ∧ exactLength (push_back (first_occ [] euler) (default 0 (head euler))) d = Some lt.
Proof.
  intros Hsq _ Hdiag Htri Hr Hclosed H0.
  destruct (head euler) as [s|] eqn:Hh; [|by destruct euler; [apply elem_of_nil in H0|]].
  destruct (shortcut_length d euler s Hsq Htri Hdiag Hr Hh (eq_sym Hclosed) H0)
    as (Hcut & Ht & He & Hle & Hrot).
  eexists _, _, _. split; [exact Hcut|]. split; [done|]. split; [exact Ht|].
  split; [exact He|]. split; [exact Hle|]. exact Hrot.
Qed.

(** Four points, three of them on a line: the Eulerian walk of the
    pipeline is [0 1 3 2 1 0] and the tour [0 1 3 2 0]. *)
Definition skew : list Point := [mkPoint 5 1; mkPoint 3 3; mkPoint 1 5; mkPoint 4 5]%float.

Definition skew_matrix : matrix :=
  [[0; 0x1.6a09e667f3bcdp+1; 0x1.6a09e667f3bcdp+2; 0x1.07e0f66afed07p+2];
   [0x1.6a09e667f3bcdp+1; 0; 0x1.6a09e667f3bcdp+1; 0x1.1e3779b97f4a8p+1];
   [0x1.6a09e667f3bcdp+2; 0x1.6a09e667f3bcdp+1; 0; 3];
   [0x1.07e0f66afed07p+2; 0x1.1e3779b97f4a8p+1; 3; 0]]%float.

Lemma shortcut_not_longer_witness :
  ∃ tour lt le,
    shortcut 4 [0; 1; 3; 2; 1; 0] = Some tour
    ∧ tour = push_back (rotate_to_zero (first_occ [] [0; 1; 3; 2; 1; 0])) 0
    ∧ exactLength tour skew_matrix = Some lt
    ∧ exactLength [0; 1; 3; 2; 1; 0] skew_matrix = Some le
    ∧ lt ≤ le
    ∧ exactLength (push_back (first_occ [] [0; 1; 3; 2; 1; 0]) 0) skew_matrix = Some lt.
Proof.
  apply (shortcut_not_longer skew_matrix [0; 1; 3; 2; 1; 0]).
  - apply squareb_spec. vm_compute. reflexivity.
  - apply finite_matrixb_spec. vm_compute. reflexivity.
  - apply zero_diagonalb_spec. vm_compute. reflexivity.
  - apply triangleb_spec. vm_compute. reflexivity.
  - intros v Hv. change (vsize skew_matrix) with 4.
    repeat (apply elem_of_cons in Hv as [->|Hv]; [lia|]). by apply elem_of_nil in Hv.
  - reflexivity.
  - by left.
Defined.

(** In binary64 the two sums are rounded at different places: the entries
    of [skew_matrix] satisfy the triangle inequality exactly and the exact
    sums along the walk and along the tour are equal, but [tourLength] of
    the tour is one unit in the last place above [tourLength] of the
    walk, and above the exact sum along the walk. *)
Lemma shortcut_longer_in_floats :
  buildDistanceMatrix skew = Some skew_matrix
  ∧ finite_matrix skew_matrix ∧ zero_diagonal skew_matrix ∧ triangle skew_matrix
  ∧ primMST skew_matrix = Some [-1; 0; 1; 1]
  ∧ buildAdjFromParent [-1; 0; 1; 1] = Some [[1]; [0; 2; 3]; [1]; [1]]
  ∧ findOddDegreeVertices [[1]; [0; 2; 3]; [1]; [1]] = Some [0; 1; 2; 3]
  ∧ addGreedyPerfectMatching [0; 1; 2; 3] skew_matrix [[1]; [0; 2; 3]; [1]; [1]]
    = Some [[1; 1]; [0; 2; 3; 0]; [1; 3]; [1; 2]]
  ∧ eulerianTourHierholzer 0 [[1; 1]; [0; 2; 3; 0]; [1; 3]; [1; 2]]
    = Some [0; 1; 3; 2; 1; 0]
  ∧ christofidesTour skew_matrix = Some [0; 1; 3; 2; 0]
  ∧ tourLength [0; 1; 3; 2; 1; 0] skew_matrix = Some 0x1.b7154b3c56a03p+3%float
  ∧ tourLength [0; 1; 3; 2; 0] skew_matrix = Some 0x1.b7154b3c56a04p+3%float
  ∧ PrimFloat.ltb 0x1.b7154b3c56a03p+3 0x1.b7154b3c56a04p+3 = true
  ∧ exactLength [0; 1; 3; 2; 0] skew_matrix = exactLength [0; 1; 3; 2; 1; 0] skew_matrix
  ∧ default 0 (exactLength [0; 1; 3; 2; 1; 0] skew_matrix) < exact 0x1.b7154b3c56a04p+3.
Proof.
  split; [vm_compute; reflexivity|].
  split; [apply finite_matrixb_spec; vm_compute; reflexivity|].
  split; [apply zero_diagonalb_spec; vm_compute; reflexivity|].
  split; [apply triangleb_spec; vm_compute; reflexivity|].
  repeat split; vm_compute; reflexivity.
Qed.

(** ** The command line *)

(** C8, for the inputs the code does short-circuit: when the file yields
    fewer than two points, [main] calls no stage of the pipeline; with
    exactly one point it reports tour length 0 and returns 0, with no
    point it reports that the points could not be read and returns 1. *)
Theorem main_fewer_than_two fs prog filename rest ps :
  fs filename = Some ps → (length ps < 2)%nat →
  main fs (prog :: filename :: rest) =
    if decide (ps = [])
    then Some (1, [Cerr ("Error: could not read points from " ++ filename)%string])
    else Some (0, [Cout "Only 1 city. Tour length = 0"%string]).
Proof.
  intros Hfs Hlen. unfold main, loadPoints. rewrite Hfs.
  destruct ps as [|p [|q ps]]; [done|done|]. simpl in Hlen. lia.
Qed.

Lemma main_fewer_than_two_witness :
  main (λ _, Some [mkPoint 0 0]) ["christofides"; "one.txt"]%string
  = Some (0, [Cout "Only 1 city. Tour length = 0"%string]).
Proof.
  apply (main_fewer_than_two (λ _, Some [mkPoint 0 0]) "christofides" "one.txt" []
           [mkPoint 0 0] eq_refl).
  simpl. lia.
Defined.

(** A file that opens and holds no point is an error: exit code 1. *)
Lemma main_no_point_fails :
  main (λ _, Some []) ["christofides"; "empty.txt"]%string
  = Some (1, [Cerr "Error: could not read points from empty.txt"%string]).
Proof. reflexivity. Qed.

(** * Further properties of the program *)

(** ** Counted loops: extensionality and the last iteration *)

Section loops_more.
Context {S : Type}.
Implicit Types (body : Z → S → option S).

Lemma for_loop_ext k lo body body' s :
  (∀ i s, lo ≤ i < lo + Z.of_nat k → body i s = body' i s) →
  for_loop k lo body s = for_loop k lo body' s.
Proof.
  revert lo s. induction k as [|k IH]; intros lo s H; [done|].
  simpl. rewrite (H lo s) by lia. destruct (body' lo s) as [s1|]; [|done]. simpl.
  apply IH. intros i s2 ?. apply H. lia.
Qed.

Lemma for_range_ext lo hi body body' s :
  (∀ i s, lo ≤ i < hi → body i s = body' i s) →
  for_range lo hi body s = for_range lo hi body' s.
Proof. intros H. unfold for_range. apply for_loop_ext. intros i s1 ?. apply H. lia. Qed.

Lemma for_loop_snoc k lo body s :
  for_loop (Datatypes.S k) lo body s
  = s' ← for_loop k lo body s; body (lo + Z.of_nat k) s'.
Proof.
  revert lo s. induction k as [|k IH]; intros lo s.
  - simpl. rewrite Z.add_0_r. destruct (body lo s); reflexivity.
  - change (for_loop (Datatypes.S (Datatypes.S k)) lo body s)
      with (s1 ← body lo s; for_loop (Datatypes.S k) (lo + 1) body s1).
    change (for_loop (Datatypes.S k) lo body s)
      with (s1 ← body lo s; for_loop k (lo + 1) body s1).
    destruct (body lo s) as [s1|]; [|done].
    change (for_loop (Datatypes.S k) (lo + 1) body s1
            = s' ← for_loop k (lo + 1) body s1; body (lo + Z.of_nat (Datatypes.S k)) s').
    rewrite IH. by replace (lo + 1 + Z.of_nat k) with (lo + Z.of_nat (Datatypes.S k)) by lia.
Qed.

(** The last iteration of a loop can be split off. *)
Lemma for_range_snoc lo hi body s :
  lo ≤ hi → for_range lo (hi + 1) body s = s' ← for_range lo hi body s; body hi s'.
Proof.
  intros H. unfold for_range.
  replace (Z.to_nat (hi + 1 - lo)) with (Datatypes.S (Z.to_nat (hi - lo))) by lia.
  rewrite for_loop_snoc. by replace (lo + Z.of_nat (Z.to_nat (hi - lo))) with hi by lia.
Qed.

(** A loop whose body fails at some index fails. *)
Lemma for_range_fails lo hi body s i :
  lo ≤ i < hi → (∀ s, body i s = None) → for_range lo hi body s = None.
Proof.
  intros Hi Hfail. unfold for_range.
  remember (Z.to_nat (hi - lo)) as k eqn:Hk. revert lo s Hi Hk.
  induction k as [|k IH]; intros lo s Hi Hk; [lia|]. simpl.
  destruct (decide (i = lo)) as [->|Hne]; [by rewrite Hfail|].
  destruct (body lo s) as [s1|]; [|done]. simpl. apply IH; lia.
Qed.
End loops_more.

(** ** The distance matrix *)

Lemma mget_mset d i j x d' i' j' :
  mset d i j x = Some d' →
  mget d' i' j' = if decide (i' = i ∧ j' = j) then Some x else mget d i' j'.
Proof.
  unfold mset, mget. intros H.
  destruct (vget d i) as [row|] eqn:Hrow; [|done]. simpl in H.
  destruct (vset row j x) as [row'|] eqn:Hrow'; [|done]. simpl in H.
  rewrite (vget_vset _ _ i' _ _ H).
  destruct (decide (i = i')) as [<-|Hi].
  - simpl. rewrite (vget_vset _ _ j' _ _ Hrow'), Hrow. simpl.
    destruct (decide (j = j')) as [<-|Hj].
    + by rewrite decide_True.
    + rewrite decide_False; [done|]. intros [_ ?]. congruence.
  - rewrite decide_False; [done|]. intros [? _]. congruence.
Qed.

(** What the two nested loops of [buildDistanceMatrix] leave behind. *)
Lemma buildDistanceMatrix_spec pts :
  ∃ d, buildDistanceMatrix pts = Some d ∧ vsize d = vsize pts ∧ square d
    ∧ ∀ i j a b, vget pts i = Some a → vget pts j = Some b →
        mget d i j = Some (distEuclid a b).
Proof.
  unfold buildDistanceMatrix. cbv zeta. set (n := vsize pts).
  assert (0 ≤ n) as Hn by (unfold n, vsize; lia).
  set (done_row := λ (d : matrix) (i : Z), ∀ j a b,
         vget pts i = Some a → vget pts j = Some b → mget d i j = Some (distEuclid a b)).
  set (I := λ (i : Z) (d : matrix),
         vsize d = n ∧ square d ∧ ∀ i', 0 ≤ i' < i → done_row d i').
  match goal with |- ∃ d, for_range _ _ ?body ?d0 = _ ∧ _ =>
    destruct (for_range_inv I 0 n body d0) as (d & Hrun & Hd & Hsq & Hrows)
  end.
  - done.
  - split; [apply vsize_replicate|]. split; [|intros; lia].
    intros row [-> _]%elem_of_replicate. by rewrite !vsize_replicate.
  - intros i d Hi (Hd & Hsq & Hrows).
    destruct (vget_in_range pts i Hi) as [a Ha].
    set (J := λ (j : Z) (d1 : matrix),
           vsize d1 = n ∧ square d1 ∧ (∀ i', 0 ≤ i' < i → done_row d1 i')
           ∧ ∀ j' b, 0 ≤ j' < j → vget pts j' = Some b →
               mget d1 i j' = Some (distEuclid a b)).
    match goal with |- ∃ s', for_range _ _ ?body _ = Some s' ∧ _ =>
      destruct (for_range_inv J 0 n body d) as (d' & Hrun & Hd' & Hsq' & Hrows' & Hrow)
    end.
    + done.
    + split; [done|]. split; [done|]. split; [done|]. intros; lia.
    + intros j d1 Hj (Hd1 & Hsq1 & Hrows1 & Hrow1).
      destruct (vget_in_range pts j Hj) as [b Hb].
      rewrite Ha, Hb. simpl.
      destruct (mset_shape d1 i j (distEuclid a b) n Hd1 Hsq1 Hi Hj) as (d2 & Hset & ? & ?).
      exists d2. split; [done|]. split; [done|]. split; [done|]. split.
      * intros i' Hi' j' a' b' Ha' Hb'. rewrite (mget_mset _ _ _ _ _ i' j' Hset).
        rewrite decide_False by lia. by apply Hrows1.
      * intros j' b' Hj' Hb'. rewrite (mget_mset _ _ _ _ _ i j' Hset).
        case_decide as E; [|apply Hrow1; [lia|done]].
        destruct E as [_ ->]. congruence.
    + exists d'. split; [done|]. split; [done|]. split; [done|].
      intros i' Hi' j a' b Ha' Hb.
      destruct (decide (i' = i)) as [->|Hne]; [|apply Hrows'; [lia|done|done]].
      assert (a' = a) as -> by congruence.
      apply Hrow; [|done]. apply vget_range in Hb. done.
  - exists d. split; [done|]. split; [done|]. split; [done|].
    intros i j a b Ha Hb. apply (Hrows i); [|done|done]. by apply vget_range in Ha.
Qed.

(** X1: [buildDistanceMatrix] returns for every list of points (no index
    leaves the vectors); the result has one row per point, every row as
    long as the list, and entry [(i, j)] is [distEuclid(pts[i], pts[j])]. *)
Theorem buildDistanceMatrix_entries pts :
  ∃ d, buildDistanceMatrix pts = Some d
    ∧ vsize d = vsize pts
    ∧ (∀ row, row ∈ d → vsize row = vsize pts)
    ∧ ∀ i j a b, vget pts i = Some a → vget pts j = Some b →
        mget d i j = Some (distEuclid a b).
Proof.
  destruct (buildDistanceMatrix_spec pts) as (d & Hrun & Hd & Hsq & Hent).
  exists d. split; [done|]. split; [done|]. split; [|done].
  intros row Hrow. rewrite <- Hd. by apply Hsq.
Qed.

(** ** [distEuclid] in binary64 *)







Lemma sub_self x : finite x = true → (x - x)%float = 0%float.
Proof.
  intros H. apply Prim2SF_inj. rewrite sub_spec. unfold finite in H.
  destruct (Prim2SF x) as [s|s| |s m e]; try discriminate H.
  - by destruct s.
  - unfold SF64sub, SFsub. cbv zeta. by rewrite Z.sub_diag.
Qed.

Lemma distEuclid_self a :
  finite (px a) = true → finite (py a) = true → distEuclid a a = 0%float.
Proof. intros Hx Hy. unfold distEuclid. cbv zeta. by rewrite (sub_self _ Hx), (sub_self _ Hy). Qed.


(** X3: a point with finite coordinates is at distance [+0.0] from
    itself, so the diagonal entry of the distance matrix for such a point
    is [0.0]. *)
Theorem buildDistanceMatrix_diagonal pts d i a :
  buildDistanceMatrix pts = Some d → vget pts i = Some a →
  finite (px a) = true → finite (py a) = true →
  distEuclid a a = 0%float ∧ mget d i i = Some 0%float.
Proof.
  intros Hrun Ha Hx Hy. split; [by apply distEuclid_self|].
  destruct (buildDistanceMatrix_spec pts) as (d' & Hrun' & _ & _ & Hent).
  assert (d' = d) as -> by congruence.
  rewrite (Hent i i a a Ha Ha). by rewrite distEuclid_self.
Qed.

Lemma buildDistanceMatrix_diagonal_witness :
  distEuclid (mkPoint 1 1) (mkPoint 1 1) = 0%float ∧ mget unit_square_matrix 2 2 = Some 0%float.
Proof.
  apply (buildDistanceMatrix_diagonal unit_square unit_square_matrix 2 (mkPoint 1 1));
    reflexivity.
Defined.

(** ** [tourLength] *)

Lemma vget_app_l {A} (v w : list A) i : 0 ≤ i < vsize v → vget (v ++ w) i = vget v i.
Proof.
  unfold vget, vsize. intros H. case_decide; [|done]. apply lookup_app_l. lia.
Qed.

Lemma vget_app_r {A} (v w : list A) i : vsize v ≤ i → vget (v ++ w) i = vget w (i - vsize v).
Proof.
  unfold vget, vsize. intros H. rewrite decide_True by lia. rewrite decide_True by lia.
  rewrite lookup_app_r by lia. f_equal. lia.
Qed.

(** One more vertex adds one more entry, after the others. *)
Lemma tourLength_snoc tour a b d :
  tourLength (tour ++ [a; b]) d
  = len ← tourLength (tour ++ [a]) d; w ← mget d a b; Some (len + w)%float.
Proof.
  unfold tourLength.
  replace (vsize (tour ++ [a; b]) - 1) with (vsize tour + 1)
    by (unfold vsize; rewrite length_app; simpl; lia).
  replace (vsize (tour ++ [a]) - 1) with (vsize tour)
    by (unfold vsize; rewrite length_app; simpl; lia).
  rewrite for_range_snoc by (unfold vsize; lia).
  assert (tour ++ [a; b] = (tour ++ [a]) ++ [b]) as E by (by rewrite <- app_assoc).
  match goal with |- (_ ← for_range _ _ ?body2 _; _) = (_ ← for_range _ _ ?body1 _; _) =>
    rewrite (for_range_ext 0 (vsize tour) body2 body1)
  end.
  - destruct (for_range 0 (vsize tour) _ _) as [len|]; [|done]. simpl.
    rewrite (vget_app_r tour [a; b] (vsize tour)) by lia.
    rewrite (vget_app_r tour [a; b] (vsize tour + 1)) by lia.
    replace (vsize tour - vsize tour) with 0 by lia.
    replace (vsize tour + 1 - vsize tour) with 1 by lia. done.
  - intros i len Hi. cbv beta.
    assert (vsize (tour ++ [a]) = vsize tour + 1) as Hsz
      by (unfold vsize; rewrite length_app; simpl; lia).
    rewrite E, (vget_app_l (tour ++ [a]) [b] i), (vget_app_l (tour ++ [a]) [b] (i + 1)) by lia.
    done.
Qed.

Lemma mget_defined d a b :
  square d → is_Some (mget d a b) ↔ 0 ≤ a < vsize d ∧ 0 ≤ b < vsize d.
Proof.
  intros Hsq. split.
  - intros [x Hx].
    destruct (decide (0 ≤ a < vsize d)) as [Ha|Ha]; [|by rewrite mget_out_l in Hx].
    destruct (decide (0 ≤ b < vsize d)) as [Hb|Hb]; [done|by rewrite mget_out_r in Hx].
  - intros [Ha Hb]. by apply mget_square.
Qed.

(** X4: [tourLength] is [0.0] for a tour of fewer than two entries,
    whatever the entry is, and extending a tour that ends in [a] by [b]
    adds [d[a][b]] to the length of the tour so far (the entries are added
    from left to right). *)
Theorem tourLength_accumulates d :
  tourLength [] d = Some 0%float
  ∧ (∀ v, tourLength [v] d = Some 0%float)
  ∧ ∀ tour a b,
      tourLength (tour ++ [a; b]) d
      = len ← tourLength (tour ++ [a]) d; w ← mget d a b; Some (len + w)%float.
Proof. split; [done|]. split; [done|]. intros. apply tourLength_snoc. Qed.

Lemma tourLength_is_Some d tour :
  square d → (2 ≤ length tour)%nat →
  is_Some (tourLength tour d) ↔ ∀ v, v ∈ tour → 0 ≤ v < vsize d.
Proof.
  intros Hsq. induction tour as [|b l IH] using rev_ind; [simpl; lia|].
  destruct l as [|a l _] using rev_ind.
  { simpl. lia. }
  intros _. rewrite <- app_assoc. cbn [app]. rewrite tourLength_snoc.
  destruct (decide (l = [])) as [->|Hne].
  - cbn [app]. change (tourLength [a] d) with (Some 0%float). simpl.
    pose proof (mget_defined d a b Hsq) as Hm. split.
    + intros Hs. assert (is_Some (mget d a b)) as Hab.
      { destruct (mget d a b); [by eexists|]. by destruct Hs. }
      apply Hm in Hab. intros v [->|[->|?%elem_of_nil]%elem_of_cons]%elem_of_cons; tauto.
    + intros Hr. destruct (proj2 Hm) as [w Hw]; [split; apply Hr; set_solver|].
      rewrite Hw. by eexists.
  - assert (2 ≤ length (l ++ [a]))%nat as Hlen.
    { rewrite length_app. simpl. destruct l; [done|simpl; lia]. }
    specialize (IH Hlen). pose proof (mget_defined d a b Hsq) as Hm. split.
    + intros Hs. destruct (tourLength (l ++ [a]) d) as [len|] eqn:El; [|by destruct Hs].
      simpl in Hs. assert (is_Some (mget d a b)) as Hab.
      { destruct (mget d a b); [by eexists|]. by destruct Hs. }
      apply Hm in Hab. intros v Hv.
      change (l ++ [a; b]) with (l ++ [a] ++ [b]) in Hv. rewrite app_assoc in Hv.
      apply elem_of_app in Hv as [Hv| ->%list_elem_of_singleton]; [|tauto].
      apply (proj1 IH); [by eexists|done].
    + intros Hr. destruct (proj2 IH) as [len Hlen'].
      { intros v Hv. apply Hr. set_solver. }
      destruct (proj2 Hm) as [w Hw]; [split; apply Hr; set_solver|].
      rewrite Hlen'. simpl. rewrite Hw. by eexists.
Qed.

(** X5: on a square matrix, [tourLength] of a tour of at least two
    entries stays inside the matrix exactly when every entry of the tour
    is a valid vertex index. *)
Theorem tourLength_defined d tour :
  square d → (2 ≤ length tour)%nat →
  is_Some (tourLength tour d) ↔ ∀ v, v ∈ tour → 0 ≤ v < vsize d.
Proof. apply tourLength_is_Some. Qed.

Lemma tourLength_defined_witness :
  is_Some (tourLength [0; 3; 2; 1; 0] unit_square_matrix)
  ↔ ∀ v, v ∈ [0; 3; 2; 1; 0] → 0 ≤ v < vsize unit_square_matrix.
Proof.
  apply (tourLength_defined unit_square_matrix [0; 3; 2; 1; 0]).
  - apply squareb_spec. vm_compute. reflexivity.
  - simpl. lia.
Defined.

(** ** The adjacency of the tree and its odd vertices *)

(** X6: [buildAdjFromParent] stays inside its vectors exactly when every
    [parent[v]] with [v >= 1] is a valid vertex index; [parent[0]] is not
    constrained. *)
Theorem buildAdjFromParent_defined parent :
  is_Some (buildAdjFromParent parent)
  ↔ ∀ v p, 1 ≤ v < vsize parent → vget parent v = Some p → 0 ≤ p < vsize parent.
Proof.
  split.
  - intros [adj Hadj] v p Hv Hp.
    destruct (buildAdj_represents parent adj Hadj) as (_ & _ & Hr).
    specialize (Hr v Hv). unfold parent_of in Hr. by rewrite Hp in Hr.
  - intros Hr. destruct (buildAdj_total parent Hr) as [adj Hadj]. by exists adj.
Qed.

(** X7: the adjacency that [buildAdjFromParent] returns has one list per
    vertex and stores every edge [(v, parent[v])], [v = 1 .. n-1], at both
    of its ends and nothing else: it lists [b] under [a] as often as the
    edge [{a, b}] occurs among the parent edges, so it is symmetric, the
    list of [a] is as long as the number of edge ends at [a], and there
    are twice as many entries as edges. *)
Theorem buildAdjFromParent_edges parent adj :
  buildAdjFromParent parent = Some adj →
  vsize adj = vsize parent
  ∧ (∀ a b, mult adj a b = multE (tree_edges parent) a b)
  ∧ (∀ a, deg adj a = degE (tree_edges parent) a)
  ∧ symmetric adj
  ∧ entries adj = (2 * length (tree_edges parent))%nat
  ∧ Z.of_nat (length (tree_edges parent)) = Z.max 0 (vsize parent - 1).
Proof.
  intros Hadj. destruct (buildAdj_represents parent adj Hadj) as (Hrep & Hsz & _).
  split; [done|]. split; [apply (rep_mult _ _ Hrep)|]. split; [apply (rep_deg _ _ Hrep)|].
  split; [by eapply represents_symmetric|]. split; [apply (rep_entries _ _ Hrep)|].
  unfold tree_edges. rewrite length_fmap, length_seqZ. lia.
Qed.

Lemma buildAdjFromParent_edges_witness :
  vsize [[1; 2]; [0]; [0]] = vsize [-1; 0; 0]
  ∧ (∀ a b, mult [[1; 2]; [0]; [0]] a b = multE (tree_edges [-1; 0; 0]) a b)
  ∧ (∀ a, deg [[1; 2]; [0]; [0]] a = degE (tree_edges [-1; 0; 0]) a)
  ∧ symmetric [[1; 2]; [0]; [0]]
  ∧ entries [[1; 2]; [0]; [0]] = (2 * length (tree_edges [-1; 0; 0]%Z))%nat
  ∧ Z.of_nat (length (tree_edges [-1; 0; 0])) = Z.max 0 (vsize [-1; 0; 0] - 1).
Proof. apply (buildAdjFromParent_edges [-1; 0; 0] [[1; 2]; [0]; [0]]). reflexivity. Defined.

(** X8: [buildAdjFromParent] never reads [parent[0]]: the result does not
    depend on the first entry of the parent vector. *)
Theorem buildAdjFromParent_ignores_root x y rest :
  buildAdjFromParent (x :: rest) = buildAdjFromParent (y :: rest).
Proof.
  unfold buildAdjFromParent. cbv zeta.
  change (vsize (x :: rest)) with (vsize (y :: rest)).
  change (length (x :: rest)) with (length (y :: rest)).
  apply for_range_ext. intros v adj Hv.
  assert (vget (x :: rest) v = vget (y :: rest) v) as ->; [|done].
  unfold vget. case_decide; [|done].
  replace (Z.to_nat v) with (Datatypes.S (Z.to_nat (v - 1))) by lia. done.
Qed.

Lemma StronglySorted_seqZ m n : StronglySorted Z.lt (seqZ m n).
Proof.
  destruct (decide (n ≤ 0)) as [Hn|Hn]; [rewrite seqZ_nil by done; constructor|].
  replace n with (Z.of_nat (Z.to_nat n)) by lia.
  induction (Z.to_nat n) as [|k IH]; [constructor|].
  rewrite seqZ_S. apply StronglySorted_app; split; [|split; [done|repeat constructor]].
  intros a b Ha%elem_of_seqZ ->%list_elem_of_singleton. lia.
Qed.

Lemma StronglySorted_filter {A} (R : relation A) (P : A → Prop) `{∀ x, Decision (P x)} l :
  StronglySorted R l → StronglySorted R (filter P l).
Proof.
  induction 1 as [|a l Hl IH Ha]; [constructor|].
  rewrite filter_cons. case_decide; [|done]. constructor; [done|].
  apply Forall_forall. intros y [_ Hy]%list_elem_of_filter.
  rewrite Forall_forall in Ha. by apply Ha.
Qed.

(** X9: [findOddDegreeVertices] returns for every adjacency, and its
    result lists, in increasing order and each once, exactly the indices
    whose neighbour list has odd size. *)
Theorem findOddDegreeVertices_spec adj :
  ∃ odd, findOddDegreeVertices adj = Some odd
    ∧ StronglySorted Z.lt odd
    ∧ NoDup odd
    ∧ ∀ v, v ∈ odd ↔ ∃ l, vget adj v = Some l ∧ vsize l mod 2 = 1.
Proof.
  exists (odd_vertices adj). split; [apply findOdd_spec|].
  split; [apply StronglySorted_filter, StronglySorted_seqZ|].
  split; [apply odd_vertices_NoDup|].
  intros v. rewrite elem_of_odd_vertices. unfold deg, nbrs. split.
  - intros [Hv Hodd]. destruct (vget_in_range adj v Hv) as [l Hl].
    exists l. rewrite Hl in Hodd. done.
  - intros (l & Hl & Hodd). split; [by eapply vget_range|]. by rewrite Hl.
Qed.

(** ** The greedy matching on an arbitrary list of vertices *)

(** X10: on any duplicate-free list [odd] of even length of vertices of
    the matrix and of the adjacency, lying at finite distances from one
    another, [addGreedyPerfectMatching] returns, keeps the number of
    vertices, and lengthens the neighbour list of every listed vertex by
    exactly one entry and that of no other vertex; the pairs it adds never
    join a vertex to itself. *)
Theorem greedy_matching_degrees d odd adj0 :
  square d → NoDup odd → Nat.Even (length odd) →
  (∀ o, o ∈ odd → 0 ≤ o < vsize d ∧ 0 ≤ o < vsize adj0) →
  (∀ a b x, a ∈ odd → b ∈ odd → mget d a b = Some x → finite x = true) →
  ∃ adj, addGreedyPerfectMatching odd d adj0 = Some adj
    ∧ vsize adj = vsize adj0
    ∧ (∀ v, deg adj v = (deg adj0 v + if decide (v ∈ odd) then 1 else 0)%nat)
    ∧ (∀ v, (mult adj0 v v = mult adj v v)%nat)
    ∧ entries adj = (entries adj0 + length odd)%nat.
Proof.
  intros Hsq Hnd Hev Hr Hfin.
  assert (∀ o, o ∈ odd → 0 ≤ o < vsize d) as Hor by (intros o Ho; by apply Hr).
  destruct (matching_total d odd Hsq Hor Hnd adj0 Hev Hfin) as [adj Hmatch].
  { intros o Ho. by apply Hr. }
  destruct (matching_partial d odd Hsq Hor Hnd adj0 adj Hmatch) as [M HM].
  pose proof (add_edges_extends _ _ _ (ma_edges _ _ _ _ HM)) as Hext.
  exists adj. split; [done|]. split; [apply (ext_size _ _ _ Hext)|]. split; [|split].
  - intros v. rewrite (ext_deg _ _ _ Hext), degE_endpoints.
    rewrite (proj1 (Permutation_count_occ Z.eq_dec (endpoints M) odd) (ma_perfect _ _ _ _ HM)).
    by rewrite (count_occ_NoDup _ _ Hnd).
  - intros v. rewrite (ext_mult _ _ _ Hext).
    destruct (decide (0 < multE M v v)%nat) as [Hpos|Hz]; [|lia].
    apply multE_pos in Hpos as [Hin|Hin]; by apply (ma_distinct _ _ _ _ HM) in Hin.
  - rewrite (ext_entries _ _ _ Hext). rewrite <- length_endpoints.
    by rewrite (Permutation_length (ma_perfect _ _ _ _ HM)).
Qed.

Lemma greedy_matching_degrees_witness :
  ∃ adj, addGreedyPerfectMatching [0; 3] unit_square_matrix [[]; []; []; []] = Some adj
    ∧ vsize adj = vsize [[]; []; []; [] : list Z]
    ∧ (∀ v, deg adj v = (deg [[]; []; []; []] v + if decide (v ∈ [0; 3]%Z) then 1 else 0)%nat)
    ∧ (∀ v, (mult [[]; []; []; []] v v = mult adj v v)%nat)
    ∧ entries adj = (entries [[]; []; []; [] : list Z] + length [0; 3]%Z)%nat.
Proof.
  apply (greedy_matching_degrees unit_square_matrix [0; 3] [[]; []; []; []]).
  - apply squareb_spec. vm_compute. reflexivity.
  - apply (bool_decide_eq_true_1 (NoDup [0; 3])). vm_compute. reflexivity.
  - exists 1%nat. reflexivity.
  - intros o Ho. change (vsize unit_square_matrix) with 4.
    change (vsize [[]; []; []; [] : list Z]) with 4.
    repeat (apply elem_of_cons in Ho as [->|Ho]; [lia|]). by apply elem_of_nil in Ho.
  - intros a b x _ _ Hx. revert a b x Hx. apply finite_matrixb_spec.
    vm_compute. reflexivity.
Defined.

(** X11: on a duplicate-free list of an odd number of vertices of the
    matrix the function never returns normally: some vertex is left
    without a partner, [bestj] stays [-1], and [used[-1]] is written. *)
Theorem greedy_matching_odd_length d odd adj0 :
  square d → NoDup odd → (∀ o, o ∈ odd → 0 ≤ o < vsize d) →
  Nat.Odd (length odd) →
  addGreedyPerfectMatching odd d adj0 = None.
Proof.
  intros Hsq Hnd Hor [c Hc].
  destruct (addGreedyPerfectMatching odd d adj0) as [adj|] eqn:Hmatch; [|done].
  destruct (matching_partial d odd Hsq Hor Hnd adj0 adj Hmatch) as [M HM].
  pose proof (Permutation_length (ma_perfect _ _ _ _ HM)) as Hlen.
  rewrite length_endpoints in Hlen. lia.
Qed.

Lemma greedy_matching_odd_length_witness :
  addGreedyPerfectMatching [0; 1; 2] unit_square_matrix [[]; []; []; []] = None.
Proof.
  apply (greedy_matching_odd_length unit_square_matrix [0; 1; 2] [[]; []; []; []]).
  - apply squareb_spec. vm_compute. reflexivity.
  - apply (bool_decide_eq_true_1 (NoDup [0; 1; 2])). vm_compute. reflexivity.
  - intros o Ho. change (vsize unit_square_matrix) with 4.
    repeat (apply elem_of_cons in Ho as [->|Ho]; [lia|]). by apply elem_of_nil in Ho.
  - exists 1%nat. reflexivity.
Defined.

(** ** Hierholzer's loop on an arbitrary adjacency *)

Lemma hierholzer_step_vsize st st' :
  hierholzer_step st = Some st' → vsize st'.1.1 = vsize st.1.1.
Proof.
  destruct st as [[adj stack] circuit]. unfold hierholzer_step.
  intros H. apply bind_Some in H as (u & Hu & H).
  apply bind_Some in H as (au & Hau & H).
  case_bool_decide as Hne.
  - apply bind_Some in H as (v & Hv & H).
    apply bind_Some in H as (adj1 & H1 & H).
    apply bind_Some in H as (nbrs & Hn & H).
    apply bind_Some in H as (adj2 & H2 & H).
    injection H as <-. simpl.
    by rewrite (vsize_vset _ _ _ _ H2), (vsize_vset _ _ _ _ H1).
  - by injection H as <-.
Qed.

(** An invariant carries over from the first state to the state the loop
    ends in. *)
Lemma hierholzer_loop_partial (P : euler_state → Prop) fuel st circuit :
  (∀ st st', P st → hierholzer_step st = Some st' → P st') →
  P st → hierholzer_loop fuel st = Returns circuit →
  ∃ adj, P (adj, [], circuit).
Proof.
  intros Hstep. revert st. induction fuel as [|fuel IH]; intros [[adj stack] c] HP Hrun.
  - destruct stack; [|done]. injection Hrun as <-. by exists adj.
  - destruct stack as [|x stack]; [injection Hrun as <-; by exists adj|].
    rewrite hierholzer_loop_unfold in Hrun.
    destruct (hierholzer_step (adj, x :: stack, c)) as [st'|] eqn:Hs; [|done].
    eapply IH; [|exact Hrun]. by eapply Hstep.
Qed.

(** The bottom of the stack is the start vertex until the stack is empty,
    and then the start vertex is the last vertex written to the circuit. *)
Definition bottom_inv (start : Z) (st : euler_state) : Prop :=
  match st.1.2 with
  | [] => last st.2 = Some start
  | s0 :: _ => s0 = start
  end.

Lemma bottom_inv_step start st st' :
  bottom_inv start st → hierholzer_step st = Some st' → bottom_inv start st'.
Proof.
  destruct st as [[adj stack] c], st' as [[adj' stack'] c']. unfold bottom_inv.
  intros Inv Hstep. destruct stack as [|s0 stack]; [done|].
  apply hierholzer_step_cases in Hstep as [(v & _ & Hs & _)|(u & _ & Hs & Hc)];
    simpl in *.
  - by subst stack'.
  - subst c'. destruct stack' as [|s1 stack']; simpl in Hs.
    + injection Hs as -> _. subst. apply last_snoc.
    + by injection Hs as -> _.
Qed.

(** Every vertex written to the circuit is a valid index, and the stack
    and the circuit together never hold more vertices than one plus the
    entries consumed. *)
Definition walk_inv (adj0 : adjacency) (st : euler_state) : Prop :=
  vsize st.1.1 = vsize adj0
  ∧ state_in_range st
  ∧ (∀ v, v ∈ st.2 → 0 ≤ v < vsize adj0)
  ∧ (length st.1.2 + length st.2 + entries st.1.1 ≤ 1 + entries adj0)%nat.

Lemma walk_inv_step adj0 st st' :
  walk_inv adj0 st → hierholzer_step st = Some st' → walk_inv adj0 st'.
Proof.
  intros (Hsz & Hr & Hc & Hcount) Hstep.
  pose proof (hierholzer_step_vsize _ _ Hstep) as Hsz'.
  assert (st.1.2 ≠ []) as Hne.
  { destruct st as [[adj stack] c]. simpl. intros ->. done. }
  destruct (hierholzer_step_in_range st Hr Hne) as (st2 & Hstep2 & Hr').
  assert (st2 = st') as -> by congruence.
  split; [congruence|]. split; [done|].
  apply hierholzer_step_cases in Hstep as [(v & He & Hs & Hcc)|(u & Ha & Hs & Hcc)].
  - rewrite Hs, Hcc. unfold push_back. rewrite length_app. simpl. split; [done|lia].
  - rewrite Hcc, Ha. rewrite Hs in Hcount. unfold push_back in *.
    rewrite length_app in *. simpl in *. split; [|lia].
    intros v [Hv| ->%list_elem_of_singleton]%elem_of_app; [by apply Hc|].
    rewrite <- Hsz. apply Hr. rewrite Hs. set_solver.
Qed.

Lemma head_rev {A} (l : list A) : head (rev l) = last l.
Proof.
  destruct l as [|x l _] using rev_ind; [done|].
  by rewrite rev_unit, last_snoc.
Qed.

(** The walk begins at the start vertex, whatever the adjacency. *)
Lemma hierholzer_head start adj walk :
  eulerianTourHierholzer start adj = Some walk → head walk = Some start.
Proof.
  unfold eulerianTourHierholzer.
  destruct (hierholzer_loop _ _) as [circuit| |] eqn:Hrun; [|done|done].
  intros [= <-]. rewrite head_rev.
  assert (bottom_inv start (adj, push_back [] start, [])) as H0 by done.
  destruct (hierholzer_loop_partial (bottom_inv start) _ _ _
              (bottom_inv_step start) H0 Hrun) as [adj' H].
  exact H.
Qed.

(** X12: on every adjacency whose stored neighbours and start vertex are
    valid indices (connected or not, degrees even or not),
    [eulerianTourHierholzer] returns a walk that begins at the start
    vertex, holds valid vertex indices only, and has at most one more
    vertex than the adjacency has entries. *)
Theorem hierholzer_walk_shape adj start :
  adj_in_range adj → 0 ≤ start < vsize adj →
  ∃ walk, eulerianTourHierholzer start adj = Some walk
    ∧ head walk = Some start
    ∧ (∀ v, v ∈ walk → 0 ≤ v < vsize adj)
    ∧ (length walk ≤ entries adj + 1)%nat.
Proof.
  intros Ha Hs.
  assert (state_in_range (adj, push_back [] start, [])) as Hr.
  { split; [done|]. simpl. intros v ->%list_elem_of_singleton. done. }
  destruct (hierholzer_loop_returns (euler_measure (adj, push_back [] start, []))
              (adj, push_back [] start, []) Hr ltac:(lia)) as [circuit Hrun].
  assert (eulerianTourHierholzer start adj = Some (rev circuit)) as Hwalk.
  { unfold eulerianTourHierholzer. cbv zeta. by rewrite Hrun. }
  exists (rev circuit). split; [done|]. split; [by eapply hierholzer_head|].
  assert (walk_inv adj (adj, push_back [] start, [])) as H0.
  { split; [done|]. split; [done|]. split; [by intros ? ?%elem_of_nil|simpl; lia]. }
  destruct (hierholzer_loop_partial (walk_inv adj) _ _ _ (walk_inv_step adj) H0 Hrun)
    as (adj' & _ & _ & Hc & Hcount).
  simpl in *. split.
  - intros v Hv. rewrite elem_of_rev in Hv. by apply Hc.
  - rewrite length_rev. lia.
Qed.

Lemma hierholzer_walk_shape_witness :
  ∃ walk, eulerianTourHierholzer 1 [[1; 2]; [0]; [0]] = Some walk
    ∧ head walk = Some 1
    ∧ (∀ v, v ∈ walk → 0 ≤ v < vsize [[1; 2]; [0]; [0]])
    ∧ (length walk ≤ entries [[1; 2]; [0]; [0]]%Z + 1)%nat.
Proof.
  apply (hierholzer_walk_shape [[1; 2]; [0]; [0]] 1).
  - apply in_rangeb_spec. vm_compute. reflexivity.
  - unfold vsize. simpl. lia.
Defined.

Definition even_degreesb (adj : adjacency) : bool :=
  forallb (λ l, Nat.even (length l)) adj.

Lemma even_degreesb_spec adj : even_degreesb adj = true → even_degrees adj.
Proof.
  unfold even_degreesb. rewrite forallb_forall. intros H u. unfold deg, nbrs.
  destruct (vget adj u) as [l|] eqn:Hl; [|by exists O].
  apply vget_elem_of, list_elem_of_In, H, Nat.even_spec in Hl. exact Hl.
Qed.

(** X13: on every symmetric multigraph without loops in which all degrees
    are even and every vertex can be reached from the start vertex,
    whatever the start vertex, [eulerianTourHierholzer] returns a closed
    walk from the start vertex that traverses every edge exactly as often
    as it is stored, visits every vertex, and has one more vertex than the
    multigraph has edges. *)
Theorem hierholzer_euler_circuit adj start :
  0 ≤ start < vsize adj → symmetric adj → loop_free adj → even_degrees adj →
  connected_from adj start →
  ∃ walk, eulerianTourHierholzer start adj = Some walk
    ∧ head walk = Some start ∧ last walk = Some start
    ∧ (∀ u v, uses walk u v = mult adj u v)
    ∧ (∀ v, 0 ≤ v < vsize adj ↔ v ∈ walk)
    ∧ (entries adj + 2 = 2 * length walk)%nat.
Proof.
  intros Hs Hsym Hloop Heven Hconn.
  exact (hierholzer_circuit adj start Hs Heven Hsym Hloop Hconn).
Qed.

Lemma hierholzer_euler_circuit_witness :
  ∃ walk, eulerianTourHierholzer 1 [[1; 2]; [0; 2]; [0; 1]] = Some walk
    ∧ head walk = Some 1 ∧ last walk = Some 1
    ∧ (∀ u v, uses walk u v = mult [[1; 2]; [0; 2]; [0; 1]] u v)
    ∧ (∀ v, 0 ≤ v < vsize [[1; 2]; [0; 2]; [0; 1]] ↔ v ∈ walk)
    ∧ (entries [[1; 2]; [0; 2]; [0; 1]]%Z + 2 = 2 * length walk)%nat.
Proof.
  apply (hierholzer_euler_circuit [[1; 2]; [0; 2]; [0; 1]] 1).
  - unfold vsize. simpl. lia.
  - apply symmetricb_spec. vm_compute. reflexivity.
  - apply loop_freeb_spec. vm_compute. reflexivity.
  - apply even_degreesb_spec. vm_compute. reflexivity.
  - intros v Hv. unfold vsize in Hv. simpl in Hv.
    assert (v = 0 ∨ v = 1 ∨ v = 2) as [-> | [-> | ->]] by lia.
    + apply (reach_step _ _ 1); [apply reach_refl|]. vm_compute. set_solver.
    + apply reach_refl.
    + apply (reach_step _ _ 1); [apply reach_refl|]. vm_compute. set_solver.
Defined.

(** ** Shortcutting *)

(** The shortcutting loop reads [visited[v]] for every vertex of the
    walk: when it runs to its end, all of them are below [n]. *)
Lemma shortcut_loop_in_range l :
  ∀ visited tour s', for_each l shortcut_step (visited, tour) = Some s' →
    ∀ v, v ∈ l → 0 ≤ v < vsize visited.
Proof.
  induction l as [|x l IH]; intros visited tour s' Hrun v Hv; [by apply elem_of_nil in Hv|].
  simpl in Hrun. apply bind_Some in Hrun as ([visited1 tour1] & Hstep & Hrun).
  unfold shortcut_step in Hstep. apply bind_Some in Hstep as (b & Hb & Hstep).
  assert (vsize visited1 = vsize visited) as Hsz.
  { destruct b; simpl in Hstep; [by injection Hstep as <- _|].
    apply bind_Some in Hstep as (visited2 & H2 & [= <- _]). by eapply vsize_vset. }
  apply elem_of_cons in Hv as [->|Hv]; [by eapply vget_range|].
  rewrite <- Hsz. by eapply IH.
Qed.

Lemma shortcut_in_range (n : nat) euler tour :
  shortcut n euler = Some tour → ∀ v, v ∈ euler → 0 ≤ v < Z.of_nat n.
Proof.
  intros Hrun v Hv. unfold shortcut in Hrun.
  apply bind_Some in Hrun as ([visited tour0] & Hrun & _).
  pose proof (shortcut_loop_in_range _ _ _ _ Hrun v Hv) as Hr.
  by rewrite vsize_replicate in Hr.
Qed.

Lemma rotate_to_zero_starts L : 0 ∈ L → head (rotate_to_zero L) = Some 0.
Proof.
  intros H0. unfold rotate_to_zero. destruct (find_pos 0 L) as [[|i]|] eqn:E.
  - apply find_pos_Some in E. by destruct L.
  - apply find_pos_Some in E. by rewrite (drop_S L 0 (Datatypes.S i) E).
  - by apply find_pos_None in E.
Qed.

(** X14: the shortcutting loop of [christofidesTour], run with [n]
    visited flags on a walk, stays inside the flags exactly when every
    vertex of the walk is below [n]; the tour it then builds ends with
    vertex 0, lists before that every vertex of the walk exactly once, in
    the order of first visits up to the rotation, and begins with vertex 0
    when the walk visits it. *)
Theorem shortcut_tour (n : nat) euler :
  (is_Some (shortcut n euler) ↔ ∀ v, v ∈ euler → 0 ≤ v < Z.of_nat n)
  ∧ ∀ tour, shortcut n euler = Some tour →
      tour = push_back (rotate_to_zero (first_occ [] euler)) 0
      ∧ last tour = Some 0
      ∧ NoDup (removelast tour)
      ∧ (∀ v, v ∈ removelast tour ↔ v ∈ euler)
      ∧ removelast tour ≡ₚ first_occ [] euler
      ∧ (0 ∈ euler → head tour = Some 0).
Proof.
  pose proof (shortcut_in_range n euler) as Hin.
  split.
  - split; [intros [tour Hrun]; by eapply Hin|].
    intros Hr. rewrite (shortcut_spec n euler Hr). by eexists.
  - intros tour Hrun. pose proof (Hin tour Hrun) as Hr.
    rewrite (shortcut_spec n euler Hr) in Hrun. injection Hrun as <-.
    unfold push_back. rewrite removelast_last, last_snoc.
    split; [done|]. split; [done|].
    split; [rewrite rotate_to_zero_Permutation; apply NoDup_first_occ|].
    split; [|split; [apply rotate_to_zero_Permutation|]].
    + intros v. rewrite rotate_to_zero_Permutation, elem_of_first_occ.
      split; [by intros [? _]|]. intros Hv. split; [done|apply not_elem_of_nil].
    + intros H0. assert (0 ∈ first_occ [] euler) as H0'.
      { apply elem_of_first_occ. split; [done|apply not_elem_of_nil]. }
      pose proof (rotate_to_zero_starts _ H0') as Hh.
      destruct (rotate_to_zero (first_occ [] euler)); [done|]. done.
Qed.

(** X15: in [christofidesTour] the rotation to vertex 0 never moves
    anything: the walk of [eulerianTourHierholzer(0, adj)] begins with
    vertex 0, so the list of first occurrences already does, and the tour
    is that list followed by 0. *)
Theorem christofides_rotation_idle d tour :
  christofidesTour d = Some tour →
  ∃ parent adj0 odd adj euler,
    primMST d = Some parent
    ∧ buildAdjFromParent parent = Some adj0
    ∧ findOddDegreeVertices adj0 = Some odd
    ∧ addGreedyPerfectMatching odd d adj0 = Some adj
    ∧ eulerianTourHierholzer 0 adj = Some euler
    ∧ head euler = Some 0
    ∧ rotate_to_zero (first_occ [] euler) = first_occ [] euler
    ∧ tour = push_back (first_occ [] euler) 0.
Proof.
  unfold christofidesTour. intros H.
  apply bind_Some in H as (parent & Hprim & H).
  apply bind_Some in H as (adj0 & Hbuild & H).
  apply bind_Some in H as (odd & Hfind & H).
  apply bind_Some in H as (adj & Hmatch & H).
  apply bind_Some in H as (euler & Heuler & Hcut).
  exists parent, adj0, odd, adj, euler.
  pose proof (hierholzer_head 0 adj euler Heuler) as Hh.
  assert (rotate_to_zero (first_occ [] euler) = first_occ [] euler) as Hrot.
  { apply rotate_to_zero_head. destruct euler as [|x l]; [done|]. by injection Hh as ->. }
  repeat (split; [done|]).
  pose proof (shortcut_in_range _ _ _ Hcut) as Hr.
  rewrite (shortcut_spec _ euler Hr) in Hcut. injection Hcut as <-. by rewrite Hrot.
Qed.

Lemma christofides_rotation_idle_witness :
  ∃ parent adj0 odd adj euler,
    primMST unit_square_matrix = Some parent
    ∧ buildAdjFromParent parent = Some adj0
    ∧ findOddDegreeVertices adj0 = Some odd
    ∧ addGreedyPerfectMatching odd unit_square_matrix adj0 = Some adj
    ∧ eulerianTourHierholzer 0 adj = Some euler
    ∧ head euler = Some 0
    ∧ rotate_to_zero (first_occ [] euler) = first_occ [] euler
    ∧ [0; 3; 2; 1; 0] = push_back (first_occ [] euler) 0.
Proof.
  apply (christofides_rotation_idle unit_square_matrix [0; 3; 2; 1; 0]).
  vm_compute. reflexivity.
Defined.

(** ** The greedy choice of the matching *)

Lemma elem_of_sel used odd (j : nat) w :
  used !! j = Some true → odd !! j = Some w → w ∈ sel used odd.
Proof.
  revert odd j. induction used as [|b used IH]; intros [|o odd] [|j] Hu Ho; try done.
  - simpl in *. injection Hu as ->. injection Ho as ->. by left.
  - simpl in *. destruct b; [right|]; by eapply IH.
Qed.

Section greedy_choice.
Variables (d : matrix) (odd : list Z).
Let k := vsize odd.
Hypothesis Hsq : square d.
Hypothesis Hodd : ∀ o, o ∈ odd → 0 ≤ o < vsize d.
Hypothesis Hnd : NoDup odd.
Hypothesis Hfin : ∀ a b x, a ∈ odd → b ∈ odd → mget d a b = Some x → finite x = true.

Implicit Types (used : list bool) (adj : adjacency) (M : list (Z * Z)).

(** After the positions below [j] the partner scan holds the nearest
    unmatched position after [i], or nothing when there is none. *)
Definition gscan_inv used (i j : Z) (s : float * Z) : Prop :=
  (s.2 = -1 ∧ s.1 = infinity ∧ ∀ j', i < j' < j → vget used j' = Some true)
  ∨ (i < s.2 < j ∧ vget used s.2 = Some false
     ∧ (∃ oi ob, vget odd i = Some oi ∧ vget odd s.2 = Some ob ∧ mget d oi ob = Some s.1)
     ∧ ∀ j' oi oj x, i < j' < j → vget used j' = Some false →
         vget odd i = Some oi → vget odd j' = Some oj → mget d oi oj = Some x →
         exact s.1 ≤ exact x).

Lemma greedy_scan_spec used i :
  vsize used = k → 0 ≤ i < k →
  ∃ s, for_range (i + 1) k (match_scan odd d used i) (infinity, -1) = Some s
       ∧ gscan_inv used i k s.
Proof.
  intros Hu Hi. apply for_range_inv; [lia| |].
  - left. split; [done|]. split; [done|]. intros; lia.
  - intros j [best bestj] Hj Inv. unfold match_scan.
    destruct (vget_in_range used j) as [uj Huj]; [lia|]. rewrite Huj. simpl.
    destruct uj; simpl.
    { eexists. split; [done|]. destruct Inv as [(? & ? & H)|(? & ? & ? & H)]; simpl in *.
      - left. simpl. split; [done|]. split; [done|]. intros j' Hj'.
        destruct (decide (j' = j)) as [->|?]; [done|]. apply H. lia.
      - right. simpl. split; [lia|]. split; [done|]. split; [done|].
        intros j' oi oj x Hj' Hu'.
        destruct (decide (j' = j)) as [->|?]; [congruence|]. apply H; [lia|done]. }
    destruct (vget_in_range odd i) as [oi Hoi]; [done|].
    destruct (vget_in_range odd j) as [oj Hoj]; [fold k; lia|].
    rewrite Hoi, Hoj. simpl.
    destruct (mget_square d oi oj Hsq) as [dist Hdist];
      [apply Hodd; by eapply vget_elem_of..|].
    assert (finite dist = true) as Hfd.
    { eapply (Hfin oi oj); [by eapply vget_elem_of..|done]. }
    rewrite Hdist. simpl. destruct (dist <? best)%float eqn:Hlt.
    + eexists. split; [done|]. right. simpl. split; [lia|]. split; [done|].
      split; [by exists oi, oj|]. intros j' oi' oj' x Hj' Hu' Hoi' Hoj' Hx.
      destruct (decide (j' = j)) as [->|?].
      { assert (x = dist) as -> by congruence. lia. }
      destruct Inv as [(? & ? & H)|(? & ? & (oi2 & ob & ? & ? & Hb) & H)]; simpl in *.
      * rewrite H in Hu' by lia. done.
      * assert (oi2 = oi) as -> by congruence.
        assert (finite best = true) as Hfb.
        { eapply (Hfin oi ob); [by eapply vget_elem_of..|done]. }
        rewrite (ltb_exact _ _ Hfd Hfb) in Hlt. apply bool_decide_eq_true in Hlt.
        specialize (H j' oi' oj' x ltac:(lia) Hu' Hoi' Hoj' Hx). lia.
    + destruct Inv as [(? & ? & H)|(? & ? & (oi2 & ob & ? & ? & Hb) & H)]; simpl in *.
      * subst best. by rewrite (ltb_inf_finite _ Hfd) in Hlt.
      * eexists. split; [done|]. right. simpl. split; [lia|]. split; [done|].
        split; [by exists oi2, ob|]. intros j' oi' oj' x Hj' Hu' Hoi' Hoj' Hx.
        destruct (decide (j' = j)) as [->|?]; [|apply (H j' oi' oj'); [lia|done..]].
        assert (oi2 = oi) as -> by congruence.
        assert (finite best = true) as Hfb.
        { eapply (Hfin oi ob); [by eapply vget_elem_of..|done]. }
        rewrite (ltb_exact _ _ Hfd Hfb) in Hlt. apply bool_decide_eq_false in Hlt.
        assert (oi' = oi) as -> by congruence. assert (oj' = oj) as -> by congruence.
        assert (x = dist) as -> by congruence. lia.
Qed.

(** Every pair joins its first vertex to a nearest vertex among those not
    paired before it. *)
Definition greedy M : Prop :=
  ∀ M1 u v M2, M = M1 ++ (u, v) :: M2 →
    ∀ w x y, w ∈ odd → w ∉ endpoints M1 → w ≠ u →
      mget d u v = Some x → mget d u w = Some y → exact x ≤ exact y.

Lemma greedy_iter adj0 i st M st' :
  match_inv odd adj0 i st M → greedy M → 0 ≤ i < k →
  match_iter odd d k i st = Some st' →
  ∃ M', match_inv odd adj0 (i + 1) st' M' ∧ greedy M'.
Proof.
  destruct st as [used adj]. intros [Hsz Hdone Hedges Hcover Hdist] Hgr Hi Hrun. simpl in *.
  unfold match_iter in Hrun.
  destruct (vget_in_range used i) as [ui Hui]; [fold k in Hsz; lia|].
  rewrite Hui in Hrun. simpl in Hrun.
  destruct ui.
  { injection Hrun as <-. exists M. split; [|done]. constructor; simpl; try done.
    intros j Hj. destruct (decide (j = i)) as [->|?]; [done|apply Hdone; lia]. }
  destruct (greedy_scan_spec used i Hsz Hi) as ([best bestj] & Hscan & Inv).
  rewrite Hscan in Hrun. simpl in Hrun.
  apply bind_Some in Hrun as (used1 & H1 & Hrun).
  apply bind_Some in Hrun as (used2 & H2 & Hrun).
  apply bind_Some in Hrun as (u & Hu & Hrun).
  apply bind_Some in Hrun as (v & Hv & Hrun).
  apply bind_Some in Hrun as (adj1 & Ha1 & Hrun).
  apply bind_Some in Hrun as (adj2 & Ha2 & [= <-]).
  pose proof (proj1 (proj1 (vset_Some _ _ _ _) H2)) as Hbr.
  destruct Inv as [(? & _)|(Hbj & Hbu & (oi & ob & Hoi & Hob & Hbest) & Hmin)];
    simpl in *; [lia|].
  assert (oi = u) as -> by congruence. assert (ob = v) as -> by congruence.
  assert (vget used1 bestj = Some false) as Hbu1.
  { rewrite (vget_vset_ne _ _ bestj _ _ H1) by lia. done. }
  exists (M ++ [(u, v)]). split.
  - constructor; simpl.
    + by rewrite (vsize_vset _ _ _ _ H2), (vsize_vset _ _ _ _ H1).
    + intros j Hj. rewrite (vget_vset _ _ j _ _ H2). case_decide; [done|].
      rewrite (vget_vset _ _ j _ _ H1). case_decide; [done|]. apply Hdone. lia.
    + by eapply add_edges_snoc.
    + rewrite endpoints_snoc, (vset_sel _ _ _ _ _ Hbu1 Hv H2), (vset_sel _ _ _ _ _ Hui Hu H1).
      rewrite Hcover. rewrite (Permutation_app_comm _ [u; v]). simpl. apply perm_swap.
    + intros a b [Hab|[= -> ->]%list_elem_of_singleton]%elem_of_app; [by apply Hdist|].
      intros ->. apply vget_Some in Hu as [_ Hu]. apply vget_Some in Hv as [_ Hv].
      pose proof (NoDup_lookup _ _ _ _ Hnd Hu Hv). lia.
  - intros M1 u' v' M2 HM w x y Hw HwM1 Hwu Hx Hy.
    destruct M2 as [|e M2 _] using rev_ind.
    + apply app_inj_tail in HM as [<- [= <- <-]].
      apply elem_of_vget in Hw as [j' Hj'].
      pose proof (vget_range _ _ _ Hj') as Hj'r. fold k in Hj'r.
      destruct (vget_in_range used j') as [b Hb]; [lia|].
      destruct b.
      { exfalso. apply HwM1. rewrite Hcover.
        apply vget_Some in Hb as [_ Hb]. apply vget_Some in Hj' as [_ Hj'].
        by eapply elem_of_sel. }
      assert (j' ≠ i) as Hne by (intros ->; congruence).
      assert (i < j') as Hlt.
      { destruct (decide (j' < i)) as [Hlt|?]; [|lia].
        rewrite Hdone in Hb by lia. done. }
      assert (x = best) as -> by congruence.
      apply (Hmin j' u w y); [lia|done..].
    + rewrite app_comm_cons, app_assoc in HM. apply app_inj_tail in HM as [-> _].
      by eapply (Hgr M1 u' v' M2).
Qed.

Lemma greedy_run adj0 adj :
  addGreedyPerfectMatching odd d adj0 = Some adj →
  ∃ M, add_edges adj0 M = Some adj ∧ endpoints M ≡ₚ odd ∧ greedy M.
Proof.
  unfold addGreedyPerfectMatching. fold k. case_decide as Hk.
  - intros [= <-]. exists []. split; [done|]. split.
    + unfold k, vsize in Hk. destruct odd; [done|simpl in Hk; lia].
    + intros M1 u v M2 HM. by destruct M1.
  - intros Hrun. apply bind_Some in Hrun as ([used adj'] & Hrun & [= <-]).
    destruct (for_range_inv_partial (λ i st, ∃ M, match_inv odd adj0 i st M ∧ greedy M)
      0 k _ _ _ ltac:(unfold k, vsize; lia) Hrun) as (M & Inv & Hgr).
    + exists []. split; [apply (match_init_inv d)|]. intros M1 u v M2 HM. by destruct M1.
    + intros i st st' Hi (M & Inv & Hgr) Hstep. by eapply greedy_iter.
    + exists M. split; [apply (mi_edges _ _ _ _ _ Inv)|]. split; [|done].
      by eapply (match_final d odd).
Qed.
End greedy_choice.

(** X16: on a duplicate-free list of even length of vertices at finite
    distances from one another, the pairs that
    [addGreedyPerfectMatching] adds, in the order it adds them, are
    greedy: each pair joins its first vertex [u] to a vertex [v] that is
    at least as near to [u] as every other listed vertex not paired
    before. *)
Theorem greedy_matching_nearest d odd adj0 :
  square d → NoDup odd → Nat.Even (length odd) →
  (∀ o, o ∈ odd → 0 ≤ o < vsize d ∧ 0 ≤ o < vsize adj0) →
  (∀ a b x, a ∈ odd → b ∈ odd → mget d a b = Some x → finite x = true) →
  ∃ adj M,
    addGreedyPerfectMatching odd d adj0 = Some adj
    ∧ add_edges adj0 M = Some adj
    ∧ endpoints M ≡ₚ odd
    ∧ ∀ M1 u v M2, M = M1 ++ (u, v) :: M2 →
        ∀ w x y, w ∈ odd → w ∉ endpoints M1 → w ≠ u →
          mget d u v = Some x → mget d u w = Some y → exact x ≤ exact y.
Proof.
  intros Hsq Hnd Hev Hr Hfin.
  assert (∀ o, o ∈ odd → 0 ≤ o < vsize d) as Hor by (intros o Ho; by apply Hr).
  destruct (matching_total d odd Hsq Hor Hnd adj0 Hev Hfin) as [adj Hmatch].
  { intros o Ho. by apply Hr. }
  destruct (greedy_run d odd Hsq Hor Hnd Hfin adj0 adj Hmatch) as (M & HM & Hperf & Hgr).
  exists adj, M. split; [done|]. split; [done|]. split; [done|]. exact Hgr.
Qed.

Lemma greedy_matching_nearest_witness :
  ∃ adj M,
    addGreedyPerfectMatching [0; 1; 2; 3] unit_square_matrix [[]; []; []; []] = Some adj
    ∧ add_edges [[]; []; []; []] M = Some adj
    ∧ endpoints M ≡ₚ [0; 1; 2; 3]
    ∧ ∀ M1 u v M2, M = M1 ++ (u, v) :: M2 →
        ∀ w x y, w ∈ [0; 1; 2; 3] → w ∉ endpoints M1 → w ≠ u →
          mget unit_square_matrix u v = Some x → mget unit_square_matrix u w = Some y →
          exact x ≤ exact y.
Proof.
  apply (greedy_matching_nearest unit_square_matrix [0; 1; 2; 3] [[]; []; []; []]).
  - apply squareb_spec. vm_compute. reflexivity.
  - apply (bool_decide_eq_true_1 (NoDup [0; 1; 2; 3])). vm_compute. reflexivity.
  - exists 2%nat. reflexivity.
  - intros o Ho. change (vsize unit_square_matrix) with 4.
    change (vsize [[]; []; []; [] : list Z]) with 4.
    repeat (apply elem_of_cons in Ho as [->|Ho]; [lia|]). by apply elem_of_nil in Ho.
  - intros a b x _ _ Hx. revert a b x Hx. apply finite_matrixb_spec.
    vm_compute. reflexivity.
Defined.

(** ** Prim's algorithm whenever it returns *)

(** X17: whenever [primMST] returns on a square matrix, also one that
    holds infinities, the matrix is not empty and the parent vector has
    [parent[0] = -1], gives every other vertex a parent that is a valid
    vertex, and its edges [(v, parent[v])] join every vertex to vertex 0
    without a cycle. *)
Theorem primMST_returns_tree d parent :
  square d → primMST d = Some parent →
  1 ≤ vsize d
  ∧ vsize parent = vsize d
  ∧ vget parent 0 = Some (-1)
  ∧ (∀ v, 1 ≤ v < vsize d →
       vget parent v = Some (parent_of parent v) ∧ 0 ≤ parent_of parent v < vsize d)
  ∧ (∀ v, 0 ≤ v < vsize d → reachE (tree_edges parent) 0 v)
  ∧ acyclic (tree_edges parent).
Proof.
  intros Hsq Hprim.
  destruct (primMST_tree d Hsq parent Hprim) as [ord Htree].
  split; [apply (pt_nonempty _ _ _ Htree)|]. split; [apply (pt_size _ _ _ Htree)|].
  split; [apply (pt_root _ _ _ Htree)|]. split; [|split].
  - intros v Hv.
    destruct (tree_positions d parent ord Htree v ltac:(lia)) as (A & B & E).
    assert (A ≠ []) as HA.
    { intros ->. pose proof (pt_head _ _ _ Htree) as Hh. rewrite E in Hh.
      injection Hh as ->. lia. }
    destruct (pt_par _ _ _ Htree A v B E HA) as (p & Hp & HpA).
    unfold parent_of. rewrite Hp. simpl. split; [done|].
    apply (pt_all _ _ _ Htree). rewrite E. set_solver.
  - by apply (tree_connected d parent ord Htree).
  - by apply (tree_acyclic d parent ord Htree).
Qed.

(** A path of three vertices whose ends are infinitely far apart. *)
Definition broken_line : matrix :=
  [[0; 1; infinity]; [1; 0; 1]; [infinity; 1; 0]]%float.

Lemma primMST_returns_tree_witness :
  1 ≤ vsize broken_line
  ∧ vsize [-1; 0; 1] = vsize broken_line
  ∧ vget [-1; 0; 1] 0 = Some (-1)
  ∧ (∀ v, 1 ≤ v < vsize broken_line →
       vget [-1; 0; 1] v = Some (parent_of [-1; 0; 1] v)
       ∧ 0 ≤ parent_of [-1; 0; 1] v < vsize broken_line)
  ∧ (∀ v, 0 ≤ v < vsize broken_line → reachE (tree_edges [-1; 0; 1]) 0 v)
  ∧ acyclic (tree_edges [-1; 0; 1]).
Proof.
  apply (primMST_returns_tree broken_line [-1; 0; 1]).
  - apply squareb_spec. vm_compute. reflexivity.
  - vm_compute. reflexivity.
Defined.

(** ** The whole program *)

(** X18: when the file holds at least two points and all their distances
    are finite doubles, [main] runs the three stages, writes the length
    that [tourLength] computes for the tour of [christofidesTour], asks
    for the grid size, draws, and returns 0; the tour it writes starts
    and ends at city 0 and visits every city exactly once in between. *)
Theorem main_runs_pipeline fs prog filename rest ps d :
  fs filename = Some ps → (2 ≤ length ps)%nat →
  buildDistanceMatrix ps = Some d → finite_matrix d →
  ∃ tour len,
    christofidesTour d = Some tour
    ∧ tourLength tour d = Some len
    ∧ main fs (prog :: filename :: rest)
      = Some (0, [Call "buildDistanceMatrix"; Call "christofidesTour";
                  Call "tourLength"; CoutLength len; CoutTour tour;
                  Cout ("Enter original gridSize used to generate " ++ filename ++ ": ");
                  Call "writeSolutionSVG"]%string)
    ∧ vsize tour = vsize ps + 1
    ∧ take (length ps) tour ≡ₚ seqZ 0 (vsize ps)
    ∧ head tour = Some 0 ∧ last tour = Some 0.
Proof.
  intros Hfs Hlen Hrun Hfin.
  destruct (buildDistanceMatrix_spec ps) as (d' & Hrun' & Hd & Hsq & _).
  assert (d' = d) as -> by congruence.
  assert (length d = length ps) as Hld by (unfold vsize in Hd; lia).
  destruct (tour_well_formed d Hsq Hfin ltac:(unfold vsize in *; lia))
    as (tour & Htour & Hsz & Hperm & Hh & Hl).
  assert (∀ v, v ∈ tour → 0 ≤ v < vsize d) as Hr.
  { destruct tour as [|x l _] using rev_ind; [done|].
    rewrite last_snoc in Hl. injection Hl as ->.
    assert (length l = length d) as Hll.
    { unfold vsize in Hsz. rewrite length_app in Hsz. simpl in Hsz. lia. }
    rewrite <- Hll, take_app_length in Hperm.
    intros v [Hv| ->%list_elem_of_singleton]%elem_of_app; [|unfold vsize in *; lia].
    rewrite Hperm in Hv. apply elem_of_seqZ in Hv. lia. }
  destruct (proj2 (tourLength_is_Some d tour Hsq ltac:(unfold vsize in *; lia)) Hr)
    as [len Hlen'].
  exists tour, len. split; [done|]. split; [done|]. split.
  - unfold main, loadPoints. rewrite Hfs.
    destruct ps as [|p [|q ps]]; [simpl in Hlen; lia..|].
    cbn [app negb]. rewrite bool_decide_eq_false_2 by done. cbn [negb].
    rewrite decide_False by (unfold vsize; simpl; lia).
    rewrite Hrun. simpl. rewrite Htour. simpl. rewrite Hlen'. done.
  - rewrite <- Hld, <- Hd. done.
Qed.

Lemma main_runs_pipeline_witness :
  ∃ tour len,
    christofidesTour unit_square_matrix = Some tour
    ∧ tourLength tour unit_square_matrix = Some len
    ∧ main (λ _, Some unit_square) ["christofides"; "square.txt"]%string
      = Some (0, [Call "buildDistanceMatrix"; Call "christofidesTour";
                  Call "tourLength"; CoutLength len; CoutTour tour;
                  Cout ("Enter original gridSize used to generate " ++ "square.txt" ++ ": ");
                  Call "writeSolutionSVG"]%string)
    ∧ vsize tour = vsize unit_square + 1
    ∧ take (length unit_square) tour ≡ₚ seqZ 0 (vsize unit_square)
    ∧ head tour = Some 0 ∧ last tour = Some 0.
Proof.
  apply (main_runs_pipeline (λ _, Some unit_square) "christofides" "square.txt" []
           unit_square unit_square_matrix).
  - reflexivity.
  - simpl. lia.
  - reflexivity.
  - apply finite_matrixb_spec. vm_compute. reflexivity.
Defined.

(** X19: whenever [main] runs to its end the exit code is 0 or 1; it is 1
    exactly when no file name was given or the file cannot be opened or
    holds no point; and a stage of the pipeline is called only when the
    file holds at least two points. *)
Theorem main_exit_code fs argv code events :
  main fs argv = Some (code, events) →
  (code = 0 ∨ code = 1)
  ∧ (code = 1 ↔
       (length argv < 2)%nat
       ∨ ∃ filename, argv !! 1%nat = Some filename
                     ∧ (fs filename = None ∨ fs filename = Some []))
  ∧ ((∃ stage, Call stage ∈ events) →
     ∃ filename ps, argv !! 1%nat = Some filename ∧ fs filename = Some ps
                    ∧ (2 ≤ length ps)%nat).
Proof.
  unfold main, loadPoints. intros Hrun.
  destruct argv as [|prog [|filename rest]].
  - injection Hrun as <- <-. split; [by right|]. split.
    + split; [intros _; left; simpl; lia|done].
    + intros [stage Hst]. set_solver.
  - injection Hrun as <- <-. split; [by right|]. split.
    + split; [intros _; left; simpl; lia|done].
    + intros [stage Hst]. set_solver.
  - destruct (fs filename) as [ps|] eqn:Hfs.
    + destruct ps as [|p [|q ps]]; cbn [app negb] in Hrun.
      * injection Hrun as <- <-. split; [by right|]. split.
        -- split; [intros _; right; exists filename; split; [done|by right]|done].
        -- intros [stage Hst]. set_solver.
      * rewrite bool_decide_eq_false_2 in Hrun by done. cbn [negb] in Hrun.
        rewrite decide_True in Hrun by done.
        injection Hrun as <- <-. split; [by left|]. split.
        -- split; [done|]. intros [Hl|(f & Hf & [Hn|Hn])].
           ++ simpl in Hl. lia.
           ++ injection Hf as <-. congruence.
           ++ injection Hf as <-. congruence.
        -- intros [stage Hst]. set_solver.
      * rewrite bool_decide_eq_false_2 in Hrun by done. cbn [negb] in Hrun.
        rewrite decide_False in Hrun by (unfold vsize; simpl; lia).
        apply bind_Some in Hrun as (d & Hd & Hrun).
        apply bind_Some in Hrun as (tour & Htour & Hrun).
        apply bind_Some in Hrun as (len & Hlen & [= <- <-]).
        split; [by left|]. split.
        -- split; [done|]. intros [Hl|(f & Hf & [Hn|Hn])].
           ++ simpl in Hl. lia.
           ++ injection Hf as <-. congruence.
           ++ injection Hf as <-. congruence.
        -- intros _. exists filename, (p :: q :: ps). split; [done|]. split; [done|].
           simpl. lia.
    + simpl in Hrun. injection Hrun as <- <-. split; [by right|]. split.
      * split; [intros _; right; exists filename; split; [done|by left]|done].
      * intros [stage Hst]. set_solver.
Qed.

Lemma main_exit_code_witness :
  (1 = 0 ∨ 1 = 1)
  ∧ (1 = 1 ↔
       (length ["christofides"; "missing.txt"]%string < 2)%nat
       ∨ ∃ filename, ["christofides"; "missing.txt"]%string !! 1%nat = Some filename
                     ∧ ((λ _ : string, @None (list Point)) filename = None
                        ∨ (λ _ : string, @None (list Point)) filename = Some []))
  ∧ ((∃ stage, Call stage ∈ [Cerr "Error: could not read points from missing.txt"%string]) →
     ∃ filename ps, ["christofides"; "missing.txt"]%string !! 1%nat = Some filename
                    ∧ (λ _ : string, @None (list Point)) filename = Some ps
                    ∧ (2 ≤ length ps)%nat).
Proof.
  apply (main_exit_code (λ _, None) ["christofides"; "missing.txt"]%string 1
           [Cerr "Error: could not read points from missing.txt"%string]).
  reflexivity.
Defined.

(** ** Distances and lengths are never negative *)

(** The sign bit is [s], or the value is NaN. *)
Definition signed (s : bool) (f : spec_float) : Prop :=
  match f with
  | S754_zero s' | S754_infinity s' | S754_finite s' _ _ => s' = s
  | S754_nan => True
  end.

(** The sign bit of a double is clear, or it is NaN. *)
Definition unsigned (x : float) : Prop := signed false (Prim2SF x).

Lemma binary_round_aux_signed s m e l : signed s (binary_round_aux prec emax s m e l).
Proof.
  unfold binary_round_aux.
  destruct (shr_fexp prec emax m e l) as [mrs e1].
  destruct (shr_fexp prec emax _ e1 loc_Exact) as [mrs2 e2].
  destruct (shr_m mrs2); [done| |done]. by destruct (e2 <=? emax - prec).
Qed.

Lemma SFmul_square_signed x : signed false (SFmul prec emax x x).
Proof.
  destruct x as [s|s| |s m e]; try (by destruct s); [done|].
  unfold SFmul. rewrite Bool.xorb_nilpotent. apply binary_round_aux_signed.
Qed.

Lemma binary_normalize_signed m e :
  0 ≤ m → signed false (binary_normalize prec emax m e false).
Proof.
  intros Hm. destruct m as [|p|p]; [done| |lia].
  unfold binary_normalize, binary_round.
  destruct (shl_align p e _) as [mz ez]. apply binary_round_aux_signed.
Qed.

Lemma SFadd_signed x y :
  signed false x → signed false y → signed false (SFadd prec emax x y).
Proof.
  destruct x as [sx|sx| |sx mx ex], y as [sy|sy| |sy my ey]; cbn [signed];
    intros Hx Hy; subst; try done.
  unfold SFadd. cbv zeta. apply binary_normalize_signed. cbn [cond_Zopp]. lia.
Qed.

Lemma SFsqrt_signed x : signed false x → signed false (SFsqrt prec emax x).
Proof.
  destruct x as [s|s| |s m e]; simpl; intros Hx; subst; try done.
  destruct (SFsqrt_core_binary prec emax (Z.pos m) e) as [[mz ez] lz].
  apply binary_round_aux_signed.
Qed.

Lemma unsigned_not_negative x : unsigned x → (x <? 0)%float = false.
Proof.
  unfold unsigned. rewrite ltb_spec.
  replace (Prim2SF 0) with (S754_zero false) by (vm_compute; reflexivity).
  destruct (Prim2SF x) as [s|s| |s m e]; simpl; intros Hx; subst; done.
Qed.

Lemma distEuclid_unsigned a b : unsigned (distEuclid a b).
Proof.
  unfold unsigned, distEuclid. cbv zeta. rewrite sqrt_spec, add_spec, !mul_spec.
  apply SFsqrt_signed, SFadd_signed; apply SFmul_square_signed.
Qed.

Lemma add_unsigned x y : unsigned x → unsigned y → unsigned (x + y).
Proof. unfold unsigned. rewrite add_spec. apply SFadd_signed. Qed.

(** The entries of a built matrix are values of [distEuclid]. *)
Lemma buildDistanceMatrix_unsigned pts d i j x :
  buildDistanceMatrix pts = Some d → mget d i j = Some x → unsigned x.
Proof.
  intros Hrun Hx.
  destruct (buildDistanceMatrix_spec pts) as (d' & Hrun' & Hd & Hsq & Hent).
  assert (d' = d) as -> by congruence.
  destruct (proj1 (mget_defined d i j Hsq) ltac:(by eexists)) as [Hi Hj].
  destruct (vget_in_range pts i ltac:(lia)) as [a Ha].
  destruct (vget_in_range pts j ltac:(lia)) as [b Hb].
  rewrite (Hent i j a b Ha Hb) in Hx. injection Hx as <-. apply distEuclid_unsigned.
Qed.

Lemma tourLength_unsigned d tour len :
  (∀ i j x, mget d i j = Some x → unsigned x) →
  tourLength tour d = Some len → unsigned len.
Proof.
  intros Hd. revert len. induction tour as [|b l IH] using rev_ind.
  { intros len [= <-]. by vm_compute. }
  destruct l as [|a l _] using rev_ind.
  { intros len [= <-]. by vm_compute. }
  intros len. rewrite <- app_assoc. cbn [app]. rewrite tourLength_snoc.
  intros H. apply bind_Some in H as (len0 & Hlen0 & H).
  apply bind_Some in H as (w & Hw & [= <-]).
  apply add_unsigned; [by apply IH|by eapply Hd].
Qed.

(** X20: [distEuclid] never returns a negative number, nor [-0.0]: for
    all doubles, infinities and NaN included, the sign bit of the result
    is clear or the result is NaN, and so is every entry of the matrix of
    [buildDistanceMatrix]; in particular no entry compares below [0.0]. *)
Theorem distances_not_negative :
  (∀ a b, unsigned (distEuclid a b) ∧ (distEuclid a b <? 0)%float = false)
  ∧ ∀ pts, ∃ d, buildDistanceMatrix pts = Some d
      ∧ ∀ i j x, mget d i j = Some x → unsigned x ∧ (x <? 0)%float = false.
Proof.
  split.
  - intros a b. split; [apply distEuclid_unsigned|].
    apply unsigned_not_negative, distEuclid_unsigned.
  - intros pts. destruct (buildDistanceMatrix_spec pts) as (d & Hrun & _).
    exists d. split; [done|]. intros i j x Hx.
    pose proof (buildDistanceMatrix_unsigned pts d i j x Hrun Hx) as Hu.
    split; [done|by apply unsigned_not_negative].
Qed.

(** X21: the length that [tourLength] computes over a matrix built by
    [buildDistanceMatrix] is never negative, for every tour: its sign bit
    is clear or it is NaN, so it does not compare below [0.0]. *)
Theorem tourLength_not_negative pts d tour len :
  buildDistanceMatrix pts = Some d → tourLength tour d = Some len →
  unsigned len ∧ (len <? 0)%float = false.
Proof.
  intros Hrun Hlen.
  assert (unsigned len) as Hu.
  { eapply tourLength_unsigned; [|done]. intros i j x Hx.
    by eapply buildDistanceMatrix_unsigned. }
  split; [done|by apply unsigned_not_negative].
Qed.

Lemma tourLength_not_negative_witness :
  unsigned 4 ∧ (4 <? 0)%float = false.
Proof.
  apply (tourLength_not_negative unit_square unit_square_matrix [0; 3; 2; 1; 0] 4);
    reflexivity.
Defined.
